(** * Document chunking and correlation pipeline of graphrag_mcp_server

    A shallow embedding of [graphrag_mcp_server/document_import]:
    the data model ([models.py]), the two chunkers ([chunker/base.py],
    [chunker/default.py], [chunker/japanese.py], [chunker/factory.py]), the
    correlation builder ([correlation.py]), the element normalizer
    ([normalizer.py]), the parser's argument checks ([parser.py]) and the
    import orchestrator ([importer.py]).

    Conventions.
    - A Python [str] is a list of Unicode code points ([N]).
    - A Python [int] is a [Z]; a Python [float] is a binary64 [PrimFloat.float].
    - A Python exception is a value of [exn]; a function that can raise
      returns an [outcome].  A [while] loop runs on fuel and yields
      [OutOfFuel] when the fuel does not suffice.
    - [uuid4()] is a stream of identifiers, read by position. *)

From Stdlib Require Import Ascii String.
From Stdlib Require Import List ZArith NArith Lia Bool Floats Uint63.
From Stdlib Require Import Permutation Sorted.
Import ListNotations.
Open Scope Z_scope.

(* ================================================================= *)
(** ** Python strings *)

Module PyStr.

Definition char := N.
Definition str := list char.

Definition len (s : str) : Z := Z.of_nat (length s).

(** [str.isspace] on one code point ([Py_UNICODE_ISSPACE]); the same predicate
    drives [str.strip], [str.split] and the regular expression class [\s]. *)
Definition isspace (c : char) : bool :=
  (((9 <=? c) && (c <=? 13)) || ((28 <=? c) && (c <=? 32))
   || (c =? 133) || (c =? 160) || (c =? 5760)
   || ((8192 <=? c) && (c <=? 8202))
   || (c =? 8232) || (c =? 8233) || (c =? 8239) || (c =? 8287)
   || (c =? 12288))%N.

Fixpoint lstrip (s : str) : str :=
  match s with
  | [] => []
  | c :: s' => if isspace c then lstrip s' else s
  end.

Definition rstrip (s : str) : str := rev (lstrip (rev s)).

Definition strip (s : str) : str := rstrip (lstrip s).

(** [s.split()]: maximal runs of non-whitespace code points. *)
Fixpoint split_ws_aux (cur : str) (s : str) : list str :=
  match s with
  | [] => match cur with [] => [] | _ => [rev cur] end
  | c :: s' =>
      if isspace c
      then match cur with
           | [] => split_ws_aux [] s'
           | _ => rev cur :: split_ws_aux [] s'
           end
      else split_ws_aux (c :: cur) s'
  end.

Definition split_ws (s : str) : list str := split_ws_aux [] s.

(** [sep.join(l)] *)
Fixpoint join (sep : str) (l : list str) : str :=
  match l with
  | [] => []
  | [x] => x
  | x :: l' => x ++ sep ++ join sep l'
  end.

(** Index normalisation of a slice bound. *)
Definition norm_index (n i : Z) : Z :=
  if i <? 0 then Z.max 0 (i + n) else Z.min i n.

(** [s[i:j]] *)
Definition slice (s : str) (i j : Z) : str :=
  let a := norm_index (len s) i in
  let b := norm_index (len s) j in
  firstn (Z.to_nat (b - a)) (skipn (Z.to_nat a) s).

(** [s[i:]] *)
Definition slice_from (s : str) (i : Z) : str :=
  skipn (Z.to_nat (norm_index (len s) i)) s.

(** [s[i]]; [None] stands for [IndexError]. *)
Definition getitem (s : str) (i : Z) : option char :=
  let k := if i <? 0 then i + len s else i in
  if k <? 0 then None else nth_error s (Z.to_nat k).

Fixpoint prefix_b (p s : str) : bool :=
  match p, s with
  | [], _ => true
  | a :: p', b :: s' => (a =? b)%N && prefix_b p' s'
  | _ :: _, [] => false
  end.

(** Lowest offset at which [sub] starts in [s], counted from [i]. *)
Fixpoint find_from (sub s : str) (i : Z) : Z :=
  match s with
  | [] => if prefix_b sub [] then i else -1
  | _ :: s' => if prefix_b sub s then i else find_from sub s' (i + 1)
  end.

(** [s.find(sub, start)] *)
Definition find (s sub : str) (start : Z) : Z :=
  let a := if start <? 0 then Z.max 0 (start + len s) else start in
  if len s <? a then -1 else find_from sub (skipn (Z.to_nat a) s) a.

Fixpoint rfind_aux (c : char) (s : str) (i best : Z) : Z :=
  match s with
  | [] => best
  | x :: s' => rfind_aux c s' (i + 1) (if (x =? c)%N then i else best)
  end.

(** [s.rfind(c, start, end)] for a one-character needle [c]. *)
Definition rfind_char (s : str) (c : char) (start end_ : Z) : Z :=
  let a := norm_index (len s) start in
  rfind_aux c (slice s start end_) a (-1).

Definition eqb (a b : str) : bool :=
  if list_eq_dec N.eq_dec a b then true else false.

(** A code point that is not whitespace occurs in [s]. *)
Definition has_ink (s : str) : bool := existsb (fun c => negb (isspace c)) s.

End PyStr.
Import PyStr.

(* ================================================================= *)
(** ** Exceptions and outcomes *)

Inductive exn : Type :=
| FileNotFoundError (msg : string)
| UnsupportedFormatError (format : string)
| DocumentParseError (msg : string)
| ImportError (msg : string)
| IndexError
| OtherException (msg : string).

Inductive outcome (A : Type) : Type :=
| Ok (a : A)
| Raise (e : exn)
| OutOfFuel.
Arguments Ok {A} a.
Arguments Raise {A} e.
Arguments OutOfFuel {A}.

Definition bind {A B : Type} (m : outcome A) (f : A -> outcome B) : outcome B :=
  match m with
  | Ok a => f a
  | Raise e => Raise e
  | OutOfFuel => OutOfFuel
  end.

Notation "x <- m ;; k" := (bind m (fun x => k))
  (at level 61, m at next level, right associativity).

(** A loop body run over a list, left to right, stopping at the first
    exception. *)
Fixpoint foldM {A S : Type} (f : S -> A -> outcome S) (l : list A) (s : S)
  : outcome S :=
  match l with
  | [] => Ok s
  | x :: l' => s' <- f s x ;; foldM f l' s'
  end.

(* ================================================================= *)
(** ** models.py *)

Inductive ElementType : Type :=
| TITLE | NARRATIVE_TEXT | LIST_ITEM | TABLE | IMAGE | HEADER | FOOTER
| PAGE_BREAK | FORMULA | CODE | UNCATEGORIZED.

Inductive Language : Type :=
| JAPANESE | ENGLISH | CHINESE | KOREAN | UNKNOWN.

Inductive CorrelationType : Type :=
| ADJACENT | SEMANTIC | REFERENCE | HIERARCHICAL | COOCCURRENCE.

Definition Language_eqb (a b : Language) : bool :=
  match a, b with
  | JAPANESE, JAPANESE | ENGLISH, ENGLISH | CHINESE, CHINESE
  | KOREAN, KOREAN | UNKNOWN, UNKNOWN => true
  | _, _ => false
  end.

Definition CorrelationType_eqb (a b : CorrelationType) : bool :=
  match a, b with
  | ADJACENT, ADJACENT | SEMANTIC, SEMANTIC | REFERENCE, REFERENCE
  | HIERARCHICAL, HIERARCHICAL | COOCCURRENCE, COOCCURRENCE => true
  | _, _ => false
  end.

Definition UUID := N.

(** Values stored in the free-form metadata dictionaries. *)
Inductive MetaValue : Type :=
| MInt (z : Z)
| MFloat (f : float)
| MStr (s : string)
| MNone.

Definition Metadata := list (string * MetaValue).

Record NormalizedElement : Type := mkNormalizedElement {
  ne_id : UUID;
  ne_element_type : ElementType;
  ne_text : str;
  ne_language : Language;
  ne_page_number : option Z;
  ne_position : Z;
  ne_parent_id : option UUID;
  ne_heading_level : option Z;
  ne_raw_metadata : Metadata
}.

Record TextChunk : Type := mkTextChunk {
  tc_id : UUID;
  tc_text : str;
  tc_language : Language;
  tc_source_elements : list UUID;
  tc_document_id : UUID;
  tc_chunk_index : Z;
  tc_start_char : Z;
  tc_end_char : Z;
  tc_token_count : Z;
  tc_metadata : Metadata
}.

Record ChunkCorrelation : Type := mkChunkCorrelation {
  cc_id : UUID;
  cc_source_chunk_id : UUID;
  cc_target_chunk_id : UUID;
  cc_correlation_type : CorrelationType;
  cc_weight : float;
  cc_metadata : Metadata
}.

Record CorrelationGraph : Type := mkCorrelationGraph {
  cg_document_id : UUID;
  cg_nodes : list UUID;
  cg_edges : list ChunkCorrelation;
  cg_node_count : Z;
  cg_edge_count : Z;
  cg_density : float
}.

(** Python [int / int] and [int / float]: the operands are converted to
    binary64 and divided (exact for counts below 2^53). *)
Definition float_of_int (z : Z) : float := PrimFloat.of_uint63 (Uint63.of_Z z).

Definition true_div (a b : Z) : float :=
  PrimFloat.div (float_of_int a) (float_of_int b).

(** [CorrelationGraph._update_density] *)
Definition _update_density (g : CorrelationGraph) : CorrelationGraph :=
  if cg_node_count g >? 1 then
    let max_edges := true_div (cg_node_count g * (cg_node_count g - 1)) 2 in
    let d := if PrimFloat.ltb 0%float max_edges
             then PrimFloat.div (float_of_int (cg_edge_count g)) max_edges
             else 0%float in
    mkCorrelationGraph (cg_document_id g) (cg_nodes g) (cg_edges g)
                       (cg_node_count g) (cg_edge_count g) d
  else g.

(** [CorrelationGraph.add_correlation] *)
Definition add_correlation (g : CorrelationGraph) (c : ChunkCorrelation)
  : CorrelationGraph :=
  let edges := cg_edges g ++ [c] in
  _update_density
    (mkCorrelationGraph (cg_document_id g) (cg_nodes g) edges
                        (cg_node_count g) (Z.of_nat (length edges))
                        (cg_density g)).

Record ImportConfig : Type := mkImportConfig {
  chunk_size : Z;
  chunk_overlap : Z;
  auto_detect_language : bool;
  default_language : Language;
  build_correlation_graph : bool;
  semantic_similarity_threshold : float;
  output_format : string
}.

(** The [Field] constraints of [ImportConfig]: [ge]/[le] bounds, one field at
    a time.  The class declares no validator that relates two fields. *)
Definition ImportConfig_valid (c : ImportConfig) : bool :=
  (100 <=? chunk_size c) && (chunk_size c <=? 10000)
  && (0 <=? chunk_overlap c)
  && PrimFloat.leb 0%float (semantic_similarity_threshold c)
  && PrimFloat.leb (semantic_similarity_threshold c) 1%float.

(** [ImportConfig(...)]: the constructor returns the object when every field
    passes its constraint and raises a validation error otherwise. *)
Definition ImportConfig_new (cs co : Z) (adl : bool) (dl : Language)
  (bcg : bool) (thr : float) (fmt : string) : outcome ImportConfig :=
  let c := mkImportConfig cs co adl dl bcg thr fmt in
  if ImportConfig_valid c then Ok c
  else Raise (OtherException "ValidationError"%string).

(* ================================================================= *)
(** ** chunker/base.py, chunker/default.py, chunker/japanese.py *)

(** The morphological analyser ([fugashi.Tagger]): a text is mapped to the
    surfaces of its morphemes.  The backend is optional: [None] is the
    state in which [import fugashi] fails. *)
Definition Tagger := str -> list str.

(** A chunker object: its class and the three attributes set by
    [BaseChunker.__init__]. *)
Inductive Chunker : Type :=
| DefaultChunker (language : Language) (chunk_size chunk_overlap : Z)
| JapaneseChunker (chunk_size chunk_overlap : Z).

Definition chunker_language (c : Chunker) : Language :=
  match c with
  | DefaultChunker l _ _ => l
  | JapaneseChunker _ _ => JAPANESE
  end.

Definition chunker_chunk_size (c : Chunker) : Z :=
  match c with
  | DefaultChunker _ s _ => s
  | JapaneseChunker s _ => s
  end.

Definition chunker_chunk_overlap (c : Chunker) : Z :=
  match c with
  | DefaultChunker _ _ o => o
  | JapaneseChunker _ o => o
  end.

(** [range(a, b)] and [range(a, -1, -1)] *)
Definition range (a b : Z) : list Z :=
  map (fun k => a + Z.of_nat k) (seq 0 (Z.to_nat (b - a))).

Definition range_down (a : Z) : list Z := rev (range 0 (a + 1)).

Module Default.

(** The character class [[.!?]] of [SENTENCE_ENDINGS]. *)
Definition is_sentence_punct (c : char) : bool :=
  ((c =? 46) || (c =? 33) || (c =? 63))%N.

(** [SENTENCE_ENDINGS.split(text)] for the pattern [(?<=[.!?])\s+]: a match
    starts at a whitespace code point that directly follows one of [.!?] and
    extends over the whole whitespace run.  [in_sep] holds while a match is
    being consumed, [after_punct] when the previous code point is in the
    class; [cur] is the current piece, reversed. *)
Fixpoint re_split (in_sep after_punct : bool) (cur : str) (t : str)
  : list str :=
  match t with
  | [] => [rev cur]
  | c :: t' =>
      if isspace c then
        if in_sep then re_split true false cur t'
        else if after_punct then rev cur :: re_split true false [] t'
        else re_split false false (c :: cur) t'
      else re_split false (is_sentence_punct c) (c :: cur) t'
  end.

Definition nonempty (s : str) : bool :=
  match s with [] => false | _ => true end.

(** [DefaultChunker.count_tokens] *)
Definition count_tokens (text : str) : Z :=
  match text with
  | [] => 0
  | _ => Z.of_nat (length (split_ws text))
  end.

(** [DefaultChunker._split_sentences] *)
Definition _split_sentences (text : str) : list str :=
  match text with
  | [] => []
  | _ =>
      let sentences := re_split false false [] text in
      map strip (filter (fun s => nonempty (strip s)) sentences)
  end.

(** The overlap loop of [chunk_text]: walk [reversed(current_chunk)] and keep
    sentences while their total length fits in [chunk_overlap]. *)
Fixpoint overlap_loop (chunk_overlap : Z) (reversed_chunk : list str)
  (overlap_length : Z) (overlap_sentences : list str) : list str * Z :=
  match reversed_chunk with
  | [] => (overlap_sentences, overlap_length)
  | s :: r =>
      if overlap_length + len s <=? chunk_overlap
      then overlap_loop chunk_overlap r (overlap_length + len s)
                        (s :: overlap_sentences)
      else (overlap_sentences, overlap_length)
  end.

(** Loop state of [chunk_text]: [chunks], [current_chunk],
    [current_length]. *)
Definition pack_state : Type := (list str * list str * Z)%type.

(** One iteration of [for sentence in sentences]. *)
Definition pack_step (chunk_size chunk_overlap : Z) (st : pack_state)
  (sentence : str) : pack_state :=
  let '(chunks, current_chunk, current_length) := st in
  let sentence_length := len sentence in
  let '(chunks, current_chunk, current_length) :=
    if current_length + sentence_length >? chunk_size then
      match current_chunk with
      | [] => (chunks, current_chunk, current_length)
      | _ =>
          let chunks := chunks ++ [join [32%N] current_chunk] in
          if chunk_overlap >? 0 then
            let '(overlap_sentences, overlap_length) :=
              overlap_loop chunk_overlap (rev current_chunk) 0 [] in
            (chunks, overlap_sentences, overlap_length)
          else (chunks, [], 0)
      end
    else (chunks, current_chunk, current_length) in
  (chunks, current_chunk ++ [sentence], current_length + sentence_length).

(** [DefaultChunker._chunk_by_size]: the [while start < len(text)] loop. *)
Fixpoint _chunk_by_size_loop (fuel : nat) (chunk_size chunk_overlap : Z)
  (text : str) (start : Z) (chunks : list str) : outcome (list str) :=
  if start <? len text then
    match fuel with
    | O => OutOfFuel
    | S fuel' =>
        let end_ := start + chunk_size in
        let end_ :=
          if end_ <? len text then
            let break_pos := rfind_char text 32%N start end_ in
            if break_pos >? start then break_pos else end_
          else end_ in
        let chunks := chunks ++ [strip (slice text start end_)] in
        let start := end_ - chunk_overlap in
        let start := if start <=? 0 then end_ else start in
        _chunk_by_size_loop fuel' chunk_size chunk_overlap text start chunks
    end
  else Ok chunks.

Definition _chunk_by_size (fuel : nat) (chunk_size chunk_overlap : Z)
  (text : str) : outcome (list str) :=
  _chunk_by_size_loop fuel chunk_size chunk_overlap text 0 [].

(** [DefaultChunker.chunk_text] *)
Definition chunk_text (fuel : nat) (chunk_size chunk_overlap : Z) (text : str)
  : outcome (list str) :=
  match text with
  | [] => Ok []
  | _ =>
      match _split_sentences text with
      | [] => _chunk_by_size fuel chunk_size chunk_overlap text
      | sentences =>
          let '(chunks, current_chunk, _) :=
            fold_left (pack_step chunk_size chunk_overlap) sentences
                      ([], [], 0) in
          match current_chunk with
          | [] => Ok chunks
          | _ => Ok (chunks ++ [join [32%N] current_chunk])
          end
      end
  end.

End Default.

Module Japanese.

(** [SENTENCE_ENDINGS]: the code points of the ideographic full stop, the
    full-width exclamation and question marks, the horizontal ellipsis and
    the two-dot leader. *)
Definition SENTENCE_ENDINGS : list char :=
  [12290; 65281; 65311; 8230; 8229]%N.

(** [PHRASE_MARKERS]: ideographic comma, ideographic space, line feed. *)
Definition PHRASE_MARKERS : list char := [12289; 12288; 10]%N.

Definition mem (c : char) (l : list char) : bool :=
  existsb (fun x => (x =? c)%N) l.

Definition nonempty (s : str) : bool :=
  match s with [] => false | _ => true end.

(** [JapaneseChunker.count_tokens] *)
Definition count_tokens (fugashi : option Tagger) (text : str) : Z :=
  match text with
  | [] => 0
  | _ =>
      match fugashi with
      | None => len text
      | Some tagger => Z.of_nat (length (tagger text))
      end
  end.

(** One iteration of [for char in text] in [_split_sentences]; the state is
    ([sentences], [current]). *)
Definition split_step (st : list str * str) (c : char) : list str * str :=
  let '(sentences, current) := st in
  let current := current ++ [c] in
  if mem c SENTENCE_ENDINGS then
    ((if nonempty (strip current) then sentences ++ [strip current]
      else sentences), [])
  else (sentences, current).

(** [JapaneseChunker._split_sentences] *)
Definition _split_sentences (text : str) : list str :=
  match text with
  | [] => []
  | _ =>
      let '(sentences, current) := fold_left split_step text ([], []) in
      if nonempty (strip current) then sentences ++ [strip current]
      else sentences
  end.

(** The marker search of [_find_phrase_boundary] without the backend. *)
Fixpoint scan_markers (text : str) (direction : Z) (search_range : list Z)
  (position : Z) : outcome Z :=
  match search_range with
  | [] => Ok position
  | i :: r =>
      match getitem text i with
      | None => Raise IndexError
      | Some c =>
          if mem c PHRASE_MARKERS || mem c SENTENCE_ENDINGS
          then Ok (if direction =? -1 then i + 1 else i)
          else scan_markers text direction r position
      end
  end.

(** The position map of [_find_phrase_boundary]: [start] followed by the
    running ends of the morphemes. *)
Fixpoint boundaries_from (start pos : Z) (morphemes : list str) : list Z :=
  match morphemes with
  | [] => []
  | m :: r => (start + (pos + len m)) :: boundaries_from start (pos + len m) r
  end.

(** The nearest-boundary loop; [min_dist = None] is [float('inf')]. *)
Fixpoint closest_loop (target : Z) (boundaries : list Z) (closest : Z)
  (min_dist : option Z) : Z :=
  match boundaries with
  | [] => closest
  | b :: r =>
      let dist := Z.abs (b - target) in
      let better := match min_dist with
                    | None => true
                    | Some d => dist <? d
                    end in
      if better then closest_loop target r b (Some dist)
      else closest_loop target r closest min_dist
  end.

(** [JapaneseChunker._find_phrase_boundary] *)
Definition _find_phrase_boundary (fugashi : option Tagger) (text : str)
  (position direction : Z) : outcome Z :=
  match fugashi with
  | None =>
      let search_range :=
        if direction =? -1 then range_down (position - 1)
        else range position (len text) in
      scan_markers text direction search_range position
  | Some tagger =>
      let start := Z.max 0 (position - 50) in
      let end_ := Z.min (len text) (position + 50) in
      let context := slice text start end_ in
      let morphemes := tagger context in
      let boundaries := start :: boundaries_from start 0 morphemes in
      Ok (closest_loop position boundaries position None)
  end.

(** One iteration of [for sentence in sentences] in [chunk_text]; the state
    is ([chunks], [current_chunk]). *)
Definition pack_step (fugashi : option Tagger) (chunk_size chunk_overlap : Z)
  (st : list str * str) (sentence : str) : outcome (list str * str) :=
  let '(chunks, current_chunk) := st in
  st' <- (if len current_chunk + len sentence >? chunk_size then
            match current_chunk with
            | [] => Ok (chunks, current_chunk)
            | _ =>
                let chunks := chunks ++ [strip current_chunk] in
                if (chunk_overlap >? 0) && (len current_chunk >? chunk_overlap)
                then
                  let overlap_start := len current_chunk - chunk_overlap in
                  overlap_start <- _find_phrase_boundary fugashi current_chunk
                                     overlap_start 1 ;;
                  Ok (chunks, slice_from current_chunk overlap_start)
                else Ok (chunks, [])
            end
          else Ok (chunks, current_chunk)) ;;
  Ok (fst st', snd st' ++ sentence).

(** The character loop of [_chunk_by_morphemes] without the backend. *)
Fixpoint _chunk_by_chars_loop (fuel : nat) (chunk_size chunk_overlap : Z)
  (text : str) (start : Z) (chunks : list str) : outcome (list str) :=
  if start <? len text then
    match fuel with
    | O => OutOfFuel
    | S fuel' =>
        let end_ := Z.min (start + chunk_size) (len text) in
        let chunks := chunks ++ [slice text start end_] in
        let start := end_ - chunk_overlap in
        let start := if start <=? 0 then end_ else start in
        _chunk_by_chars_loop fuel' chunk_size chunk_overlap text start chunks
    end
  else Ok chunks.

(** One iteration of [for m in morphemes] in [_chunk_by_morphemes]. *)
Definition morpheme_step (chunk_size chunk_overlap : Z) (st : list str * str)
  (surface : str) : list str * str :=
  let '(chunks, current) := st in
  let '(chunks, current) :=
    if len current + len surface >? chunk_size then
      match current with
      | [] => (chunks, current)
      | _ =>
          let chunks := chunks ++ [current] in
          if chunk_overlap >? 0 then
            let overlap_start := Z.max 0 (len current - chunk_overlap) in
            (chunks, slice_from current overlap_start)
          else (chunks, [])
      end
    else (chunks, current) in
  (chunks, current ++ surface).

(** [JapaneseChunker._chunk_by_morphemes] *)
Definition _chunk_by_morphemes (fugashi : option Tagger) (fuel : nat)
  (chunk_size chunk_overlap : Z) (text : str) : outcome (list str) :=
  match fugashi with
  | None => _chunk_by_chars_loop fuel chunk_size chunk_overlap text 0 []
  | Some tagger =>
      let morphemes := tagger text in
      let '(chunks, current) :=
        fold_left (morpheme_step chunk_size chunk_overlap) morphemes
                  ([], []) in
      match current with
      | [] => Ok chunks
      | _ => Ok (chunks ++ [current])
      end
  end.

(** [JapaneseChunker.chunk_text] *)
Definition chunk_text (fugashi : option Tagger) (fuel : nat)
  (chunk_size chunk_overlap : Z) (text : str) : outcome (list str) :=
  match text with
  | [] => Ok []
  | _ =>
      match _split_sentences text with
      | [] => _chunk_by_morphemes fugashi fuel chunk_size chunk_overlap text
      | sentences =>
          st <- foldM (pack_step fugashi chunk_size chunk_overlap) sentences
                      ([], []) ;;
          let '(chunks, current_chunk) := st in
          if nonempty (strip current_chunk)
          then Ok (chunks ++ [strip current_chunk])
          else Ok chunks
      end
  end.

End Japanese.

(** *** Dynamic dispatch on the chunker class, and [BaseChunker] *)

Section Chunkers.

(** The optional morphological backend of the running process. *)
Variable fugashi : option Tagger.

Definition count_tokens (c : Chunker) (text : str) : Z :=
  match c with
  | DefaultChunker _ _ _ => Default.count_tokens text
  | JapaneseChunker _ _ => Japanese.count_tokens fugashi text
  end.

Definition chunk_text (c : Chunker) (fuel : nat) (text : str)
  : outcome (list str) :=
  match c with
  | DefaultChunker _ size overlap => Default.chunk_text fuel size overlap text
  | JapaneseChunker size overlap =>
      Japanese.chunk_text fugashi fuel size overlap text
  end.

(** The loop of [_combine_element_text]; the state is ([combined],
    [positions]). *)
Definition combine_step (st : str * list (Z * Z * UUID))
  (elem : NormalizedElement) : str * list (Z * Z * UUID) :=
  let '(combined, positions) := st in
  let start := len combined in
  let combined := combined ++ ne_text elem in
  let end_ := len combined in
  let positions := positions ++ [(start, end_, ne_id elem)] in
  (combined ++ [10; 10]%N, positions).

(** [BaseChunker._combine_element_text] *)
Definition _combine_element_text (elements : list NormalizedElement)
  : str * list (Z * Z * UUID) :=
  let '(combined, positions) := fold_left combine_step elements ([], []) in
  (rstrip combined, positions).

(** [BaseChunker._find_source_elements] *)
Definition _find_source_elements (chunk_start chunk_end : Z)
  (positions : list (Z * Z * UUID)) : list UUID :=
  map (fun p => snd p)
      (filter (fun p => let '(start, end_, _) := p in
                        (start <? chunk_end) && (end_ >? chunk_start))
              positions).

(** The loop [for idx, chunk_text in enumerate(text_chunks)] of
    [chunk_elements], from index [idx] and search position [current_pos].
    [uuid4 idx] is the identifier drawn for the chunk of index [idx]. *)
Fixpoint chunk_elements_loop (c : Chunker) (uuid4 : nat -> UUID)
  (document_id : UUID) (combined_text : str) (positions : list (Z * Z * UUID))
  (idx : nat) (current_pos : Z) (text_chunks : list str) : list TextChunk :=
  match text_chunks with
  | [] => []
  | chunk :: rest =>
      let start_char := find combined_text chunk current_pos in
      let start_char := if start_char =? -1 then current_pos else start_char in
      let end_char := start_char + len chunk in
      let current_pos := start_char + 1 in
      let source_elements :=
        _find_source_elements start_char end_char positions in
      mkTextChunk (uuid4 idx) chunk (chunker_language c) source_elements
                  document_id (Z.of_nat idx) start_char end_char
                  (count_tokens c chunk) []
      :: chunk_elements_loop c uuid4 document_id combined_text positions
                             (S idx) current_pos rest
  end.

(** [BaseChunker.chunk_elements] *)
Definition chunk_elements (c : Chunker) (fuel : nat) (uuid4 : nat -> UUID)
  (elements : list NormalizedElement) (document_id : UUID)
  : outcome (list TextChunk) :=
  match elements with
  | [] => Ok []
  | _ =>
      let '(combined_text, positions) := _combine_element_text elements in
      text_chunks <- chunk_text c fuel combined_text ;;
      Ok (chunk_elements_loop c uuid4 document_id combined_text positions
                              O 0 text_chunks)
  end.

End Chunkers.

(** [chunker/factory.py]: [get_chunker] *)
Definition get_chunker (language : Language) (chunk_size chunk_overlap : Z)
  : Chunker :=
  if Language_eqb language JAPANESE
  then JapaneseChunker chunk_size chunk_overlap
  else DefaultChunker language chunk_size chunk_overlap.

(** Text literals for the examples: the code points of an ASCII string. *)
Fixpoint py (s : string) : str :=
  match s with
  | EmptyString => []
  | String a s' => N_of_ascii a :: py s'
  end.

(* ================================================================= *)
(** ** correlation.py *)

Record CorrelationBuilder : Type := mkCorrelationBuilder {
  similarity_threshold : float;
  build_adjacent : bool;
  build_semantic : bool
}.

(** [sorted(chunks, key=lambda c: c.chunk_index)]: a stable sort. *)
Fixpoint insert_by_index (x : TextChunk) (l : list TextChunk)
  : list TextChunk :=
  match l with
  | [] => [x]
  | y :: l' =>
      if tc_chunk_index x <=? tc_chunk_index y then x :: l
      else y :: insert_by_index x l'
  end.

Fixpoint sorted_by_index (l : list TextChunk) : list TextChunk :=
  match l with
  | [] => []
  | x :: l' => insert_by_index x (sorted_by_index l')
  end.

Definition adjacent_edge (id : UUID) (current next_chunk : TextChunk)
  : ChunkCorrelation :=
  mkChunkCorrelation id (tc_id current) (tc_id next_chunk) ADJACENT 1%float
                     [("distance"%string, MInt 1)].

(** The loop [for i in range(len(sorted_chunks) - 1)], which pairs
    [sorted_chunks[i]] with [sorted_chunks[i + 1]].  The identifier of a new
    edge is the next draw of [uuid4]: one draw per edge already in the
    graph. *)
Fixpoint adjacent_loop (uuid4 : nat -> UUID) (sorted_chunks : list TextChunk)
  (graph : CorrelationGraph) : CorrelationGraph :=
  match sorted_chunks with
  | current :: ((next_chunk :: _) as rest) =>
      adjacent_loop uuid4 rest
        (add_correlation graph
           (adjacent_edge (uuid4 (length (cg_edges graph)))
                          current next_chunk))
  | _ => graph
  end.

(** [CorrelationBuilder._add_adjacent_correlations] *)
Definition _add_adjacent_correlations (uuid4 : nat -> UUID)
  (graph : CorrelationGraph) (chunks : list TextChunk) : CorrelationGraph :=
  adjacent_loop uuid4 (sorted_by_index chunks) graph.

Section Semantic.

(** [str.lower], the Unicode lower-casing of the Python runtime. *)
Variable lower : str -> str.

Definition str_in (w : str) (l : list str) : bool := existsb (PyStr.eqb w) l.

(** [set(text.lower().split())]: the distinct words, each listed once. *)
Definition word_set (text : str) : list str :=
  nodup (list_eq_dec N.eq_dec) (split_ws (lower text)).

(** [len(words_a & words_b)] and [len(words_a | words_b)] *)
Definition intersection_size (words_a words_b : list str) : Z :=
  Z.of_nat (length (filter (fun w => str_in w words_b) words_a)).

Definition union_size (words_a words_b : list str) : Z :=
  Z.of_nat (length (words_a
                    ++ filter (fun w => negb (str_in w words_a)) words_b)).

(** [intersection / union if union > 0 else 0] *)
Definition similarity_of (words_a words_b : list str) : float :=
  let intersection := intersection_size words_a words_b in
  let union := union_size words_a words_b in
  if union >? 0 then true_div intersection union else 0%float.

(** The value stored under ["similarity_score"]: the float quotient, or the
    integer [0] of the [else] branch. *)
Definition similarity_meta (words_a words_b : list str) : MetaValue :=
  if union_size words_a words_b >? 0
  then MFloat (similarity_of words_a words_b)
  else MInt 0.

Definition semantic_edge (id : UUID) (chunk_a chunk_b : TextChunk)
  : ChunkCorrelation :=
  let words_a := word_set (tc_text chunk_a) in
  let words_b := word_set (tc_text chunk_b) in
  mkChunkCorrelation id (tc_id chunk_a) (tc_id chunk_b) SEMANTIC
                     (similarity_of words_a words_b)
                     [("similarity_score"%string,
                       similarity_meta words_a words_b)].

(** [enumerate(l)] *)
Definition enumerate {A : Type} (l : list A) : list (nat * A) :=
  combine (seq 0 (length l)) l.

(** The body of the inner loop [for j, chunk_b in enumerate(chunks)]. *)
Definition semantic_inner (threshold : float) (uuid4 : nat -> UUID) (i : nat)
  (chunk_a : TextChunk) (graph : CorrelationGraph) (jb : nat * TextChunk)
  : CorrelationGraph :=
  let '(j, chunk_b) := jb in
  if (j <=? i)%nat then graph
  else if Z.abs (tc_chunk_index chunk_a - tc_chunk_index chunk_b) <=? 1
  then graph
  else
    let similarity :=
      similarity_of (word_set (tc_text chunk_a)) (word_set (tc_text chunk_b)) in
    if PrimFloat.leb threshold similarity
    then add_correlation graph
           (semantic_edge (uuid4 (length (cg_edges graph))) chunk_a chunk_b)
    else graph.

(** [CorrelationBuilder._add_semantic_correlations] *)
Definition _add_semantic_correlations (threshold : float)
  (uuid4 : nat -> UUID) (graph : CorrelationGraph) (chunks : list TextChunk)
  : CorrelationGraph :=
  fold_left
    (fun graph ia =>
       fold_left (semantic_inner threshold uuid4 (fst ia) (snd ia))
                 (enumerate chunks) graph)
    (enumerate chunks) graph.

(** [CorrelationBuilder.build_graph] *)
Definition build_graph (b : CorrelationBuilder) (uuid4 : nat -> UUID)
  (chunks : list TextChunk) : CorrelationGraph :=
  match chunks with
  | [] => mkCorrelationGraph (uuid4 O) [] [] 0 0 0%float
  | first :: _ =>
      let graph :=
        mkCorrelationGraph (tc_document_id first) (map tc_id chunks) []
                           (Z.of_nat (length chunks)) 0 0%float in
      let graph :=
        if build_adjacent b
        then _add_adjacent_correlations uuid4 graph chunks
        else graph in
      if build_semantic b
      then _add_semantic_correlations (similarity_threshold b) uuid4
                                      graph chunks
      else graph
  end.

End Semantic.

(* ================================================================= *)
(** ** normalizer.py *)

(** What the normalizer reads of an Unstructured element: its truth value,
    [str(element)], its [category] and the attributes of its [metadata]
    object.  An outer [None] is an attribute that the object does not
    have. *)
Record RawMetadata : Type := mkRawMetadata {
  rm_page_number : option (option Z);
  rm_filename : option MetaValue;
  rm_coordinates : option MetaValue;
  rm_parent_id : option (option string);
  rm_languages : option MetaValue
}.

Record RawElement : Type := mkRawElement {
  raw_truthy : bool;
  raw_str : str;
  raw_category : option string;
  raw_is_image : bool;
  raw_metadata : option RawMetadata
}.

Record ElementNormalizer : Type := mkElementNormalizer {
  detect_language : bool;
  en_default_language : Language;
  min_text_length : Z
}.

(** The optional language detector ([langdetect.detect]): a language code,
    or [None] for [LangDetectException]. *)
Definition LangDetect := str -> option string.

Definition ELEMENT_TYPE_MAP : list (string * ElementType) :=
  [("Title", TITLE); ("NarrativeText", NARRATIVE_TEXT);
   ("ListItem", LIST_ITEM); ("Table", TABLE); ("Image", IMAGE);
   ("Header", HEADER); ("Footer", FOOTER); ("PageBreak", PAGE_BREAK);
   ("Formula", FORMULA); ("FigureCaption", NARRATIVE_TEXT);
   ("Address", NARRATIVE_TEXT); ("EmailAddress", NARRATIVE_TEXT);
   ("CodeSnippet", CODE)]%string.

(** [d.get(key, default)] on a dictionary kept in insertion order. *)
Fixpoint dict_get {V : Type} (d : list (string * V)) (key : string)
  (default : V) : V :=
  match d with
  | [] => default
  | (k, v) :: d' => if String.eqb k key then v else dict_get d' key default
  end.

Definition ElementType_eqb (a b : ElementType) : bool :=
  match a, b with
  | TITLE, TITLE | NARRATIVE_TEXT, NARRATIVE_TEXT | LIST_ITEM, LIST_ITEM
  | TABLE, TABLE | IMAGE, IMAGE | HEADER, HEADER | FOOTER, FOOTER
  | PAGE_BREAK, PAGE_BREAK | FORMULA, FORMULA | CODE, CODE
  | UNCATEGORIZED, UNCATEGORIZED => true
  | _, _ => false
  end.

Section Normalizer.

Variable langdetect : option LangDetect.

(** [UUID(parent_id)]: [None] for [ValueError]. *)
Variable parse_uuid : string -> option UUID.

(** [ElementNormalizer._detect_language] *)
Definition _detect_language (n : ElementNormalizer) (text : str) : Language :=
  if negb (detect_language n) || negb (Default.nonempty text)
     || (len text <? 20)
  then en_default_language n
  else
    match langdetect with
    | None => en_default_language n
    | Some detect =>
        match detect text with
        | None => en_default_language n
        | Some lang_code =>
            dict_get [("ja", JAPANESE); ("en", ENGLISH); ("zh-cn", CHINESE);
                      ("zh-tw", CHINESE); ("ko", KOREAN)]%string
                     lang_code UNKNOWN
        end
    end.

(** [ElementNormalizer._get_element_type] *)
Definition _get_element_type (element : RawElement) : ElementType :=
  match raw_category element with
  | Some category =>
      if String.eqb category ""
      then UNCATEGORIZED
      else dict_get ELEMENT_TYPE_MAP category UNCATEGORIZED
  | None => UNCATEGORIZED
  end.

Definition meta_of_int (z : option Z) : MetaValue :=
  match z with Some k => MInt k | None => MNone end.

Definition meta_of_string (s : option string) : MetaValue :=
  match s with Some k => MStr k | None => MNone end.

Definition opt_entry {A : Type} (key : string) (f : A -> MetaValue)
  (a : option A) : Metadata :=
  match a with Some v => [(key, f v)] | None => [] end.

(** [ElementNormalizer._extract_metadata] *)
Definition _extract_metadata (element : RawElement) : Metadata :=
  match raw_metadata element with
  | None => []
  | Some m =>
      opt_entry "page_number" meta_of_int (rm_page_number m)
      ++ opt_entry "filename" (fun v => v) (rm_filename m)
      ++ opt_entry "coordinates" (fun v => v) (rm_coordinates m)
      ++ opt_entry "parent_id" meta_of_string (rm_parent_id m)
      ++ opt_entry "languages" (fun v => v) (rm_languages m)
  end.

(** [ElementNormalizer._get_page_number] *)
Definition _get_page_number (element : RawElement) : option Z :=
  match raw_metadata element with
  | Some m => match rm_page_number m with Some p => p | None => None end
  | None => None
  end.

(** [ElementNormalizer._get_parent_id] *)
Definition _get_parent_id (element : RawElement) : option UUID :=
  match raw_metadata element with
  | Some m =>
      match rm_parent_id m with
      | Some (Some parent_id) =>
          if String.eqb parent_id "" then None else parse_uuid parent_id
      | _ => None
      end
  | None => None
  end.

Definition meta_as_int (v : MetaValue) : option Z :=
  match v with MInt z => Some z | _ => None end.

(** [ElementNormalizer.normalize]; [id] is the identifier drawn for the new
    element. *)
Definition normalize (n : ElementNormalizer) (id : UUID)
  (element : RawElement) (position : Z) : option NormalizedElement :=
  let text := if raw_truthy element then raw_str element else [] in
  if len (strip text) <? min_text_length n then None
  else
    let element_type := _get_element_type element in
    if ElementType_eqb element_type PAGE_BREAK
       && negb (Default.nonempty (strip text))
    then None
    else
      let language := _detect_language n text in
      let raw_metadata := _extract_metadata element in
      let heading_level :=
        if ElementType_eqb element_type TITLE
        then meta_as_int (dict_get raw_metadata "heading_level" (MInt 1))
        else None in
      Some (mkNormalizedElement id element_type text language
              (_get_page_number element) position (_get_parent_id element)
              heading_level raw_metadata).

(** The loop of [normalize_all] from position [position]; [k] elements have
    been kept so far, and the next kept element takes the draw [uuid4 k]. *)
Fixpoint normalize_all_loop (n : ElementNormalizer) (uuid4 : nat -> UUID)
  (position : Z) (k : nat) (elements : list RawElement)
  : list NormalizedElement :=
  match elements with
  | [] => []
  | element :: rest =>
      match normalize n (uuid4 k) element position with
      | Some norm =>
          norm :: normalize_all_loop n uuid4 (position + 1) (S k) rest
      | None => normalize_all_loop n uuid4 (position + 1) k rest
      end
  end.

(** [ElementNormalizer.normalize_all] *)
Definition normalize_all (n : ElementNormalizer) (uuid4 : nat -> UUID)
  (elements : list RawElement) : list NormalizedElement :=
  normalize_all_loop n uuid4 0 O elements.

End Normalizer.

(** The dictionary [lang_scores], in insertion order. *)
Definition LangScores := list (Language * Z).

Fixpoint scores_get (d : LangScores) (l : Language) (default : Z) : Z :=
  match d with
  | [] => default
  | (k, v) :: d' => if Language_eqb k l then v else scores_get d' l default
  end.

(** [d[l] = v]: an existing key keeps its place, a new key goes last. *)
Fixpoint scores_set (d : LangScores) (l : Language) (v : Z) : LangScores :=
  match d with
  | [] => [(l, v)]
  | (k, w) :: d' =>
      if Language_eqb k l then (k, v) :: d' else (k, w) :: scores_set d' l v
  end.

(** One iteration of [for elem in elements]. *)
Definition score_step (lang_scores : LangScores) (elem : NormalizedElement)
  : LangScores :=
  if negb (Language_eqb (ne_language elem) UNKNOWN)
  then scores_set lang_scores (ne_language elem)
         (scores_get lang_scores (ne_language elem) 0 + len (ne_text elem))
  else lang_scores.

(** [max(items, key=lambda x: x[1])]: the first item of greatest score,
    starting from [best]. *)
Fixpoint max_item (best : Language * Z) (items : LangScores) : Language * Z :=
  match items with
  | [] => best
  | x :: r => if snd x >? snd best then max_item x r else max_item best r
  end.

(** [ElementNormalizer.detect_document_language] *)
Definition detect_document_language (n : ElementNormalizer)
  (elements : list NormalizedElement) : Language :=
  match elements with
  | [] => en_default_language n
  | _ =>
      match fold_left score_step elements [] with
      | [] => en_default_language n
      | x :: r => fst (max_item x r)
      end
  end.

(* ================================================================= *)
(** ** parser.py *)

(** A [pathlib.Path]: its text, its [name] and its [suffix.lower()]. *)
Record Path : Type := mkPath {
  path_str : string;
  path_name : string;
  path_suffix_lower : string
}.

(** What [Path.stat] reports for an existing path. *)
Record FileStat : Type := mkFileStat {
  fs_is_file : bool;
  st_size : Z
}.

(** The file system: [None] for a path that does not exist. *)
Definition FileSystem := Path -> option FileStat.

Definition SUPPORTED_FORMATS : list string :=
  [".pdf"; ".docx"; ".pptx"; ".html"; ".htm"; ".md"; ".txt"]%string.

Definition string_in (s : string) (l : list string) : bool :=
  existsb (String.eqb s) l.

Record DocumentParser : Type := mkDocumentParser {
  extract_images : bool;
  include_page_breaks : bool
}.

(** The optional Unstructured backend: [partition(filename, ...)], which
    returns the elements of a file or raises. *)
Definition Partition := Path -> bool -> outcome (list RawElement).

Definition exn_str (e : exn) : string :=
  match e with
  | FileNotFoundError msg => msg
  | UnsupportedFormatError format =>
      ("Unsupported format: " ++ format
       ++ ". Supported formats: .docx, .htm, .html, .md, .pdf, .pptx, .txt")%string
  | DocumentParseError msg => msg
  | ImportError msg => msg
  | IndexError => "string index out of range"%string
  | OtherException msg => msg
  end.

Section Parser.

Variable fs : FileSystem.
Variable unstructured : option Partition.

(** [DocumentParser.is_supported] *)
Definition is_supported (file_path : Path) : bool :=
  string_in (path_suffix_lower file_path) SUPPORTED_FORMATS.

(** [DocumentParser.parse] *)
Definition parse (p : DocumentParser) (file_path : Path)
  : outcome (list RawElement) :=
  match fs file_path with
  | None =>
      Raise (FileNotFoundError ("File not found: " ++ path_str file_path))
  | Some st =>
      if negb (fs_is_file st)
      then Raise (DocumentParseError ("Not a file: " ++ path_str file_path))
      else if negb (string_in (path_suffix_lower file_path) SUPPORTED_FORMATS)
      then Raise (UnsupportedFormatError (path_suffix_lower file_path))
      else
        match unstructured with
        | None =>
            Raise (ImportError
                     "The 'unstructured' library is required for document parsing. Install it with: pip install 'graphrag-mcp-server[import]'")
        | Some partition =>
            match partition file_path (include_page_breaks p) with
            | Ok elements =>
                Ok (if extract_images p then elements
                    else filter (fun e => negb (raw_is_image e)) elements)
            | Raise e =>
                Raise (DocumentParseError
                         ("Failed to parse " ++ path_str file_path ++ ": "
                          ++ exn_str e))
            | OutOfFuel => OutOfFuel
            end
        end
  end%string.

(** [DocumentParser.parse_async]: [parse] run in an executor. *)
Definition parse_async (p : DocumentParser) (file_path : Path)
  : outcome (list RawElement) :=
  parse p file_path.

End Parser.

(* ================================================================= *)
(** ** importer.py *)

Record DocumentMetadata : Type := mkDocumentMetadata {
  dm_source_path : Path;
  dm_file_name : string;
  dm_file_type : string;
  dm_file_size : Z;
  dm_page_count : option Z;
  dm_created_at : float;
  dm_language : Language;
  dm_custom_metadata : Metadata
}.

Record ImportResult : Type := mkImportResult {
  ir_id : UUID;
  ir_status : string;
  ir_document_metadata : DocumentMetadata;
  ir_elements : list NormalizedElement;
  ir_element_count : Z;
  ir_chunks : list TextChunk;
  ir_chunk_count : Z;
  ir_correlation_graph : option CorrelationGraph;
  ir_processing_time_seconds : float;
  ir_total_tokens : Z;
  ir_errors : list string;
  ir_warnings : list string
}.

(** The importer object: its collaborators, its constructor-time [config]
    and the dictionary [_chunkers], in insertion order. *)
Record DocumentImporter : Type := mkDocumentImporter {
  parser : DocumentParser;
  normalizer : ElementNormalizer;
  config : ImportConfig;
  _chunkers : list (Language * Chunker)
}.

(** The readings of the clock during one call: [datetime.utcnow()] and the
    two calls of [time.time()]. *)
Record Clock : Type := mkClock {
  utcnow : float;
  start_time : float;
  end_time : float
}.

Fixpoint chunkers_get (d : list (Language * Chunker)) (l : Language)
  : option Chunker :=
  match d with
  | [] => None
  | (k, v) :: d' => if Language_eqb k l then Some v else chunkers_get d' l
  end.

(** [DocumentImporter._get_chunker]: the chunker and the importer after the
    call. *)
Definition _get_chunker (imp : DocumentImporter) (language : Language)
  : Chunker * DocumentImporter :=
  match chunkers_get (_chunkers imp) language with
  | Some c => (c, imp)
  | None =>
      let c := get_chunker language (chunk_size (config imp))
                           (chunk_overlap (config imp)) in
      (c, mkDocumentImporter (parser imp) (normalizer imp) (config imp)
                             (_chunkers imp ++ [(language, c)]))
  end.

Definition set_language (m : DocumentMetadata) (l : Language)
  : DocumentMetadata :=
  mkDocumentMetadata (dm_source_path m) (dm_file_name m) (dm_file_type m)
                     (dm_file_size m) (dm_page_count m) (dm_created_at m)
                     l (dm_custom_metadata m).

Section Importer.

Variable fs : FileSystem.
Variable unstructured : option Partition.
Variable langdetect : option LangDetect.
Variable parse_uuid : string -> option UUID.
Variable fugashi : option Tagger.
Variable lower : str -> str.

(** [DocumentImporter._create_document_metadata]: [file_path.stat()] raises
    [FileNotFoundError] for a missing path. *)
Definition _create_document_metadata (clock : Clock) (file_path : Path)
  (language : Language) : outcome DocumentMetadata :=
  match fs file_path with
  | None =>
      Raise (FileNotFoundError
               ("[Errno 2] No such file or directory: '"
                ++ path_str file_path ++ "'")%string)
  | Some stat =>
      Ok (mkDocumentMetadata file_path (path_name file_path)
            (path_suffix_lower file_path) (st_size stat) None (utcnow clock)
            language [])
  end.

Fixpoint sum_tokens (chunks : list TextChunk) : Z :=
  match chunks with
  | [] => 0
  | c :: r => tc_token_count c + sum_tokens r
  end.

(** The [try] block of [import_document].  It returns the result object as
    the block leaves it, the importer, and how the block ends: [Ok tt] at its
    last statement, [Raise e] at the statement that raises [e] (the fields
    assigned before that statement keep their new values), [OutOfFuel] when
    a loop inside it does not end.  The draws of [uuid4] after the first one
    go, in order, to the elements, the chunks and the edges. *)
Definition import_try (imp : DocumentImporter) (fuel : nat)
  (uuid4 : nat -> UUID) (cfg : ImportConfig) (file_path : Path)
  (result : ImportResult)
  : ImportResult * DocumentImporter * outcome unit :=
  match parse_async fs unstructured (parser imp) file_path with
  | Raise e => (result, imp, Raise e)
  | OutOfFuel => (result, imp, OutOfFuel)
  | Ok raw_elements =>
      let elements :=
        normalize_all langdetect parse_uuid (normalizer imp)
                      (fun k => uuid4 (1 + k)%nat) raw_elements in
      let m := length elements in
      let language := detect_document_language (normalizer imp) elements in
      let language :=
        if auto_detect_language cfg then language else default_language cfg in
      let metadata := set_language (ir_document_metadata result) language in
      let result :=
        mkImportResult (ir_id result) (ir_status result) metadata elements
          (Z.of_nat m) (ir_chunks result) (ir_chunk_count result)
          (ir_correlation_graph result) (ir_processing_time_seconds result)
          (ir_total_tokens result) (ir_errors result) (ir_warnings result) in
      let '(chunker, imp) := _get_chunker imp language in
      match chunk_elements fugashi chunker fuel
              (fun k => uuid4 (1 + m + k)%nat) elements (ir_id result) with
      | Raise e => (result, imp, Raise e)
      | OutOfFuel => (result, imp, OutOfFuel)
      | Ok chunks =>
          let n := length chunks in
          let graph :=
            if build_correlation_graph cfg
            then Some (build_graph lower
                         (mkCorrelationBuilder
                            (semantic_similarity_threshold cfg) true true)
                         (fun k => uuid4 (1 + m + n + k)%nat) chunks)
            else ir_correlation_graph result in
          (mkImportResult (ir_id result) "success" metadata elements
             (Z.of_nat m) chunks (Z.of_nat n) graph
             (ir_processing_time_seconds result) (sum_tokens chunks)
             (ir_errors result) (ir_warnings result),
           imp, Ok tt)
      end
  end.

Definition set_time (r : ImportResult) (t : float) : ImportResult :=
  mkImportResult (ir_id r) (ir_status r) (ir_document_metadata r)
    (ir_elements r) (ir_element_count r) (ir_chunks r) (ir_chunk_count r)
    (ir_correlation_graph r) t (ir_total_tokens r) (ir_errors r)
    (ir_warnings r).

(** The [except Exception as e] handler. *)
Definition on_exception (r : ImportResult) (e : exn) : ImportResult :=
  mkImportResult (ir_id r) "error" (ir_document_metadata r)
    (ir_elements r) (ir_element_count r) (ir_chunks r) (ir_chunk_count r)
    (ir_correlation_graph r) (ir_processing_time_seconds r)
    (ir_total_tokens r) (ir_errors r ++ [exn_str e]) (ir_warnings r).

(** [DocumentImporter.import_document]: what the call returns or raises, and
    the importer after the call.  [override] is the keyword argument
    [config]. *)
Definition import_document (imp : DocumentImporter) (fuel : nat)
  (clock : Clock) (uuid4 : nat -> UUID) (file_path : Path)
  (override : option ImportConfig)
  : outcome ImportResult * DocumentImporter :=
  let cfg := match override with Some c => c | None => config imp end in
  match _create_document_metadata clock file_path UNKNOWN with
  | Raise e => (Raise e, imp)
  | OutOfFuel => (OutOfFuel, imp)
  | Ok metadata =>
      let result :=
        mkImportResult (uuid4 O) "success" metadata [] 0 [] 0 None 0%float 0
                       [] [] in
      let '(result, imp, ending) :=
        import_try imp fuel uuid4 cfg file_path result in
      let elapsed := PrimFloat.sub (end_time clock) (start_time clock) in
      match ending with
      | Ok _ => (Ok (set_time result elapsed), imp)
      | Raise e => (Ok (set_time (on_exception result e) elapsed), imp)
      | OutOfFuel => (OutOfFuel, imp)
      end
  end.

End Importer.

(** [ImportResult.add_chunk] *)
Definition add_chunk (r : ImportResult) (chunk : TextChunk) : ImportResult :=
  let chunks := ir_chunks r ++ [chunk] in
  mkImportResult (ir_id r) (ir_status r) (ir_document_metadata r)
    (ir_elements r) (ir_element_count r) chunks (Z.of_nat (length chunks))
    (ir_correlation_graph r) (ir_processing_time_seconds r)
    (ir_total_tokens r + tc_token_count chunk) (ir_errors r) (ir_warnings r).

Section Directory.

(** The file system when the directory is listed, and the file system when
    the file of index [k] of the listing is imported: between the two a file
    can be removed or replaced. *)
Variable fs : FileSystem.
Variable fs_at : nat -> FileSystem.
Variable unstructured : option Partition.
Variable langdetect : option LangDetect.
Variable parse_uuid : string -> option UUID.
Variable fugashi : option Tagger.
Variable lower : str -> str.

(** [Path.is_dir] and [Path.glob]: the directories of the file system and
    the paths that a pattern enumerates under a directory. *)
Variable is_dir : Path -> bool.
Variable glob : Path -> string -> list Path.





End Directory.

(* ================================================================= *)
(** ** Vocabulary of the statements *)

(** The code points of [s] that are not whitespace, in order. *)
Definition squeeze (s : str) : str := filter (fun c => negb (isspace c)) s.

(** The consecutive pairs of a list. *)
Definition consecutive {A : Type} (l : list A) : list (A * A) :=
  combine l (tl l).

Definition is_type (t : CorrelationType) (e : ChunkCorrelation) : bool :=
  CorrelationType_eqb (cc_correlation_type e) t.

(** An edge without its random identifier. *)
Definition edge_view (e : ChunkCorrelation)
  : UUID * UUID * CorrelationType * float * Metadata :=
  (cc_source_chunk_id e, cc_target_chunk_id e, cc_correlation_type e,
   cc_weight e, cc_metadata e).

(** The pairs of chunks at list positions [i < j] whose [chunk_index] values
    differ by more than 1, in the order [(i, j)] lexicographic. *)
Definition semantic_pairs (chunks : list TextChunk)
  : list (TextChunk * TextChunk) :=
  flat_map
    (fun ia =>
       flat_map
         (fun jb =>
            if (fst ia <? fst jb)%nat
               && (Z.abs (tc_chunk_index (snd ia) - tc_chunk_index (snd jb))
                   >? 1)
            then [(snd ia, snd jb)] else [])
         (enumerate chunks))
    (enumerate chunks).

(** The cumulative character count of the elements of language [l]. *)
Fixpoint cumulative (elements : list NormalizedElement) (l : Language) : Z :=
  match elements with
  | [] => 0
  | e :: r =>
      (if Language_eqb (ne_language e) l then len (ne_text e) else 0)
      + cumulative r l
  end.

(** Two configurations that differ at most in [chunk_size] and
    [chunk_overlap]. *)
Definition same_but_sizes (a b : ImportConfig) : Prop :=
  auto_detect_language a = auto_detect_language b
  /\ default_language a = default_language b
  /\ build_correlation_graph a = build_correlation_graph b
  /\ semantic_similarity_threshold a = semantic_similarity_threshold b
  /\ output_format a = output_format b.

(** The view of the [adjacent] edge from [fst p] to [snd p]. *)
Definition adjacent_view (p : TextChunk * TextChunk)
  : UUID * UUID * CorrelationType * float * Metadata :=
  (tc_id (fst p), tc_id (snd p), ADJACENT, 1%float,
   [("distance"%string, MInt 1)]).

(** The Jaccard similarity of the word sets of two chunks, as
    [_add_semantic_correlations] computes it. *)
Definition jaccard (lower : str -> str) (p : TextChunk * TextChunk) : float :=
  similarity_of (word_set lower (tc_text (fst p)))
                (word_set lower (tc_text (snd p))).

(** The view of the [semantic] edge from [fst p] to [snd p]. *)
Definition semantic_view (lower : str -> str) (p : TextChunk * TextChunk)
  : UUID * UUID * CorrelationType * float * Metadata :=
  (tc_id (fst p), tc_id (snd p), SEMANTIC, jaccard lower p,
   [("similarity_score"%string,
     similarity_meta (word_set lower (tc_text (fst p)))
                     (word_set lower (tc_text (snd p))))]).

(** The pairs that the inner loop of the semantic pass retains for the chunk
    [a] at position [i]. *)
Definition pair_cond (i : nat) (a : TextChunk) (jb : nat * TextChunk)
  : list (TextChunk * TextChunk) :=
  if (i <? fst jb)%nat
     && (Z.abs (tc_chunk_index a - tc_chunk_index (snd jb)) >? 1)
  then [(a, snd jb)] else [].

(** The similarity of the pair meets the threshold. *)
Definition passes (lower : str -> str) (threshold : float)
  (p : TextChunk * TextChunk) : bool :=
  PrimFloat.leb threshold (jaccard lower p).

Definition index_le (a b : TextChunk) : Prop :=
  tc_chunk_index a <= tc_chunk_index b.

(** The result object that [import_document] creates before its [try]
    block, for a path whose [stat] is [st]. *)
Definition initial_result (clock : Clock) (uuid4 : nat -> UUID)
  (file_path : Path) (st : FileStat) : ImportResult :=
  mkImportResult (uuid4 O) "success"
    (mkDocumentMetadata file_path (path_name file_path)
       (path_suffix_lower file_path) (st_size st) None (utcnow clock)
       UNKNOWN [])
    [] 0 [] 0 None 0%float 0 [] [].

(** The value of [end] after the word-boundary test in one iteration of
    [_chunk_by_size], and the value of [start] for the next iteration. *)
Definition size_end (chunk_size : Z) (text : str) (start : Z) : Z :=
  let end_ := start + chunk_size in
  if end_ <? len text then
    let break_pos := rfind_char text 32%N start end_ in
    if break_pos >? start then break_pos else end_
  else end_.

Definition size_next (chunk_size chunk_overlap : Z) (text : str) (start : Z)
  : Z :=
  let end_ := size_end chunk_size text start in
  if end_ - chunk_overlap <=? 0 then end_ else end_ - chunk_overlap.

(** The same for the character loop of [_chunk_by_morphemes]. *)
Definition chars_next (chunk_size chunk_overlap : Z) (text : str) (start : Z)
  : Z :=
  let end_ := Z.min (start + chunk_size) (len text) in
  if end_ - chunk_overlap <=? 0 then end_ else end_ - chunk_overlap.

(** The text carries a code point that is not whitespace. *)
Definition inked (s : str) : Prop := has_ink s = true.

(** What the [token_count] of a chunk is known to be: with the
    morphology-aware chunker and its backend, the number of morphemes that
    the analyser finds in the chunk text, which is 0 exactly when it finds
    none; otherwise a positive number. *)
Definition token_count_ok (fugashi : option Tagger) (c : Chunker)
  (ch : TextChunk) : Prop :=
  match c, fugashi with
  | JapaneseChunker _ _, Some tagger =>
      tc_token_count ch = Z.of_nat (length (tagger (tc_text ch)))
      /\ (tc_token_count ch = 0 <-> tagger (tc_text ch) = [])
  | _, _ => 0 < tc_token_count ch
  end.

Definition Language_eq_dec (a b : Language) : {a = b} + {a <> b}.
Proof. decide equality. Defined.

(** The dictionary after the scoring loop: its keys are distinct, known
    languages that occur among the elements, and each score is the
    cumulative character count of its language. *)
Definition scores_ok (done : list NormalizedElement) (d : LangScores) : Prop :=
  NoDup (map fst d)
  /\ (forall l, In l (map fst d) <->
                l <> UNKNOWN /\ exists e, In e done /\ ne_language e = l)
  /\ (forall l, In l (map fst d) -> scores_get d l 0 = cumulative done l).

(** Loop invariants of the sentence packing of the default chunker and of
    the sentence splitting of the Japanese chunker: what has been emitted
    is not blank. *)
Definition pack_inv (st : Default.pack_state) : Prop :=
  Forall inked (fst (fst st)) /\ Forall inked (snd (fst st)).

Definition split_inv (st : list str * str) : Prop := Forall inked (fst st).

(** The element texts in document order, each followed by the two-character
    separator: the text that [_combine_element_text] builds before it strips
    the right end. *)
Fixpoint joined_text (elements : list NormalizedElement) : str :=
  match elements with
  | [] => []
  | e :: r => ne_text e ++ [10; 10]%N ++ joined_text r
  end.

(** [sub] reads at offset [p] of [s]. *)
Definition occurs_at (s sub : str) (p : Z) : Prop :=
  0 <= p /\ p + len sub <= len s /\ slice s p (p + len sub) = sub.

(** The chunk starts at or after [lo], and its text does not read at any
    offset from [lo] up to its start. *)
Definition first_after (combined_text : str) (lo : Z) (ch : TextChunk)
  : Prop :=
  lo <= tc_start_char ch
  /\ forall p, lo <= p < tc_start_char ch ->
               ~ occurs_at combined_text (tc_text ch) p.

(** Each chunk is searched from one past the start of the chunk before
    it. *)
Fixpoint search_chain (combined_text : str) (lo : Z) (chunks : list TextChunk)
  : Prop :=
  match chunks with
  | [] => True
  | ch :: r =>
      first_after combined_text lo ch
      /\ search_chain combined_text (tc_start_char ch + 1) r
  end.



(** [edge_count / (n * (n - 1) / 2)], as [_update_density] computes it. *)
Definition density_formula (node_count edge_count : Z) : float :=
  let max_edges := true_div (node_count * (node_count - 1)) 2 in
  if PrimFloat.ltb 0%float max_edges
  then PrimFloat.div (float_of_int edge_count) max_edges
  else 0%float.

(** The counters of a graph agree with its edge list. *)
Definition graph_inv (g : CorrelationGraph) : Prop :=
  cg_edge_count g = Z.of_nat (length (cg_edges g))
  /\ cg_density g
     = match cg_edges g with
       | [] => 0%float
       | _ => if cg_node_count g >? 1
              then density_formula (cg_node_count g) (cg_edge_count g)
              else 0%float
       end.

(** [g'] has the document id and the nodes of [g]. *)
Definition same_nodes (g g' : CorrelationGraph) : Prop :=
  cg_document_id g' = cg_document_id g
  /\ cg_nodes g' = cg_nodes g
  /\ cg_node_count g' = cg_node_count g.

(** What [normalize] keeps of the raw element [raw] in the normalized
    element [e]. *)
Definition normalized_from (n : ElementNormalizer) (raw : RawElement)
  (e : NormalizedElement) : Prop :=
  ne_text e = (if raw_truthy raw then raw_str raw else [])
  /\ min_text_length n <= len (strip (ne_text e))
  /\ ne_element_type e = _get_element_type raw
  /\ (ne_element_type e = PAGE_BREAK -> has_ink (ne_text e) = true)
  /\ ne_heading_level e
     = (if ElementType_eqb (ne_element_type e) TITLE then Some 1 else None)
  /\ ne_raw_metadata e = _extract_metadata raw
  /\ ne_page_number e = _get_page_number raw.

(** Every cached chunker is the one that the factory builds for its language
    from the importer's own configuration. *)
Definition cache_ok (imp : DocumentImporter) : Prop :=
  forall l c, chunkers_get (_chunkers imp) l = Some c ->
              c = get_chunker l (chunk_size (config imp))
                              (chunk_overlap (config imp)).




Definition is_japanese_chunker (c : Chunker) : bool :=
  match c with
  | JapaneseChunker _ _ => true
  | DefaultChunker _ _ _ => false
  end.

(** The chunker [c] is the one built for [language] from the sizes of
    [cfg]: it has [cfg]'s [chunk_size] and [chunk_overlap], it is the
    morphology-aware chunker for Japanese and the sentence-boundary chunker
    of that language for every other language. *)
Definition built_from (cfg : ImportConfig) (language : Language)
  (c : Chunker) : Prop :=
  chunker_chunk_size c = chunk_size cfg
  /\ chunker_chunk_overlap c = chunk_overlap cfg
  /\ chunker_language c = language
  /\ (is_japanese_chunker c = true <-> language = JAPANESE).

(** Every chunker in the cache was built from the importer's own
    configuration. *)
Definition cache_built (imp : DocumentImporter) : Prop :=
  forall l c, chunkers_get (_chunkers imp) l = Some c ->
              built_from (config imp) l c.

(** The counters of a successful result agree with its lists. *)
Definition success_ok (cfg : ImportConfig) (r : ImportResult) : Prop :=
  ir_errors r = []
  /\ ir_element_count r = Z.of_nat (length (ir_elements r))
  /\ ir_chunk_count r = Z.of_nat (length (ir_chunks r))
  /\ ir_total_tokens r = sum_tokens (ir_chunks r)
  /\ Forall (fun c => tc_document_id c = ir_id r
                      /\ tc_language c
                         = dm_language (ir_document_metadata r))
            (ir_chunks r)
  /\ (build_correlation_graph cfg = true ->
      exists g, ir_correlation_graph r = Some g
                /\ cg_nodes g = map tc_id (ir_chunks r)
                /\ cg_node_count g = ir_chunk_count r)
  /\ (build_correlation_graph cfg = false -> ir_correlation_graph r = None).

(** A result with status ["error"] holds one message and no chunk. *)
Definition error_ok (r : ImportResult) : Prop :=
  (exists e, ir_errors r = [exn_str e])
  /\ ir_chunks r = [] /\ ir_chunk_count r = 0 /\ ir_total_tokens r = 0
  /\ ir_correlation_graph r = None.

(** The sentence packing of the default chunker after the sentences [done]:
    the chunks are the joined groups, no group is empty, the groups and the
    current chunk hold exactly the sentences read so far and, without
    overlap, hold them once each and in order. *)
Definition groups_inv (chunk_overlap : Z) (done : list str)
  (st : Default.pack_state) : Prop :=
  exists groups,
    fst (fst st) = map (join [32%N]) groups
    /\ Forall (fun g => g <> []) groups
    /\ (forall s, In s (concat groups ++ snd (fst st)) <-> In s done)
    /\ (chunk_overlap <= 0 -> concat groups ++ snd (fst st) = done).




(** The morpheme boundaries of a window that starts at [start]: [start]
    itself, then the end of each morpheme in turn. *)
Definition morpheme_ends (start : Z) (morphemes : list str) : list Z :=
  map (fun k => start + len (concat (firstn k morphemes)))
      (seq 0 (S (length morphemes))).

(** [r] is the first of the boundaries [bs] that is nearest to [target]:
    every earlier one is farther away, no later one is nearer. *)
Definition first_nearest (target : Z) (bs : list Z) (r : Z) : Prop :=
  exists pre post,
    bs = pre ++ r :: post
    /\ Forall (fun b => Z.abs (r - target) < Z.abs (b - target)) pre
    /\ Forall (fun b => Z.abs (r - target) <= Z.abs (b - target)) post.

(** The chunk that the Japanese chunker makes of a group of sentences. *)
Definition chunk_of (g : list str) : str := strip (concat g).

(** A group fits: it has at most [chunk_size] code points or is one
    sentence. *)
Definition fits (chunk_size : Z) (g : list str) : Prop :=
  len (concat g) <= chunk_size \/ exists s, g = [s].

(** The sentence packing of the Japanese chunker after the sentences
    [done], with no overlap: the chunks are the finished groups, the current
    chunk is the concatenation of the current group, and the groups hold the
    sentences once each and in order. *)
Definition japanese_groups_inv (chunk_size : Z) (done : list str)
  (st : list str * str) : Prop :=
  exists groups current,
    fst st = map chunk_of groups
    /\ snd st = concat current
    /\ Forall (fun g => g <> [] /\ fits chunk_size g) groups
    /\ concat groups ++ current = done
    /\ (snd st = [] -> current = [])
    /\ (current = [] \/ fits chunk_size current).

(** The last [n] code points of [s], all of [s] when it is shorter. *)
Definition last_n (n : Z) (s : str) : str :=
  skipn (length s - Z.to_nat n) s.

(** The chunk [snd p] starts with the last [chunk_overlap] code points of
    the chunk [fst p] before it. *)
Definition overlaps (chunk_overlap : Z) (p : str * str) : Prop :=
  exists tail, snd p = last_n chunk_overlap (fst p) ++ tail.

(** The morpheme packing of [_chunk_by_morphemes] after the morphemes
    [done]: no chunk is empty, with an overlap the current chunk starts with
    the end of the last finished one, without overlap the chunks and the
    current chunk hold the morphemes read so far. *)
Definition morpheme_inv (chunk_size chunk_overlap : Z) (done : list str)
  (st : list str * str) : Prop :=
  Forall (fun c => c <> []) (fst st)
  /\ (0 < chunk_overlap ->
      Forall (overlaps chunk_overlap) (consecutive (fst st))
      /\ forall init a, fst st = init ++ [a] ->
                        overlaps chunk_overlap (a, snd st))
  /\ (chunk_overlap <= 0 -> concat (fst st) ++ snd st = concat done)
  /\ (chunk_overlap <= 0 ->
      Forall (fun c => len c <= chunk_size \/ In c done) (fst st)
      /\ (len (snd st) <= chunk_size \/ In (snd st) done \/ snd st = [])).

(** The code points of the sentences of a group, the joining spaces not
    counted: [current_length] of the sentence packing. *)
Definition total_len (l : list str) : Z :=
  fold_right (fun s n => len s + n) 0 l.

(** [ov] is the overlap taken from the group [g]: the longest run of whole
    sentences at the end of [g] that has at most [chunk_overlap] code points
    in all. *)
Definition overlap_of (chunk_overlap : Z) (g ov : list str) : Prop :=
  exists pre,
    g = pre ++ ov
    /\ total_len ov <= chunk_overlap
    /\ (forall pre' s, pre = pre' ++ [s] ->
                       total_len ov + len s > chunk_overlap).

(** The group [snd p] is the overlap taken from [fst p] followed by at least
    one further sentence. *)
Definition shares_overlap (chunk_overlap : Z) (p : list str * list str)
  : Prop :=
  exists ov rest,
    snd p = ov ++ rest /\ rest <> [] /\ overlap_of chunk_overlap (fst p) ov.

(** A group is within [chunk_size], or it is an overlap followed by a single
    sentence. *)
Definition within (chunk_size chunk_overlap : Z) (g : list str) : Prop :=
  total_len g <= chunk_size
  \/ exists ov s, g = ov ++ [s] /\ total_len ov <= Z.max 0 chunk_overlap.

(** The sentence packing of the default chunker after the sentences [done],
    with the overlap and the sizes of the groups. *)
Definition overlap_inv (chunk_size chunk_overlap : Z) (done : list str)
  (st : Default.pack_state) : Prop :=
  exists groups,
    fst (fst st) = map (join [32%N]) groups
    /\ snd st = total_len (snd (fst st))
    /\ Forall (fun g => incl g done) groups
    /\ incl (snd (fst st)) done
    /\ (0 < chunk_overlap ->
        Forall (shares_overlap chunk_overlap) (consecutive groups)
        /\ forall init g, groups = init ++ [g] ->
                          shares_overlap chunk_overlap (g, snd (fst st)))
    /\ Forall (within chunk_size chunk_overlap) groups
    /\ (snd (fst st) = [] \/ within chunk_size chunk_overlap (snd (fst st))).

(** *** Sample data *)

Definition sample_element (id : UUID) (l : Language) (text : string)
  : NormalizedElement :=
  mkNormalizedElement id NARRATIVE_TEXT (py text) l None (Z.of_N id) None None
                      [].

Definition sample_chunk (id : UUID) (index : Z) (text : string) : TextChunk :=
  mkTextChunk id (py text) ENGLISH [] 77%N index 0 (len (py text)) 1 [].

(** ASCII lower-casing, an instance of [str.lower] on ASCII text. *)
Definition ascii_lower (s : str) : str :=
  map (fun c => if ((65 <=? c) && (c <=? 90))%N then (c + 32)%N else c) s.

(** A whitespace-only text: 60 tabs, one space, 200 tabs. *)
Definition tabs_space_tabs : str :=
  repeat 9%N 60 ++ [32%N] ++ repeat 9%N 200.

(** A whitespace-only text: 101 spaces. *)
Definition spaces_101 : str := repeat 32%N 101.

Definition default_config : ImportConfig :=
  mkImportConfig 1000 100 true ENGLISH true 0x1.6666666666666p-1%float
                 "graphrag".

Definition sample_txt : Path := mkPath "/docs/notes.txt" "notes.txt" ".txt".

Definition sample_xyz : Path := mkPath "/docs/notes.xyz" "notes.xyz" ".xyz".

(** A file system with the two files above and nothing else. *)
Definition sample_fs : FileSystem :=
  fun p =>
    if (String.eqb (path_str p) "/docs/notes.txt"
        || String.eqb (path_str p) "/docs/notes.xyz")%bool
    then Some (mkFileStat true 25)
    else None.

Definition sample_partition : Partition :=
  fun _ _ =>
    Ok [mkRawElement true (py "Hello world.") (Some "NarrativeText"%string)
                     false None;
        mkRawElement true (py "Second one.") (Some "NarrativeText"%string)
                     false None].

Definition sample_importer : DocumentImporter :=
  mkDocumentImporter (mkDocumentParser false true)
                     (mkElementNormalizer true UNKNOWN 1) default_config [].

Definition sample_clock : Clock := mkClock 0%float 0%float 0%float.

(** Two elements, joined by [_combine_element_text] with a blank line. *)
Definition hello_elements : list NormalizedElement :=
  [sample_element 1%N ENGLISH "Hello world.";
   sample_element 2%N ENGLISH "Second one."].

(** A stand-in analyser: one morpheme per code point that is not
    whitespace. *)
Definition char_tagger : Tagger :=
  fun t => map (fun c => [c]) (squeeze t).

(** A Japanese element: two sentences ending in the ideographic full
    stop. *)
Definition japanese_elements : list NormalizedElement :=
  [mkNormalizedElement 1%N NARRATIVE_TEXT
     [12371; 12428; 12290; 12486; 12473; 12488; 12290]%N JAPANESE None 0
     None None []].

(** The two chunks of ["One. Two."] under [chunk_size = 5]. *)
Definition two_chunks : list TextChunk :=
  [mkTextChunk 0%N (py "One.") ENGLISH [1%N] 7%N 0 0 4 1 [];
   mkTextChunk 1%N (py "Two.") ENGLISH [1%N] 7%N 1 5 9 1 []].

(** A document of two paragraphs of four sentences each: 173 code points
    when joined, more than a [chunk_size] of 100 and fewer than 1000. *)
Definition long_partition : Partition :=
  fun _ _ =>
    Ok [mkRawElement true
          (py "Sentence number one. Sentence number two. Sentence number three. Sentence number four.")
          (Some "NarrativeText"%string) false None;
        mkRawElement true
          (py "Sentence number five. Sentence number six. Sentence number seven. Sentence number eight.")
          (Some "NarrativeText"%string) false None].

(** An override that asks for chunks of at most 100 code points. *)
Definition small_override : ImportConfig :=
  mkImportConfig 100 0 true ENGLISH true 0x1.6666666666666p-1%float
                 "graphrag".

(** A stand-in analyser that finds no morpheme in a text that starts with
    the code point 0, and one morpheme per code point that is not whitespace
    in any other text. *)
Definition nul_tagger : Tagger :=
  fun t =>
    match t with
    | 0%N :: _ => []
    | _ => char_tagger t
    end.

(** A Japanese element whose text starts with the code point 0. *)
Definition nul_elements : list NormalizedElement :=
  [mkNormalizedElement 1%N NARRATIVE_TEXT
     [0; 12486; 12473; 12488; 12290]%N JAPANESE None 0 None None []].

(** A phrase with an ideographic comma at index 1 and an ideographic full
    stop at index 4. *)
Definition sample_phrase : str := [97; 12289; 98; 99; 12290; 100]%N.

(* ================================================================= *)
(** * Properties *)

(** ** Strings *)

Lemma len_nonneg (s : str) : 0 <= len s.
Proof. unfold len. lia. Qed.

Lemma len_app (a b : str) : len (a ++ b) = len a + len b.
Proof. unfold len. rewrite length_app. lia. Qed.

Lemma has_ink_app (a b : str) : has_ink (a ++ b) = has_ink a || has_ink b.
Proof. unfold has_ink. apply existsb_app. Qed.

Lemma has_ink_rev (s : str) : has_ink (rev s) = has_ink s.
Proof.
  induction s as [|c s IH]; simpl; [reflexivity|].
  rewrite has_ink_app, IH. simpl. rewrite orb_false_r. apply orb_comm.
Qed.

Lemma has_ink_lstrip (s : str) : has_ink (lstrip s) = has_ink s.
Proof.
  induction s as [|c s IH]; simpl; [reflexivity|].
  destruct (isspace c) eqn:E; simpl; [exact IH|].
  rewrite E. reflexivity.
Qed.

Lemma has_ink_rstrip (s : str) : has_ink (rstrip s) = has_ink s.
Proof. unfold rstrip. now rewrite has_ink_rev, has_ink_lstrip, has_ink_rev. Qed.

Lemma has_ink_strip (s : str) : has_ink (strip s) = has_ink s.
Proof. unfold strip. now rewrite has_ink_rstrip, has_ink_lstrip. Qed.

Lemma has_ink_nonempty (s : str) : has_ink s = true -> s <> [].
Proof. now destruct s. Qed.

Lemma lstrip_nil_iff (s : str) : lstrip s = [] <-> has_ink s = false.
Proof.
  induction s as [|c s IH]; simpl; [tauto|].
  destruct (isspace c); simpl; [exact IH|]. split; discriminate.
Qed.

Lemma rstrip_nil_iff (s : str) : rstrip s = [] <-> has_ink s = false.
Proof.
  unfold rstrip. rewrite <- (has_ink_rev s), <- lstrip_nil_iff.
  split; intros H.
  - apply (f_equal (@rev char)) in H. now rewrite rev_involutive in H.
  - now rewrite H.
Qed.

Lemma strip_nil_iff (s : str) : strip s = [] <-> has_ink s = false.
Proof. unfold strip. now rewrite rstrip_nil_iff, has_ink_lstrip. Qed.

(** A stripped string is empty or carries a non-whitespace code point. *)
Lemma rstrip_cases (s : str) : rstrip s = [] \/ has_ink (rstrip s) = true.
Proof.
  destruct (has_ink s) eqn:E.
  - right. now rewrite has_ink_rstrip.
  - left. now apply rstrip_nil_iff.
Qed.

Lemma split_ws_aux_nonempty (s cur : str) :
  cur <> [] \/ has_ink s = true -> split_ws_aux cur s <> [].
Proof.
  revert cur. induction s as [|c s IH]; intros cur H; simpl.
  - destruct H as [H|H]; [|discriminate]. now destruct cur.
  - simpl in H. destruct (isspace c); simpl in H.
    + destruct cur; [|discriminate].
      apply IH. destruct H as [H|H]; [now elim H|now right].
    + apply IH. left. discriminate.
Qed.

Lemma split_ws_nonempty (s : str) : has_ink s = true -> split_ws s <> [].
Proof. intros H. apply split_ws_aux_nonempty. now right. Qed.

Lemma has_ink_join (sep : str) (l : list str) :
  l <> [] -> Forall (fun s => has_ink s = true) l ->
  has_ink (join sep l) = true.
Proof.
  intros Hne Hall. destruct l as [|x l]; [now elim Hne|].
  inversion Hall as [|? ? Hx _]; subst.
  destruct l as [|y l]; simpl; [exact Hx|].
  now rewrite has_ink_app, Hx.
Qed.

Lemma Language_eqb_eq (a b : Language) : Language_eqb a b = true <-> a = b.
Proof. destruct a, b; simpl; split; congruence. Qed.

Lemma Language_eqb_refl (a : Language) : Language_eqb a a = true.
Proof. now destruct a. Qed.

Lemma Language_eqb_neq (a b : Language) : Language_eqb a b = false <-> a <> b.
Proof. destruct a, b; simpl; split; congruence. Qed.

(* ================================================================= *)
(** ** Empty inputs *)

Lemma add_correlation_edges (g : CorrelationGraph) (c : ChunkCorrelation) :
  cg_edges (add_correlation g c) = cg_edges g ++ [c].
Proof.
  unfold add_correlation, _update_density. simpl.
  now destruct (cg_node_count g >? 1).
Qed.

Lemma add_correlation_edge_count (g : CorrelationGraph) (c : ChunkCorrelation) :
  cg_edge_count (add_correlation g c)
  = Z.of_nat (length (cg_edges (add_correlation g c))).
Proof.
  rewrite add_correlation_edges.
  unfold add_correlation, _update_density. simpl.
  now destruct (cg_node_count g >? 1).
Qed.

(** C10: [chunk_text("")] is the empty list for both chunker classes, any
    sizes, with or without the morphological backend and whatever the fuel;
    [build_graph([])] returns a graph with no node, no edge, [node_count = 0],
    [edge_count = 0] and [density = 0.0], whatever the builder's flags. *)
Theorem C10_empty_inputs :
  (forall fugashi c fuel, chunk_text fugashi c fuel [] = Ok [])
  /\ (forall lower b uuid4,
        let g := build_graph lower b uuid4 [] in
        cg_nodes g = [] /\ cg_edges g = []
        /\ cg_node_count g = 0 /\ cg_edge_count g = 0
        /\ cg_density g = 0%float).
Proof.
  split.
  - intros fugashi [l cs co|cs co] fuel; reflexivity.
  - intros lower b uuid4. simpl. repeat split.
Qed.

(* ================================================================= *)
(** ** ImportConfig validation *)

(** C2, as the code has it: [ImportConfig(...)] succeeds exactly when
    [chunk_size] is in [100, 10000], [chunk_overlap >= 0] and the similarity
    threshold is in [0, 1]; [chunk_overlap] is not compared with
    [chunk_size]. *)
Theorem C2_ImportConfig_validation :
  forall cs co adl dl bcg thr fmt,
    (exists c, ImportConfig_new cs co adl dl bcg thr fmt = Ok c)
    <-> (100 <= cs <= 10000 /\ 0 <= co
         /\ PrimFloat.leb 0%float thr = true
         /\ PrimFloat.leb thr 1%float = true).
Proof.
  intros cs co adl dl bcg thr fmt.
  unfold ImportConfig_new, ImportConfig_valid. simpl.
  destruct (100 <=? cs) eqn:E1, (cs <=? 10000) eqn:E2, (0 <=? co) eqn:E3,
    (PrimFloat.leb 0 thr) eqn:E4, (PrimFloat.leb thr 1) eqn:E5; simpl;
    split;
    try (intros [c Hc]; discriminate Hc);
    try (intros (H1 & H2 & H3 & H4); exfalso; (discriminate || lia));
    try (intros _; repeat split; lia);
    try (intros _; eexists; reflexivity).
Qed.

(** C2, counterexample: a configuration whose [chunk_overlap] is twice its
    [chunk_size] is accepted. *)
Lemma C2_overlap_not_checked :
  ImportConfig_new 100 200 true ENGLISH true 0.5%float "graphrag"
  = Ok (mkImportConfig 100 200 true ENGLISH true 0.5%float "graphrag")
  /\ chunk_size (mkImportConfig 100 200 true ENGLISH true 0.5%float "graphrag")
     <= chunk_overlap
          (mkImportConfig 100 200 true ENGLISH true 0.5%float "graphrag").
Proof. split; [vm_compute; reflexivity | simpl; lia]. Qed.

(* ================================================================= *)
(** ** Document language *)

Section LangScores.

Lemma scores_get_set_same (d : LangScores) (l : Language) (v def : Z) :
  scores_get (scores_set d l v) l def = v.
Proof.
  induction d as [|[k w] d IH]; simpl.
  - now rewrite Language_eqb_refl.
  - destruct (Language_eqb k l) eqn:E; simpl; rewrite E; auto.
Qed.

Lemma scores_get_set_other (d : LangScores) (l l' : Language) (v def : Z) :
  l' <> l -> scores_get (scores_set d l v) l' def = scores_get d l' def.
Proof.
  intros Hne. induction d as [|[k w] d IH]; simpl.
  - destruct (Language_eqb l l') eqn:E; [|reflexivity].
    apply Language_eqb_eq in E. congruence.
  - destruct (Language_eqb k l) eqn:E; simpl.
    + apply Language_eqb_eq in E. subst k.
      destruct (Language_eqb l l') eqn:E'; [|reflexivity].
      apply Language_eqb_eq in E'. congruence.
    + now rewrite IH.
Qed.

Lemma scores_set_keys (d : LangScores) (l : Language) (v : Z) :
  (In l (map fst d) /\ map fst (scores_set d l v) = map fst d)
  \/ (~ In l (map fst d) /\ map fst (scores_set d l v) = map fst d ++ [l]).
Proof.
  induction d as [|[k w] d IH]; simpl.
  - right. split; [tauto|reflexivity].
  - destruct (Language_eqb k l) eqn:E; simpl.
    + apply Language_eqb_eq in E. left. split; [now left|reflexivity].
    + apply Language_eqb_neq in E.
      destruct IH as [[Hin Heq]|[Hnin Heq]]; [left|right]; rewrite Heq;
        split; try reflexivity; tauto.
Qed.

Lemma scores_set_NoDup (d : LangScores) (l : Language) (v : Z) :
  NoDup (map fst d) -> NoDup (map fst (scores_set d l v)).
Proof.
  intros Hnd. destruct (scores_set_keys d l v) as [[_ Heq]|[Hnin Heq]];
    rewrite Heq; [exact Hnd|].
  apply NoDup_app; [exact Hnd|repeat constructor; simpl; tauto|].
  intros x Hx [Hl|[]]. now subst.
Qed.

Lemma scores_get_In (d : LangScores) (k : Language) (v def : Z) :
  NoDup (map fst d) -> In (k, v) d -> scores_get d k def = v.
Proof.
  induction d as [|[k' w] d IH]; simpl; intros Hnd Hin; [tauto|].
  inversion Hnd as [|? ? Hnin Hnd']; subst.
  destruct Hin as [Heq|Hin].
  - inversion Heq; subst. now rewrite Language_eqb_refl.
  - destruct (Language_eqb k' k) eqn:E.
    + apply Language_eqb_eq in E. subst k'. elim Hnin.
      change k with (fst (k, v)). now apply in_map.
    + now apply IH.
Qed.

Lemma scores_get_notin (d : LangScores) (k : Language) (def : Z) :
  ~ In k (map fst d) -> scores_get d k def = def.
Proof.
  induction d as [|[k' w] d IH]; simpl; intros Hnin; [reflexivity|].
  destruct (Language_eqb k' k) eqn:E.
  - apply Language_eqb_eq in E. tauto.
  - apply IH. tauto.
Qed.

Lemma max_item_spec (items : LangScores) (best : Language * Z) :
  In (max_item best items) (best :: items)
  /\ forall x, In x (best :: items) -> snd x <= snd (max_item best items).
Proof.
  revert best. induction items as [|y r IH]; intros best; simpl.
  - split; [now left|]. intros x [<-|[]]. lia.
  - destruct (snd y >? snd best) eqn:E.
    + destruct (IH y) as [Hin Hmax]. split.
      * simpl in Hin. tauto.
      * intros x [<-|[<-|Hx]].
        -- specialize (Hmax y (or_introl eq_refl)). lia.
        -- apply Hmax. now left.
        -- apply Hmax. now right.
    + destruct (IH best) as [Hin Hmax]. split.
      * simpl in Hin. tauto.
      * intros x [<-|[<-|Hx]].
        -- apply Hmax. now left.
        -- specialize (Hmax best (or_introl eq_refl)). lia.
        -- apply Hmax. now right.
Qed.

Lemma cumulative_nonneg (els : list NormalizedElement) (l : Language) :
  0 <= cumulative els l.
Proof.
  induction els as [|e r IH]; simpl; [lia|].
  destruct (Language_eqb (ne_language e) l); pose proof (len_nonneg (ne_text e));
    lia.
Qed.

Lemma cumulative_app (a b : list NormalizedElement) (l : Language) :
  cumulative (a ++ b) l = cumulative a l + cumulative b l.
Proof. induction a as [|e r IH]; simpl; [reflexivity|]. rewrite IH. lia. Qed.

Lemma cumulative_absent (els : list NormalizedElement) (l : Language) :
  (forall e, In e els -> ne_language e <> l) -> cumulative els l = 0.
Proof.
  induction els as [|e r IH]; simpl; intros H; [reflexivity|].
  destruct (Language_eqb (ne_language e) l) eqn:E.
  - apply Language_eqb_eq in E. elim (H e); auto.
  - rewrite IH; [lia|]. intros x Hx. apply H. now right.
Qed.

Lemma score_step_ok (done : list NormalizedElement) (d : LangScores)
  (e : NormalizedElement) :
  scores_ok done d -> scores_ok (done ++ [e]) (score_step d e).
Proof.
  intros (Hnd & Hkeys & Hval). unfold score_step.
  destruct (Language_eqb (ne_language e) UNKNOWN) eqn:EU; simpl.
  - apply Language_eqb_eq in EU. repeat split.
    + exact Hnd.
    + apply Hkeys in H. tauto.
    + apply Hkeys in H. destruct H as (_ & x & Hx & Hl).
      exists x. split; [apply in_or_app; now left|exact Hl].
    + intros (Hne & x & Hx & Hl). apply Hkeys. split; [exact Hne|].
      apply in_app_or in Hx. destruct Hx as [Hx|[<-|[]]]; [now exists x|].
      congruence.
    + intros l Hl. rewrite cumulative_app. simpl.
      rewrite (Hval l Hl).
      destruct (Language_eqb (ne_language e) l) eqn:E; [|lia].
      apply Language_eqb_eq in E. apply Hkeys in Hl. destruct Hl. congruence.
  - apply Language_eqb_neq in EU.
    set (le := ne_language e) in *.
    set (v := scores_get d le 0 + len (ne_text e)).
    assert (Hk : forall l, In l (map fst (scores_set d le v))
                           <-> In l (map fst d) \/ l = le).
    { intros l. destruct (scores_set_keys d le v) as [[Hin Heq]|[Hnin Heq]];
        rewrite Heq.
      - split; [tauto|]. intros [H| ->]; assumption.
      - rewrite in_app_iff. simpl. split; intros [H|H]; try tauto.
        + destruct H as [H|[]]. now right.
        + right. now left. }
    repeat split.
    + now apply scores_set_NoDup.
    + apply Hk in H. destruct H as [H| ->]; [apply Hkeys in H; tauto|exact EU].
    + apply Hk in H. destruct H as [H| ->].
      * apply Hkeys in H. destruct H as (_ & x & Hx & Hl).
        exists x. split; [apply in_or_app; now left|exact Hl].
      * exists e. split; [apply in_or_app; right; now left|reflexivity].
    + intros (Hne & x & Hx & Hl). apply Hk.
      apply in_app_or in Hx. destruct Hx as [Hx|[<-|[]]].
      * left. apply Hkeys. split; [exact Hne|now exists x].
      * now right.
    + intros l Hl. rewrite cumulative_app. simpl. fold le.
      destruct (Language_eqb le l) eqn:E.
      * apply Language_eqb_eq in E. subst l.
        rewrite scores_get_set_same. unfold v.
        destruct (in_dec Language_eq_dec le (map fst d)) as [Hin|Hnin].
        -- rewrite (Hval le Hin). lia.
        -- rewrite (scores_get_notin d le 0 Hnin).
           assert (Hc : cumulative done le = 0).
           { apply cumulative_absent. intros x Hx Hxl. apply Hnin.
             apply Hkeys. split; [exact EU|now exists x]. }
           lia.
      * apply Language_eqb_neq in E.
        rewrite scores_get_set_other by congruence.
        apply Hk in Hl. destruct Hl as [Hl|Hl]; [|congruence].
        rewrite (Hval l Hl). lia.
Qed.

Lemma fold_score_ok (els done : list NormalizedElement) (d : LangScores) :
  scores_ok done d ->
  scores_ok (done ++ els) (fold_left score_step els d).
Proof.
  revert done d. induction els as [|e r IH]; intros done d H; simpl.
  - now rewrite app_nil_r.
  - replace (done ++ e :: r) with ((done ++ [e]) ++ r)
      by (rewrite <- app_assoc; reflexivity).
    apply IH. now apply score_step_ok.
Qed.

Lemma scores_ok_nil : scores_ok [] [].
Proof.
  split; [constructor|]. split.
  - intros l. simpl. split; [tauto|]. intros (_ & e & [] & _).
  - intros l [].
Qed.

End LangScores.

(** C9, as the code has it: [detect_document_language] returns the
    configured default language when no element has a language other than
    [UNKNOWN] (in particular for an empty list); otherwise it returns a
    language other than [UNKNOWN] that occurs among the elements and whose
    cumulative character count is greatest among the languages other than
    [UNKNOWN]. *)
Theorem C9_detect_document_language :
  forall (n : ElementNormalizer) (elements : list NormalizedElement),
    let r := detect_document_language n elements in
    ((forall e, In e elements -> ne_language e = UNKNOWN) ->
     r = en_default_language n)
    /\ (forall e0, In e0 elements -> ne_language e0 <> UNKNOWN ->
        r <> UNKNOWN
        /\ (exists e, In e elements /\ ne_language e = r)
        /\ (forall l, l <> UNKNOWN ->
                      cumulative elements l <= cumulative elements r)).
Proof.
  intros n elements r.
  pose proof (fold_score_ok elements [] [] scores_ok_nil) as Hok.
  simpl in Hok. destruct Hok as (Hnd & Hkeys & Hval).
  assert (Hr : r = match elements with
                   | [] => en_default_language n
                   | _ => match fold_left score_step elements [] with
                          | [] => en_default_language n
                          | x :: rest => fst (max_item x rest)
                          end
                   end) by reflexivity.
  split.
  - intros Hall. rewrite Hr. destruct elements as [|e els]; [reflexivity|].
    destruct (fold_left score_step (e :: els) []) as [|x rest] eqn:Ed;
      [reflexivity|].
    exfalso. destruct (proj1 (Hkeys (fst x)) (or_introl eq_refl))
      as (Hne & y & Hy & Hl).
    apply Hne. rewrite <- Hl. now apply Hall.
  - intros e0 Hin0 Hne0.
    destruct elements as [|e els]; [destruct Hin0|].
    destruct (fold_left score_step (e :: els) []) as [|x rest] eqn:Ed.
    + exfalso. apply (proj2 (Hkeys (ne_language e0))).
      split; [exact Hne0|now exists e0].
    + assert (Hr' : r = fst (max_item x rest)) by (rewrite Hr; reflexivity).
      destruct (max_item_spec rest x) as [Hin Hmax].
      set (best := max_item x rest) in *.
      assert (Hkey : In (fst best) (map fst (x :: rest)))
        by (now apply in_map).
      assert (Hbest : snd best = cumulative (e :: els) (fst best)).
      { rewrite <- (Hval _ Hkey). symmetry. apply scores_get_In; [exact Hnd|].
        now destruct best. }
      destruct (proj1 (Hkeys _) Hkey) as (Hne & y & Hy & Hl).
      rewrite Hr'. split; [exact Hne|]. split; [now exists y|].
      intros l Hl0.
      destruct (in_dec Language_eq_dec l (map fst (x :: rest))) as [Hi|Hni].
      * rewrite <- (Hval l Hi), <- Hbest.
        apply in_map_iff in Hi. destruct Hi as ([k v] & Hk & Hkv).
        simpl in Hk. subst k.
        rewrite (scores_get_In _ l v 0 Hnd Hkv).
        apply (Hmax (l, v) Hkv).
      * rewrite (cumulative_absent (e :: els) l).
        -- apply cumulative_nonneg.
        -- intros z Hz Hzl. apply Hni. apply Hkeys.
           split; [exact Hl0|now exists z].
Qed.

(** C9, counterexample: with the default language set to [ENGLISH], a
    document of ten English and five Japanese characters is reported as
    [ENGLISH], the configured default, although an element with another
    language exists: the languages left out of the count are those equal to
    [UNKNOWN], not those equal to the configured default. *)
Lemma C9_default_language_is_counted :
  let n := mkElementNormalizer true ENGLISH 1 in
  let elements := [sample_element 1%N ENGLISH "aaaaaaaaaa";
                   sample_element 2%N JAPANESE "bbbbb"] in
  detect_document_language n elements = en_default_language n
  /\ (exists e, In e elements /\ ne_language e <> en_default_language n)
  /\ ~ (exists e, In e elements
                  /\ ne_language e <> en_default_language n
                  /\ ne_language e = detect_document_language n elements).
Proof.
  simpl. split; [reflexivity|]. split.
  - eexists. split; [right; left; reflexivity|]. discriminate.
  - intros (e & [<-|[<-|[]]] & Hne & Heq); simpl in *; congruence.
Qed.

Lemma C9_detect_document_language_witness :
  detect_document_language (mkElementNormalizer true ENGLISH 1) []
  = ENGLISH
  /\ detect_document_language (mkElementNormalizer true UNKNOWN 1)
       [sample_element 1%N ENGLISH "aaaa"; sample_element 2%N JAPANESE "bbbbb";
        sample_element 3%N UNKNOWN "cccccccc"] <> UNKNOWN.
Proof.
  split.
  - apply (proj1 (C9_detect_document_language
                    (mkElementNormalizer true ENGLISH 1) [])).
    intros e [].
  - apply (proj2 (C9_detect_document_language
                    (mkElementNormalizer true UNKNOWN 1)
                    [sample_element 1%N ENGLISH "aaaa";
                     sample_element 2%N JAPANESE "bbbbb";
                     sample_element 3%N UNKNOWN "cccccccc"])
                 (sample_element 1%N ENGLISH "aaaa")).
    + simpl. left. reflexivity.
    + simpl. discriminate.
Defined.

(* ================================================================= *)
(** ** Correlation graph *)

Section Graph.

Variable lower : str -> str.
Variable uuid4 : nat -> UUID.

Lemma insert_by_index_perm (x : TextChunk) (l : list TextChunk) :
  Permutation (x :: l) (insert_by_index x l).
Proof.
  induction l as [|y l IH]; simpl; [apply Permutation_refl|].
  destruct (tc_chunk_index x <=? tc_chunk_index y);
    [apply Permutation_refl|].
  eapply perm_trans; [apply perm_swap|]. now apply perm_skip.
Qed.

Lemma sorted_by_index_perm (l : list TextChunk) :
  Permutation l (sorted_by_index l).
Proof.
  induction l as [|x l IH]; simpl; [constructor|].
  eapply perm_trans; [apply perm_skip, IH|apply insert_by_index_perm].
Qed.

Lemma insert_by_index_sorted (x : TextChunk) (l : list TextChunk) :
  StronglySorted index_le l -> StronglySorted index_le (insert_by_index x l).
Proof.
  induction l as [|y l IH]; simpl; intros Hs.
  - repeat constructor.
  - inversion Hs as [|? ? Hs' Hall]; subst.
    destruct (Z.leb_spec (tc_chunk_index x) (tc_chunk_index y)) as [Hle|Hgt].
    + constructor; [exact Hs|]. constructor; [exact Hle|].
      eapply Forall_impl; [|exact Hall]. unfold index_le. intros; lia.
    + constructor; [now apply IH|].
      eapply Permutation_Forall; [apply insert_by_index_perm|].
      constructor; [unfold index_le; lia|exact Hall].
Qed.

Lemma sorted_by_index_sorted (l : list TextChunk) :
  StronglySorted index_le (sorted_by_index l).
Proof.
  induction l as [|x l IH]; simpl; [constructor|].
  now apply insert_by_index_sorted.
Qed.

Lemma consecutive_length {A : Type} (l : list A) :
  length (consecutive l) = (length l - 1)%nat.
Proof.
  unfold consecutive. rewrite length_combine.
  destruct l as [|a l]; [reflexivity|]. cbn [tl length]. lia.
Qed.

(** The adjacency pass appends one edge per consecutive pair. *)
Lemma adjacent_loop_edges (l : list TextChunk) (g : CorrelationGraph) :
  exists adj,
    cg_edges (adjacent_loop uuid4 l g) = cg_edges g ++ adj
    /\ map edge_view adj = map adjacent_view (consecutive l).
Proof.
  revert g. induction l as [|x l IH]; intros g.
  - exists []. simpl. now rewrite app_nil_r.
  - destruct l as [|y r].
    + exists []. simpl. now rewrite app_nil_r.
    + change (adjacent_loop uuid4 (x :: y :: r) g)
        with (adjacent_loop uuid4 (y :: r)
                (add_correlation g
                   (adjacent_edge (uuid4 (length (cg_edges g))) x y))).
      destruct (IH (add_correlation g
                      (adjacent_edge (uuid4 (length (cg_edges g))) x y)))
        as (adj & Hadj & Hview).
      exists (adjacent_edge (uuid4 (length (cg_edges g))) x y :: adj).
      split.
      * rewrite Hadj, add_correlation_edges, <- app_assoc. reflexivity.
      * change (consecutive (x :: y :: r))
          with ((x, y) :: consecutive (y :: r)).
        simpl. now rewrite Hview.
Qed.

Lemma semantic_inner_edges (threshold : float) (i : nat) (a : TextChunk)
  (l : list (nat * TextChunk)) (g : CorrelationGraph) :
  exists sem,
    cg_edges (fold_left (semantic_inner lower threshold uuid4 i a) l g)
    = cg_edges g ++ sem
    /\ map edge_view sem
       = map (semantic_view lower)
             (filter (passes lower threshold) (flat_map (pair_cond i a) l)).
Proof.
  revert g. induction l as [|[j b] l IH]; intros g.
  - exists []. simpl. now rewrite app_nil_r.
  - assert (Hstep : exists s0,
               cg_edges (semantic_inner lower threshold uuid4 i a g (j, b))
               = cg_edges g ++ s0
               /\ map edge_view s0
                  = map (semantic_view lower)
                        (filter (passes lower threshold)
                                (pair_cond i a (j, b)))).
    { unfold semantic_inner, pair_cond, passes, jaccard. cbn [fst snd].
      rewrite Nat.ltb_antisym.
      destruct (j <=? i)%nat; cbn [negb andb].
      { exists []. simpl. now rewrite app_nil_r. }
      destruct (Z.leb_spec (Z.abs (tc_chunk_index a - tc_chunk_index b)) 1)
        as [Hle|Hgt];
        destruct (Z.gtb_spec (Z.abs (tc_chunk_index a - tc_chunk_index b)) 1)
        as [Hgt'|Hle']; try lia.
      { exists []. simpl. now rewrite app_nil_r. }
      cbn [filter fst snd].
      destruct (PrimFloat.leb threshold
                  (similarity_of (word_set lower (tc_text a))
                                 (word_set lower (tc_text b)))).
      - exists [semantic_edge lower (uuid4 (length (cg_edges g))) a b].
        split; [apply add_correlation_edges|reflexivity].
      - exists []. simpl. now rewrite app_nil_r. }
    destruct Hstep as (s0 & E0 & V0).
    destruct (IH (semantic_inner lower threshold uuid4 i a g (j, b)))
      as (sem & H1 & H2).
    exists (s0 ++ sem). split.
    + cbn [fold_left]. rewrite H1, E0, <- app_assoc. reflexivity.
    + cbn [flat_map]. rewrite filter_app, !map_app, V0, H2. reflexivity.
Qed.

Lemma semantic_outer_edges (threshold : float)
  (outer inner : list (nat * TextChunk)) (g : CorrelationGraph) :
  exists sem,
    cg_edges
      (fold_left
         (fun graph ia =>
            fold_left (semantic_inner lower threshold uuid4 (fst ia) (snd ia))
                      inner graph)
         outer g)
    = cg_edges g ++ sem
    /\ map edge_view sem
       = map (semantic_view lower)
             (filter (passes lower threshold)
                (flat_map (fun ia => flat_map (pair_cond (fst ia) (snd ia))
                                              inner)
                          outer)).
Proof.
  revert g. induction outer as [|[i a] outer IH]; intros g.
  - exists []. simpl. now rewrite app_nil_r.
  - cbn [fold_left flat_map fst snd]. rewrite filter_app, map_app.
    destruct (semantic_inner_edges threshold i a inner g) as (s1 & H1 & V1).
    destruct (IH (fold_left (semantic_inner lower threshold uuid4 i a)
                            inner g)) as (s2 & H2 & V2).
    exists (s1 ++ s2). split.
    + rewrite H2, H1, <- app_assoc. reflexivity.
    + rewrite map_app, V1, V2. reflexivity.
Qed.

Lemma semantic_pairs_eq (chunks : list TextChunk) :
  semantic_pairs chunks
  = flat_map (fun ia => flat_map (pair_cond (fst ia) (snd ia))
                                 (enumerate chunks))
             (enumerate chunks).
Proof. reflexivity. Qed.

Lemma view_types {X : Type}
  (F : X -> UUID * UUID * CorrelationType * float * Metadata)
  (t : CorrelationType) (edges : list ChunkCorrelation) (l : list X) :
  map edge_view edges = map F l ->
  (forall x, snd (fst (fst (F x))) = t) ->
  Forall (fun e => cc_correlation_type e = t) edges.
Proof.
  revert l. induction edges as [|e r IH]; intros l Hmap HF; [constructor|].
  destruct l as [|x l]; [discriminate|]. simpl in Hmap.
  inversion Hmap as [[Hv Hr]]. constructor.
  - rewrite <- (HF x), <- Hv. reflexivity.
  - now apply (IH l).
Qed.

Lemma filter_keep (t : CorrelationType) (l : list ChunkCorrelation) :
  Forall (fun e => cc_correlation_type e = t) l ->
  filter (is_type t) l = l.
Proof.
  induction 1 as [|e r He _ IH]; simpl; [reflexivity|].
  unfold is_type at 1. rewrite He, IH. now destruct t.
Qed.

Lemma filter_drop (t u : CorrelationType) (l : list ChunkCorrelation) :
  t <> u ->
  Forall (fun e => cc_correlation_type e = u) l ->
  filter (is_type t) l = [].
Proof.
  intros Hne. induction 1 as [|e r He _ IH]; simpl; [reflexivity|].
  unfold is_type at 1. rewrite He, IH.
  destruct u, t; simpl; congruence.
Qed.

(** The edges of [build_graph]: the adjacency edges first, then the semantic
    edges, each part present when its flag is set. *)
Lemma build_graph_edges (b : CorrelationBuilder) (chunks : list TextChunk) :
  exists adj sem,
    cg_edges (build_graph lower b uuid4 chunks) = adj ++ sem
    /\ map edge_view adj
       = (if build_adjacent b
          then map adjacent_view (consecutive (sorted_by_index chunks))
          else [])
    /\ map edge_view sem
       = (if build_semantic b
          then map (semantic_view lower)
                   (filter (passes lower (similarity_threshold b))
                           (semantic_pairs chunks))
          else []).
Proof.
  destruct chunks as [|c0 chunks].
  - exists [], []. simpl. destruct (build_adjacent b), (build_semantic b);
      repeat split.
  - set (cs := c0 :: chunks).
    set (g0 := mkCorrelationGraph (tc_document_id c0) (map tc_id cs) []
                 (Z.of_nat (length cs)) 0 0%float).
    set (g1 := if build_adjacent b
               then _add_adjacent_correlations uuid4 g0 cs else g0).
    assert (Hg : build_graph lower b uuid4 cs
                 = if build_semantic b
                   then _add_semantic_correlations lower
                          (similarity_threshold b) uuid4 g1 cs
                   else g1) by reflexivity.
    assert (H1 : exists adj,
               cg_edges g1 = adj
               /\ map edge_view adj
                  = (if build_adjacent b
                     then map adjacent_view (consecutive (sorted_by_index cs))
                     else [])).
    { unfold g1. destruct (build_adjacent b).
      - destruct (adjacent_loop_edges (sorted_by_index cs) g0)
          as (adj & Ha & Hv).
        exists adj. split; [exact Ha|exact Hv].
      - exists []. split; reflexivity. }
    destruct H1 as (adj & Ha & Hv). exists adj. rewrite Hg.
    destruct (build_semantic b).
    + destruct (semantic_outer_edges (similarity_threshold b)
                  (enumerate cs) (enumerate cs) g1) as (sem & Hs & Hsv).
      exists sem. split; [|split; [exact Hv|]].
      * unfold _add_semantic_correlations. rewrite Hs, Ha. reflexivity.
      * rewrite Hsv, semantic_pairs_eq. reflexivity.
    + exists []. rewrite app_nil_r. repeat split; assumption.
Qed.

End Graph.

Lemma In_enumerate_from {A : Type} (l : list A) (k i : nat) (a : A) :
  In (i, a) (combine (seq k (length l)) l)
  <-> (k <= i)%nat /\ nth_error l (i - k) = Some a.
Proof.
  revert k. induction l as [|x l IH]; intros k; simpl.
  - split; [tauto|]. intros [_ H]. now destruct (i - k)%nat.
  - rewrite IH. split.
    + intros [H|[Hle Hn]].
      * inversion H; subst. rewrite Nat.sub_diag. split; [lia|reflexivity].
      * split; [lia|]. replace (i - k)%nat with (S (i - S k)) by lia.
        exact Hn.
    + intros [Hle Hn]. destruct (Nat.eq_dec i k) as [->|Hne].
      * left. rewrite Nat.sub_diag in Hn. simpl in Hn. congruence.
      * right. split; [lia|].
        replace (i - k)%nat with (S (i - S k)) in Hn by lia. exact Hn.
Qed.

Lemma In_enumerate {A : Type} (l : list A) (i : nat) (a : A) :
  In (i, a) (enumerate l) <-> nth_error l i = Some a.
Proof.
  unfold enumerate. rewrite In_enumerate_from, Nat.sub_0_r.
  split; [tauto|]. intros H. split; [lia|exact H].
Qed.

(** [semantic_pairs] lists exactly the pairs of chunks at positions [i < j]
    whose [chunk_index] values differ by more than 1. *)
Lemma semantic_pairs_spec (chunks : list TextChunk) (a b : TextChunk) :
  In (a, b) (semantic_pairs chunks)
  <-> exists i j, (i < j)%nat
                  /\ nth_error chunks i = Some a
                  /\ nth_error chunks j = Some b
                  /\ Z.abs (tc_chunk_index a - tc_chunk_index b) > 1.
Proof.
  unfold semantic_pairs. rewrite in_flat_map. split.
  - intros ([i a'] & Hi & Hin). rewrite in_flat_map in Hin.
    destruct Hin as ([j b'] & Hj & Hin). cbn [fst snd] in Hin.
    destruct (Nat.ltb_spec i j) as [Hlt|]; [|destruct Hin].
    destruct (Z.gtb_spec (Z.abs (tc_chunk_index a' - tc_chunk_index b')) 1)
      as [Hgt|]; [|destruct Hin].
    destruct Hin as [Heq|[]]. inversion Heq; subst.
    exists i, j. apply In_enumerate in Hi, Hj. repeat split; auto; lia.
  - intros (i & j & Hlt & Hi & Hj & Hgt).
    exists (i, a). split; [now apply In_enumerate|].
    rewrite in_flat_map. exists (j, b). split; [now apply In_enumerate|].
    cbn [fst snd].
    destruct (Nat.ltb_spec i j) as [_|]; [|lia].
    destruct (Z.gtb_spec (Z.abs (tc_chunk_index a - tc_chunk_index b)) 1)
      as [_|]; [|lia].
    now left.
Qed.

Lemma str_eqb_eq (a b : str) : PyStr.eqb a b = true <-> a = b.
Proof.
  unfold PyStr.eqb. destruct (list_eq_dec N.eq_dec a b); split; congruence.
Qed.

Lemma str_in_In (w : str) (l : list str) : str_in w l = true <-> In w l.
Proof.
  unfold str_in. rewrite existsb_exists. split.
  - intros (x & Hx & He). apply str_eqb_eq in He. now subst.
  - intros H. exists w. split; [exact H|now apply str_eqb_eq].
Qed.

(** The similarity computed by the semantic pass is the Jaccard index of the
    two word sets: the size of their intersection over the size of their
    union, and [0] when the union is empty. *)
Lemma similarity_of_jaccard (A B : list str) :
  NoDup A -> NoDup B ->
  exists I U,
    NoDup I /\ NoDup U
    /\ (forall w, In w I <-> In w A /\ In w B)
    /\ (forall w, In w U <-> In w A \/ In w B)
    /\ similarity_of A B
       = match U with
         | [] => 0%float
         | _ => true_div (Z.of_nat (length I)) (Z.of_nat (length U))
         end.
Proof.
  intros HA HB.
  exists (filter (fun w => str_in w B) A),
         (A ++ filter (fun w => negb (str_in w A)) B).
  split; [now apply NoDup_filter|]. split.
  { apply NoDup_app; [exact HA|now apply NoDup_filter|].
    intros w Hw Hf. apply filter_In in Hf. destruct Hf as [_ Hf].
    apply str_in_In in Hw. now rewrite Hw in Hf. }
  split.
  { intros w. rewrite filter_In, str_in_In. tauto. }
  split.
  { intros w. rewrite in_app_iff, filter_In. split.
    - tauto.
    - intros [H|H]; [now left|].
      destruct (str_in w A) eqn:E.
      + left. now apply str_in_In.
      + right. split; [exact H|reflexivity]. }
  unfold similarity_of, intersection_size, union_size.
  destruct (A ++ filter (fun w => negb (str_in w A)) B) as [|u U] eqn:EU.
  - reflexivity.
  - destruct (Z.gtb_spec (Z.of_nat (length (u :: U))) 0) as [_|Hle];
      [reflexivity|]. simpl in Hle. lia.
Qed.

(** C8: with [build_adjacent] set, the [adjacent] edges of [build_graph] over
    [n] chunks are exactly one edge for each consecutive pair of the chunks
    sorted by [chunk_index], in that order, each with weight [1.0] and
    metadata [{"distance": 1}]; there are [max(n - 1, 0)] of them. *)
Theorem C8_adjacent_edges :
  forall (lower : str -> str) (b : CorrelationBuilder) (uuid4 : nat -> UUID)
         (chunks : list TextChunk),
    build_adjacent b = true ->
    let g := build_graph lower b uuid4 chunks in
    let adj := filter (is_type ADJACENT) (cg_edges g) in
    Z.of_nat (length adj) = Z.max (Z.of_nat (length chunks) - 1) 0
    /\ map edge_view adj
       = map adjacent_view (consecutive (sorted_by_index chunks))
    /\ Forall (fun e => cc_weight e = 1%float
                        /\ cc_metadata e = [("distance"%string, MInt 1)]) adj
    /\ Permutation chunks (sorted_by_index chunks)
    /\ StronglySorted index_le (sorted_by_index chunks).
Proof.
  intros lower b uuid4 chunks Hb g adj.
  destruct (build_graph_edges lower uuid4 b chunks) as (a & s & He & Ha & Hs).
  rewrite Hb in Ha.
  assert (Hta : Forall (fun e => cc_correlation_type e = ADJACENT) a)
    by (eapply view_types; [exact Ha|reflexivity]).
  assert (Hts : Forall (fun e => cc_correlation_type e = SEMANTIC) s).
  { destruct (build_semantic b).
    - eapply view_types; [exact Hs|reflexivity].
    - destruct s; [constructor|discriminate]. }
  assert (Hadj : adj = a).
  { unfold adj, g. rewrite He, filter_app, (filter_keep _ _ Hta),
      (filter_drop ADJACENT SEMANTIC s) by (discriminate || assumption).
    apply app_nil_r. }
  rewrite Hadj. split; [|split; [exact Ha|split; [|split]]].
  - rewrite <- (length_map edge_view), Ha, length_map, consecutive_length,
      <- (Permutation_length (sorted_by_index_perm chunks)). lia.
  - clear - Ha. revert Ha.
    generalize (consecutive (sorted_by_index chunks)). intros l.
    revert l. induction a as [|e r IH]; intros l Hl; [constructor|].
    destruct l as [|p l]; [discriminate|]. simpl in Hl.
    unfold edge_view at 1, adjacent_view at 1 in Hl.
    injection Hl as H1 H2 H3 H4 H5 Hr. constructor; [now split|].
    now apply (IH l).
  - apply sorted_by_index_perm.
  - apply sorted_by_index_sorted.
Qed.

Lemma C8_adjacent_edges_witness :
  let chunks := [sample_chunk 12%N 2 "gamma"; sample_chunk 10%N 0 "alpha";
                 sample_chunk 11%N 1 "beta"] in
  map edge_view
      (filter (is_type ADJACENT)
         (cg_edges (build_graph ascii_lower
                      (mkCorrelationBuilder 0.5%float true false)
                      N.of_nat chunks)))
  = map adjacent_view (consecutive (sorted_by_index chunks)).
Proof.
  intros chunks.
  exact (proj1 (proj2 (C8_adjacent_edges ascii_lower
                         (mkCorrelationBuilder 0.5%float true false)
                         N.of_nat chunks eq_refl))).
Defined.

(** C7: with [build_semantic] set, the [semantic] edges of [build_graph] are,
    in order, one edge for each pair of chunks at list positions [i < j]
    whose [chunk_index] values differ by more than 1 and whose similarity is
    greater than or equal to [similarity_threshold]; the edge goes from the
    first chunk to the second and its weight is that similarity.  The
    similarity is the Jaccard index of the sets of lower-cased,
    whitespace-separated words of the two texts, and [0] when both sets are
    empty. *)
Theorem C7_semantic_edges :
  forall (lower : str -> str) (b : CorrelationBuilder) (uuid4 : nat -> UUID)
         (chunks : list TextChunk),
    build_semantic b = true ->
    let g := build_graph lower b uuid4 chunks in
    map edge_view (filter (is_type SEMANTIC) (cg_edges g))
    = map (semantic_view lower)
          (filter (fun p => PrimFloat.leb (similarity_threshold b)
                                          (jaccard lower p))
                  (semantic_pairs chunks))
    /\ (forall x y,
          In (x, y) (semantic_pairs chunks)
          <-> exists i j, (i < j)%nat
                          /\ nth_error chunks i = Some x
                          /\ nth_error chunks j = Some y
                          /\ Z.abs (tc_chunk_index x - tc_chunk_index y) > 1)
    /\ (forall p,
          let A := word_set lower (tc_text (fst p)) in
          let B := word_set lower (tc_text (snd p)) in
          (forall w, In w A <-> In w (split_ws (lower (tc_text (fst p)))))
          /\ (forall w, In w B <-> In w (split_ws (lower (tc_text (snd p)))))
          /\ exists I U,
               NoDup I /\ NoDup U
               /\ (forall w, In w I <-> In w A /\ In w B)
               /\ (forall w, In w U <-> In w A \/ In w B)
               /\ jaccard lower p
                  = match U with
                    | [] => 0%float
                    | _ => true_div (Z.of_nat (length I))
                                    (Z.of_nat (length U))
                    end).
Proof.
  intros lower b uuid4 chunks Hb g.
  split; [|split].
  - destruct (build_graph_edges lower uuid4 b chunks)
      as (a & s & He & Ha & Hs).
    rewrite Hb in Hs.
    assert (Hts : Forall (fun e => cc_correlation_type e = SEMANTIC) s)
      by (eapply view_types; [exact Hs|reflexivity]).
    assert (Hta : Forall (fun e => cc_correlation_type e = ADJACENT) a).
    { destruct (build_adjacent b).
      - eapply view_types; [exact Ha|reflexivity].
      - destruct a; [constructor|discriminate]. }
    unfold g. rewrite He, filter_app, (filter_keep _ _ Hts),
      (filter_drop SEMANTIC ADJACENT a) by (discriminate || assumption).
    exact Hs.
  - intros x y. apply semantic_pairs_spec.
  - intros p A B.
    split; [intros w; apply nodup_In|].
    split; [intros w; apply nodup_In|].
    apply similarity_of_jaccard; apply NoDup_nodup.
Qed.

Lemma C7_semantic_edges_witness :
  let chunks := [sample_chunk 10%N 0 "the cat sat"; sample_chunk 11%N 1 "a dog";
                 sample_chunk 12%N 2 "The CAT sat"] in
  map edge_view
      (filter (is_type SEMANTIC)
         (cg_edges (build_graph ascii_lower
                      (mkCorrelationBuilder 0.5%float true true)
                      N.of_nat chunks)))
  = [(10%N, 12%N, SEMANTIC, 1%float,
      [("similarity_score"%string, MFloat 1%float)])].
Proof.
  intros chunks.
  rewrite (proj1 (C7_semantic_edges ascii_lower
                    (mkCorrelationBuilder 0.5%float true true)
                    N.of_nat chunks eq_refl)).
  vm_compute. reflexivity.
Defined.

(* ================================================================= *)
(** ** Import orchestrator *)

Lemma chunkers_get_app_new (d : list (Language * Chunker)) (l : Language)
  (c : Chunker) :
  chunkers_get d l = None -> chunkers_get (d ++ [(l, c)]) l = Some c.
Proof.
  induction d as [|[k v] d IH]; simpl; intros H.
  - now rewrite Language_eqb_refl.
  - destruct (Language_eqb k l); [discriminate|auto].
Qed.

Section ImporterProperties.

Variable fs : FileSystem.
Variable unstructured : option Partition.
Variable langdetect : option LangDetect.
Variable parse_uuid : string -> option UUID.
Variable fugashi : option Tagger.
Variable lower : str -> str.

Lemma import_document_missing (imp : DocumentImporter) (fuel : nat)
  (clock : Clock) (uuid4 : nat -> UUID) (file_path : Path)
  (override : option ImportConfig) :
  fs file_path = None ->
  exists msg,
    import_document fs unstructured langdetect parse_uuid fugashi lower imp
                    fuel clock uuid4 file_path override
    = (Raise (FileNotFoundError msg), imp).
Proof.
  intros Hfs. unfold import_document, _create_document_metadata.
  rewrite Hfs. eexists. reflexivity.
Qed.

(** How [import_document] ends on an existing path, by the ending of its
    [try] block. *)
Lemma import_document_existing (imp : DocumentImporter) (fuel : nat)
  (clock : Clock) (uuid4 : nat -> UUID) (file_path : Path)
  (override : option ImportConfig) (st : FileStat) :
  fs file_path = Some st ->
  let cfg := match override with Some c => c | None => config imp end in
  let elapsed := PrimFloat.sub (end_time clock) (start_time clock) in
  forall r imp' ending,
    import_try fs unstructured langdetect parse_uuid fugashi lower imp fuel
               uuid4 cfg file_path (initial_result clock uuid4 file_path st)
    = (r, imp', ending) ->
    import_document fs unstructured langdetect parse_uuid fugashi lower imp
                    fuel clock uuid4 file_path override
    = (match ending with
       | Ok _ => Ok (set_time r elapsed)
       | Raise e => Ok (set_time (on_exception r e) elapsed)
       | OutOfFuel => OutOfFuel
       end, imp').
Proof.
  intros Hfs cfg elapsed r imp' ending Htry.
  unfold import_document, _create_document_metadata. rewrite Hfs.
  fold cfg. unfold initial_result in Htry. rewrite Htry.
  now destruct ending.
Qed.

Lemma import_try_parse_raises (imp : DocumentImporter) (fuel : nat)
  (uuid4 : nat -> UUID) (cfg : ImportConfig) (file_path : Path)
  (result : ImportResult) (e : exn) :
  parse_async fs unstructured (parser imp) file_path = Raise e ->
  import_try fs unstructured langdetect parse_uuid fugashi lower imp fuel
             uuid4 cfg file_path result
  = (result, imp, Raise e).
Proof. intros H. unfold import_try. now rewrite H. Qed.

(** The configuration reaches the [try] block only through the four fields
    that select the language and the correlation graph. *)
Lemma import_try_sizes (imp : DocumentImporter) (fuel : nat)
  (uuid4 : nat -> UUID) (cfg1 cfg2 : ImportConfig) (file_path : Path)
  (result : ImportResult) :
  same_but_sizes cfg1 cfg2 ->
  import_try fs unstructured langdetect parse_uuid fugashi lower imp fuel
             uuid4 cfg1 file_path result
  = import_try fs unstructured langdetect parse_uuid fugashi lower imp fuel
               uuid4 cfg2 file_path result.
Proof.
  intros (H1 & H2 & H3 & H4 & _). unfold import_try.
  now rewrite H1, H2, H3, H4.
Qed.

Lemma _get_chunker_again (imp : DocumentImporter) (language : Language) :
  _get_chunker (snd (_get_chunker imp language)) language
  = (fst (_get_chunker imp language), snd (_get_chunker imp language)).
Proof.
  unfold _get_chunker.
  destruct (chunkers_get (_chunkers imp) language) as [c|] eqn:E; simpl.
  - now rewrite E.
  - now rewrite (chunkers_get_app_new _ _ _ E).
Qed.

Lemma _get_chunker_fields (imp : DocumentImporter) (language : Language) :
  parser (snd (_get_chunker imp language)) = parser imp
  /\ normalizer (snd (_get_chunker imp language)) = normalizer imp
  /\ config (snd (_get_chunker imp language)) = config imp.
Proof.
  unfold _get_chunker.
  destruct (chunkers_get (_chunkers imp) language); simpl; auto.
Qed.

(** Running the [try] block again from the importer that a first run leaves
    gives the same result: the chunker is then read from the cache. *)
Lemma import_try_again (imp : DocumentImporter) (fuel : nat)
  (uuid4 : nat -> UUID) (cfg : ImportConfig) (file_path : Path)
  (result : ImportResult) :
  import_try fs unstructured langdetect parse_uuid fugashi lower
    (snd (fst (import_try fs unstructured langdetect parse_uuid fugashi lower
                 imp fuel uuid4 cfg file_path result)))
    fuel uuid4 cfg file_path result
  = import_try fs unstructured langdetect parse_uuid fugashi lower imp fuel
               uuid4 cfg file_path result.
Proof.
  unfold import_try at 2 3.
  destruct (parse_async fs unstructured (parser imp) file_path)
    as [raw| |] eqn:Ep; cbn [fst snd].
  - set (elements := normalize_all langdetect parse_uuid (normalizer imp)
                       (fun k => uuid4 (1 + k)%nat) raw).
    set (language := if auto_detect_language cfg
                     then detect_document_language (normalizer imp) elements
                     else default_language cfg).
    destruct (_get_chunker_fields imp language) as (Hp & Hn & Hc).
    pose proof (_get_chunker_again imp language) as Hg.
    destruct (_get_chunker imp language) as [chunker imp'] eqn:Eg.
    cbn [fst snd ir_id] in *.
    destruct (chunk_elements fugashi chunker fuel
                (fun k => uuid4 (1 + length elements + k)%nat) elements
                (ir_id result)) eqn:Ec; cbn [fst snd];
      unfold import_try; rewrite Hp, Ep, Hn; fold elements; fold language;
      rewrite Hg; cbn [ir_id]; rewrite Ec; reflexivity.
  - unfold import_try. now rewrite Ep.
  - unfold import_try. now rewrite Ep.
Qed.

End ImporterProperties.

(** C1, as the code has it: on a missing path [import_document] raises
    [FileNotFoundError] and leaves the importer as it was; on an existing
    path it never raises: whenever the parser raises (an unsupported
    extension, a path that is not a file, a missing backend, a parse failure)
    or a later stage raises, the call returns a result whose status is
    ["error"] and whose error list holds the text of the exception. *)
Theorem C1_import_document_failures :
  forall (fs : FileSystem) (unstructured : option Partition)
         (langdetect : option LangDetect)
         (parse_uuid : string -> option UUID) (fugashi : option Tagger)
         (lower : str -> str) (imp : DocumentImporter) (fuel : nat)
         (clock : Clock) (uuid4 : nat -> UUID) (file_path : Path)
         (override : option ImportConfig),
    let run := import_document fs unstructured langdetect parse_uuid fugashi
                               lower imp fuel clock uuid4 file_path override in
    let cfg := match override with Some c => c | None => config imp end in
    (fs file_path = None ->
     exists msg, run = (Raise (FileNotFoundError msg), imp))
    /\ (forall st, fs file_path = Some st ->
          (forall e, fst run <> Raise e)
          /\ (forall e,
                parse_async fs unstructured (parser imp) file_path = Raise e ->
                exists r, fst run = Ok r /\ ir_status r = "error"%string
                          /\ ir_errors r = [exn_str e])
          /\ (forall r0 imp' e,
                import_try fs unstructured langdetect parse_uuid fugashi lower
                           imp fuel uuid4 cfg file_path
                           (initial_result clock uuid4 file_path st)
                = (r0, imp', Raise e) ->
                exists r, fst run = Ok r /\ ir_status r = "error"%string
                          /\ ir_errors r = ir_errors r0 ++ [exn_str e])
          /\ (string_in (path_suffix_lower file_path) SUPPORTED_FORMATS = false ->
              fs_is_file st = true ->
              exists r, fst run = Ok r /\ ir_status r = "error"%string
                        /\ ir_errors r
                           = [exn_str (UnsupportedFormatError
                                         (path_suffix_lower file_path))])).
Proof.
  intros fs unstructured langdetect parse_uuid fugashi lower imp fuel clock
         uuid4 file_path override run cfg.
  split; [apply import_document_missing|].
  intros st Hfs.
  destruct (import_try fs unstructured langdetect parse_uuid fugashi lower
              imp fuel uuid4 cfg file_path
              (initial_result clock uuid4 file_path st))
    as [[r0 imp'] ending] eqn:Htry.
  pose proof (import_document_existing fs unstructured langdetect parse_uuid
                fugashi lower imp fuel clock uuid4 file_path override st Hfs
                r0 imp' ending Htry) as Hrun.
  fold run in Hrun.
  assert (Hparse : forall e,
             parse_async fs unstructured (parser imp) file_path = Raise e ->
             exists r, fst run = Ok r /\ ir_status r = "error"%string
                       /\ ir_errors r = [exn_str e]).
  { intros e He.
    rewrite (import_try_parse_raises fs unstructured langdetect parse_uuid
               fugashi lower imp fuel uuid4 cfg file_path _ e He) in Htry.
    inversion Htry; subst. rewrite Hrun. simpl.
    eexists. split; [reflexivity|]. split; reflexivity. }
  split; [|split; [exact Hparse|split]].
  - intros e. rewrite Hrun. simpl. destruct ending; discriminate.
  - intros r1 imp1 e He. inversion He; subst. rewrite Hrun. simpl.
    eexists. split; [reflexivity|]. split; reflexivity.
  - intros Hsuf Hfile. apply Hparse.
    unfold parse_async, parse. now rewrite Hfs, Hfile, Hsuf.
Qed.

(** C1, counterexample: an existing file with an unsupported extension does
    not make [import_document] raise; the call returns a result with status
    ["error"]. *)
Lemma C1_unsupported_extension_is_captured :
  sample_fs sample_xyz <> None
  /\ is_supported sample_xyz = false
  /\ parse sample_fs (Some sample_partition) (parser sample_importer)
           sample_xyz
     = Raise (UnsupportedFormatError ".xyz")
  /\ exists r,
       fst (import_document sample_fs (Some sample_partition) None
              (fun _ => None) None ascii_lower sample_importer 0 sample_clock
              N.of_nat sample_xyz None)
       = Ok r
       /\ ir_status r = "error"%string
       /\ ir_errors r
          = ["Unsupported format: .xyz. Supported formats: .docx, .htm, .html, .md, .pdf, .pptx, .txt"%string].
Proof.
  split; [discriminate|]. split; [reflexivity|]. split; [reflexivity|].
  eexists. split; [vm_compute; reflexivity|]. split; reflexivity.
Qed.

Lemma C1_import_document_failures_witness :
  (exists msg,
     import_document sample_fs (Some sample_partition) None (fun _ => None)
       None ascii_lower sample_importer 0 sample_clock N.of_nat
       (mkPath "/nonexistent/file.txt" "file.txt" ".txt") None
     = (Raise (FileNotFoundError msg), sample_importer))
  /\ (forall e,
        fst (import_document sample_fs (Some sample_partition) None
               (fun _ => None) None ascii_lower sample_importer 0 sample_clock
               N.of_nat sample_xyz None) <> Raise e).
Proof.
  split.
  - apply (proj1 (C1_import_document_failures sample_fs
                    (Some sample_partition) None (fun _ => None) None
                    ascii_lower sample_importer 0 sample_clock N.of_nat
                    (mkPath "/nonexistent/file.txt" "file.txt" ".txt") None)).
    reflexivity.
  - apply (proj2 (C1_import_document_failures sample_fs
                    (Some sample_partition) None (fun _ => None) None
                    ascii_lower sample_importer 0 sample_clock N.of_nat
                    sample_xyz None) (mkFileStat true 25)).
    reflexivity.
Defined.

(* ================================================================= *)
(** ** The fixed-size fallback loops *)

Lemma _chunk_by_size_loop_step (fuel : nat) (chunk_size chunk_overlap : Z)
  (text : str) (start : Z) (chunks : list str) :
  start < len text ->
  Default._chunk_by_size_loop (S fuel) chunk_size chunk_overlap text start
                              chunks
  = Default._chunk_by_size_loop fuel chunk_size chunk_overlap text
      (size_next chunk_size chunk_overlap text start)
      (chunks ++ [strip (slice text start (size_end chunk_size text start))]).
Proof.
  intros H. cbn [Default._chunk_by_size_loop].
  destruct (Z.ltb_spec start (len text)) as [_|]; [|lia].
  reflexivity.
Qed.

Lemma _chunk_by_size_loop_out (chunk_size chunk_overlap : Z) (text : str)
  (start : Z) (chunks : list str) :
  start < len text ->
  Default._chunk_by_size_loop O chunk_size chunk_overlap text start chunks
  = OutOfFuel.
Proof.
  intros H. cbn [Default._chunk_by_size_loop].
  destruct (Z.ltb_spec start (len text)) as [_|]; [reflexivity|lia].
Qed.

(** A start position that the loop body maps to itself is never left. *)
Lemma _chunk_by_size_loop_fixpoint (chunk_size chunk_overlap : Z) (text : str)
  (start : Z) :
  start < len text ->
  size_next chunk_size chunk_overlap text start = start ->
  forall fuel chunks,
    Default._chunk_by_size_loop fuel chunk_size chunk_overlap text start chunks
    = OutOfFuel.
Proof.
  intros Hlt Hfix. induction fuel as [|fuel IH]; intros chunks.
  - now apply _chunk_by_size_loop_out.
  - rewrite _chunk_by_size_loop_step by exact Hlt. rewrite Hfix. apply IH.
Qed.

Lemma default_chunk_text_fallback (fuel : nat) (chunk_size chunk_overlap : Z)
  (text : str) :
  text <> [] -> Default._split_sentences text = [] ->
  Default.chunk_text fuel chunk_size chunk_overlap text
  = Default._chunk_by_size fuel chunk_size chunk_overlap text.
Proof.
  intros Hne Hs. unfold Default.chunk_text.
  destruct text; [congruence|]. now rewrite Hs.
Qed.

Lemma _chunk_by_chars_loop_step (fuel : nat) (chunk_size chunk_overlap : Z)
  (text : str) (start : Z) (chunks : list str) :
  start < len text ->
  Japanese._chunk_by_chars_loop (S fuel) chunk_size chunk_overlap text start
                                chunks
  = Japanese._chunk_by_chars_loop fuel chunk_size chunk_overlap text
      (chars_next chunk_size chunk_overlap text start)
      (chunks
       ++ [slice text start (Z.min (start + chunk_size) (len text))]).
Proof.
  intros H. cbn [Japanese._chunk_by_chars_loop].
  destruct (Z.ltb_spec start (len text)) as [_|]; [|lia].
  reflexivity.
Qed.

(** With a positive overlap smaller than the chunk size, the character loop
    never gets past a text that is longer than the overlap: after the chunk
    that ends at the end of the text, [start] goes back by [chunk_overlap]. *)
Lemma _chunk_by_chars_loop_diverges (chunk_size chunk_overlap : Z)
  (text : str) :
  0 < chunk_overlap < chunk_size -> chunk_overlap < len text ->
  forall fuel start chunks,
    start < len text ->
    Japanese._chunk_by_chars_loop fuel chunk_size chunk_overlap text start
                                  chunks
    = OutOfFuel.
Proof.
  intros Hco Hlen. induction fuel as [|fuel IH]; intros start chunks Hlt.
  - cbn [Japanese._chunk_by_chars_loop].
    destruct (Z.ltb_spec start (len text)) as [_|]; [reflexivity|lia].
  - rewrite _chunk_by_chars_loop_step by exact Hlt. apply IH.
    unfold chars_next.
    destruct (Z.leb_spec
                (Z.min (start + chunk_size) (len text) - chunk_overlap) 0);
      lia.
Qed.

Lemma japanese_chunk_text_fallback (fugashi : option Tagger) (fuel : nat)
  (chunk_size chunk_overlap : Z) (text : str) :
  text <> [] -> Japanese._split_sentences text = [] ->
  Japanese.chunk_text fugashi fuel chunk_size chunk_overlap text
  = Japanese._chunk_by_morphemes fugashi fuel chunk_size chunk_overlap text.
Proof.
  intros Hne Hs. unfold Japanese.chunk_text.
  destruct text; [congruence|]. now rewrite Hs.
Qed.

(** C3, the code at two failing inputs: with [chunk_size = 100] and
    [chunk_overlap = 50] the sentence-boundary chunker never returns on the
    whitespace-only text of 60 tabs, a space and 200 tabs; with the default
    [chunk_size = 1000] and [chunk_overlap = 100] the morphology-aware
    chunker without its backend never returns on a text of 101 spaces.  Both
    size pairs satisfy [0 <= chunk_overlap < chunk_size]. *)
Theorem C3_fallback_loops_do_not_terminate :
  (0 <= 50 < 100 /\ 0 <= 100 < 1000)
  /\ (forall fugashi fuel,
        chunk_text fugashi (DefaultChunker ENGLISH 100 50) fuel
                   tabs_space_tabs = OutOfFuel)
  /\ (forall fuel,
        chunk_text None (JapaneseChunker 1000 100) fuel spaces_101
        = OutOfFuel).
Proof.
  split; [lia|]. split.
  - intros fugashi fuel. unfold chunk_text.
    rewrite default_chunk_text_fallback
      by (discriminate || (vm_compute; reflexivity)).
    unfold Default._chunk_by_size. destruct fuel as [|fuel].
    + apply _chunk_by_size_loop_out. vm_compute. reflexivity.
    + rewrite _chunk_by_size_loop_step by (vm_compute; reflexivity).
      replace (size_next 100 50 tabs_space_tabs 0) with 10
        by (vm_compute; reflexivity).
      apply _chunk_by_size_loop_fixpoint; vm_compute; reflexivity.
  - intros fuel. unfold chunk_text.
    rewrite japanese_chunk_text_fallback
      by (discriminate || (vm_compute; reflexivity)).
    unfold Japanese._chunk_by_morphemes.
    apply _chunk_by_chars_loop_diverges; try lia; vm_compute; reflexivity.
Qed.

(* ================================================================= *)
(** ** Offsets recorded by [chunk_elements] *)

Lemma prefix_b_firstn (p s : str) :
  prefix_b p s = true -> firstn (length p) s = p.
Proof.
  revert s. induction p as [|a p IH]; intros s H; [reflexivity|].
  destruct s as [|b s]; [discriminate|]. simpl in H.
  apply andb_prop in H. destruct H as [Hab Hp].
  apply N.eqb_eq in Hab. subst b. simpl. now rewrite IH.
Qed.

Lemma prefix_b_length (p s : str) :
  prefix_b p s = true -> (length p <= length s)%nat.
Proof.
  revert s. induction p as [|a p IH]; intros s H; simpl; [lia|].
  destruct s as [|b s]; [discriminate|]. simpl in H.
  apply andb_prop in H. destruct H as [_ Hp]. apply IH in Hp. simpl. lia.
Qed.

Lemma find_from_found (sub s : str) (i r : Z) :
  find_from sub s i = r -> 0 <= i -> r <> -1 ->
  exists k, r = i + Z.of_nat k /\ (k <= length s)%nat
            /\ prefix_b sub (skipn k s) = true.
Proof.
  revert i. induction s as [|c s IH]; intros i Hf Hi Hr; simpl in Hf.
  - destruct (prefix_b sub []) eqn:E; [|congruence].
    exists O. simpl. repeat split; [lia|lia|exact E].
  - destruct (prefix_b sub (c :: s)) eqn:E.
    + exists O. simpl. repeat split; [lia|lia|exact E].
    + destruct (IH (i + 1) Hf ltac:(lia) Hr) as (k & Hk & Hle & Hp).
      exists (S k). simpl. repeat split; [lia|lia|exact Hp].
Qed.

Lemma find_from_lower (sub s : str) (i : Z) :
  0 <= i -> find_from sub s i = -1 \/ i <= find_from sub s i.
Proof.
  intros Hi.
  destruct (Z.eq_dec (find_from sub s i) (-1)) as [E|E]; [now left|right].
  destruct (find_from_found sub s i _ eq_refl Hi E) as (k & Hk & _). lia.
Qed.

(** A successful [find] reports an offset at which the needle reads back. *)
Lemma find_found (s sub : str) (start r : Z) :
  find s sub start = r -> 0 <= start -> r <> -1 ->
  start <= r /\ slice s r (r + len sub) = sub.
Proof.
  unfold find. intros Hf Hs Hr.
  destruct (Z.ltb_spec start 0) as [|_]; [lia|].
  destruct (Z.ltb_spec (len s) start) as [|Hle]; [congruence|].
  destruct (find_from_found sub _ start r Hf Hs Hr) as (k & Hk & Hlen & Hp).
  split; [lia|].
  rewrite skipn_skipn in Hp.
  pose proof (prefix_b_length _ _ Hp) as Hpl.
  rewrite length_skipn in Hlen, Hpl.
  assert (Hrn : Z.to_nat r = (k + Z.to_nat start)%nat) by lia.
  unfold slice, norm_index, len in *.
  destruct (Z.ltb_spec r 0) as [|_]; [lia|].
  destruct (Z.ltb_spec (r + Z.of_nat (length sub)) 0) as [|_]; [lia|].
  rewrite (Z.min_l r) by lia.
  rewrite (Z.min_l (r + Z.of_nat (length sub))) by lia.
  replace (Z.to_nat (r + Z.of_nat (length sub) - r)) with (length sub) by lia.
  rewrite Hrn. now apply prefix_b_firstn.
Qed.

(* ================================================================= *)
(** ** Token counts of emitted chunks *)

Lemma fold_left_inv {S A : Type} (inv : S -> Prop) (P : A -> Prop)
  (f : S -> A -> S) (l : list A) (s : S) :
  (forall st x, inv st -> P x -> inv (f st x)) ->
  Forall P l -> inv s -> inv (fold_left f l s).
Proof.
  intros Hstep Hall. revert s.
  induction Hall as [|x r Hx _ IH]; intros s Hs; simpl; [exact Hs|].
  apply IH. now apply Hstep.
Qed.

Lemma nonempty_strip (s : str) : Default.nonempty (strip s) = has_ink s.
Proof.
  destruct (has_ink s) eqn:E.
  - destruct (strip s) eqn:Es; [|reflexivity].
    apply strip_nil_iff in Es. congruence.
  - apply strip_nil_iff in E. now rewrite E.
Qed.

Lemma inked_strip (s : str) : inked s -> inked (strip s).
Proof. unfold inked. now rewrite has_ink_strip. Qed.

Module DefaultFacts.

Lemma re_split_ink (t cur : str) (in_sep after_punct : bool) :
  has_ink cur = true \/ has_ink t = true ->
  Exists inked (Default.re_split in_sep after_punct cur t).
Proof.
  revert cur in_sep after_punct.
  induction t as [|c t IH]; intros cur in_sep after_punct H; simpl.
  - destruct H as [H|H]; [|discriminate].
    constructor. unfold inked. now rewrite has_ink_rev.
  - simpl in H. destruct (isspace c) eqn:Ec; simpl in H.
    + destruct in_sep; [apply IH; exact H|].
      destruct after_punct.
      * destruct (has_ink cur) eqn:Ecur.
        -- constructor. unfold inked. now rewrite has_ink_rev.
        -- apply Exists_cons_tl. apply IH. right.
           destruct H as [H|H]; [discriminate|exact H].
      * apply IH. simpl. rewrite Ec. exact H.
    + apply IH. left. simpl. now rewrite Ec.
Qed.

Lemma default_split_sentences_inked (text : str) :
  Forall inked (Default._split_sentences text).
Proof.
  unfold Default._split_sentences. destruct text as [|c t]; [constructor|].
  apply Forall_forall. intros s Hs. apply in_map_iff in Hs.
  destruct Hs as (p & <- & Hp). apply filter_In in Hp. destruct Hp as [_ Hp].
  rewrite nonempty_strip in Hp. now apply inked_strip.
Qed.

Lemma default_split_sentences_nonempty (text : str) :
  has_ink text = true -> Default._split_sentences text <> [].
Proof.
  intros H. unfold Default._split_sentences.
  destruct text as [|c t]; [discriminate|].
  pose proof (re_split_ink (c :: t) [] false false (or_intror H)) as Hex.
  apply Exists_exists in Hex. destruct Hex as (p & Hin & Hp).
  intros Hnil.
  assert (Hin' : In (strip p)
                    (map strip
                       (filter (fun s => Default.nonempty (strip s))
                          (Default.re_split false false [] (c :: t))))).
  { apply in_map. apply filter_In. split; [exact Hin|].
    now rewrite nonempty_strip. }
  rewrite Hnil in Hin'. destruct Hin'.
Qed.

Lemma overlap_loop_inked (co : Z) (rc : list str) (n : Z) (acc : list str) :
  Forall inked rc -> Forall inked acc ->
  Forall inked (fst (Default.overlap_loop co rc n acc)).
Proof.
  revert n acc. induction rc as [|s r IH]; intros n acc Hrc Hacc; simpl;
    [exact Hacc|].
  inversion Hrc; subst.
  destruct (n + len s <=? co); [|exact Hacc].
  apply IH; [assumption|now constructor].
Qed.

Lemma pack_step_inv (cs co : Z) (st : Default.pack_state) (s : str) :
  pack_inv st -> inked s -> pack_inv (Default.pack_step cs co st s).
Proof.
  destruct st as [[chunks cur] n]. unfold pack_inv. simpl.
  intros [Hc Hcur] Hs.
  assert (Hend : forall chunks' cur' (n' : Z),
             Forall inked chunks' -> Forall inked cur' ->
             Forall inked (fst (fst (chunks', cur' ++ [s], n' + len s)))
             /\ Forall inked (snd (fst (chunks', cur' ++ [s], n' + len s)))).
  { intros chunks' cur' n' H1 H2. simpl. split; [exact H1|].
    apply Forall_app. split; [exact H2|now constructor]. }
  destruct (n + len s >? cs); [|now apply Hend].
  destruct cur as [|x cur]; [now apply Hend|].
  assert (Hj : inked (join [32%N] (x :: cur))).
  { apply has_ink_join; [discriminate|exact Hcur]. }
  assert (Hc' : Forall inked (chunks ++ [join [32%N] (x :: cur)])).
  { apply Forall_app. split; [exact Hc|now constructor]. }
  destruct (co >? 0); [|now apply Hend].
  pose proof (overlap_loop_inked co (rev (x :: cur)) 0 []
                (Forall_rev Hcur) (Forall_nil _)) as Hov.
  destruct (Default.overlap_loop co (rev (x :: cur)) 0 []) as [ov ol].
  now apply Hend.
Qed.

(** On a text that is not blank, [chunk_text] takes the sentence path and
    returns chunks that are not blank. *)
Lemma default_chunk_text_inked (fuel : nat) (cs co : Z) (text : str) :
  has_ink text = true ->
  exists chunks,
    Default.chunk_text fuel cs co text = Ok chunks /\ Forall inked chunks.
Proof.
  intros H. unfold Default.chunk_text.
  destruct text as [|c t]; [discriminate|].
  pose proof (default_split_sentences_nonempty _ H) as Hne.
  pose proof (default_split_sentences_inked (c :: t)) as Hall.
  destruct (Default._split_sentences (c :: t)) as [|s ss]; [congruence|].
  pose proof (fold_left_inv pack_inv inked (Default.pack_step cs co)
                (s :: ss) ([], [], 0) (pack_step_inv cs co) Hall
                (conj (Forall_nil _) (Forall_nil _))) as Hinv.
  destruct (fold_left (Default.pack_step cs co) (s :: ss) ([], [], 0))
    as [[chunks cur] n].
  destruct Hinv as [Hc Hcur]. simpl in Hc, Hcur.
  destruct cur as [|x cur].
  - exists chunks. split; [reflexivity|exact Hc].
  - exists (chunks ++ [join [32%N] (x :: cur)]). split; [reflexivity|].
    apply Forall_app. split; [exact Hc|]. constructor; [|constructor].
    apply has_ink_join; [discriminate|exact Hcur].
Qed.

Lemma default_count_tokens_inked (t : str) : inked t -> 0 < Default.count_tokens t.
Proof.
  intros H. unfold Default.count_tokens.
  destruct t as [|c t]; [discriminate|].
  pose proof (split_ws_nonempty _ H) as Hne.
  destruct (split_ws (c :: t)); [congruence|]. simpl. lia.
Qed.

End DefaultFacts.

Module JapaneseFacts.

Arguments Japanese.mem : simpl never.

Lemma ending_not_space (c : char) :
  Japanese.mem c Japanese.SENTENCE_ENDINGS = true -> isspace c = false.
Proof.
  unfold Japanese.mem, Japanese.SENTENCE_ENDINGS. cbn [existsb].
  intros H. repeat (apply orb_prop in H; destruct H as [H|H]);
    try discriminate; apply N.eqb_eq in H; subst c; reflexivity.
Qed.

Lemma split_step_inv (st : list str * str) (c : char) :
  split_inv st -> split_inv (Japanese.split_step st c).
Proof.
  destruct st as [sentences current]. unfold split_inv, Japanese.split_step.
  simpl. intros H.
  destruct (Japanese.mem c Japanese.SENTENCE_ENDINGS); [|exact H].
  simpl. change Japanese.nonempty with Default.nonempty.
  rewrite nonempty_strip.
  destruct (has_ink (current ++ [c])) eqn:E; [|exact H].
  apply Forall_app. split; [exact H|].
  constructor; [now apply inked_strip|constructor].
Qed.

(** Ink that has been read is in a finished sentence or in the current
    one. *)
Lemma split_fold_ink (text : str) (st : list str * str) :
  fst st <> [] \/ has_ink (snd st) = true \/ has_ink text = true ->
  fst (fold_left Japanese.split_step text st) <> []
  \/ has_ink (snd (fold_left Japanese.split_step text st)) = true.
Proof.
  revert st. induction text as [|c t IH]; intros st H; cbn [fold_left].
  - destruct H as [H|[H|H]]; [now left|now right|discriminate].
  - apply IH. destruct st as [sentences current]. cbn [fst snd] in H.
    unfold Japanese.split_step.
    destruct (Japanese.mem c Japanese.SENTENCE_ENDINGS) eqn:Em; cbn [fst snd].
    + left. change Japanese.nonempty with Default.nonempty.
      rewrite nonempty_strip, has_ink_app. cbn [has_ink existsb].
      rewrite (ending_not_space c Em). cbn [negb orb]. rewrite orb_true_r.
      now destruct sentences.
    + destruct H as [H|[H|H]]; [now left| |].
      * right. left. rewrite has_ink_app, H. reflexivity.
      * cbn [has_ink existsb] in H. rewrite has_ink_app.
        cbn [has_ink existsb].
        destruct (isspace c); cbn [negb orb] in *.
        -- right. right. exact H.
        -- right. left. now rewrite orb_true_r.
Qed.

Lemma japanese_split_sentences_inked (text : str) :
  Forall inked (Japanese._split_sentences text).
Proof.
  unfold Japanese._split_sentences. destruct text as [|c t]; [constructor|].
  pose proof (fold_left_inv split_inv (fun _ => True) Japanese.split_step
                (c :: t) ([], [])
                (fun st x H _ => split_step_inv st x H)
                ltac:(apply Forall_forall; intros; exact I)
                (Forall_nil _)) as Hinv.
  destruct (fold_left Japanese.split_step (c :: t) ([], []))
    as [sentences current].
  unfold split_inv in Hinv. simpl in Hinv.
  change Japanese.nonempty with Default.nonempty. rewrite nonempty_strip.
  destruct (has_ink current) eqn:E; [|exact Hinv].
  apply Forall_app. split; [exact Hinv|].
  constructor; [now apply inked_strip|constructor].
Qed.

Lemma japanese_split_sentences_nonempty (text : str) :
  has_ink text = true -> Japanese._split_sentences text <> [].
Proof.
  intros H. unfold Japanese._split_sentences.
  destruct text as [|c t]; [discriminate|].
  pose proof (split_fold_ink (c :: t) ([], []) (or_intror (or_intror H)))
    as Hink.
  destruct (fold_left Japanese.split_step (c :: t) ([], []))
    as [sentences current].
  simpl in Hink. change Japanese.nonempty with Default.nonempty.
  rewrite nonempty_strip.
  destruct Hink as [Hs|Hc].
  - destruct (has_ink current); [|exact Hs].
    now destruct sentences.
  - rewrite Hc. now destruct sentences.
Qed.

Lemma getitem_in_range (s : str) (i : Z) :
  0 <= i < len s -> exists c, getitem s i = Some c.
Proof.
  intros [Hlo Hhi]. unfold getitem, len in *.
  destruct (Z.ltb_spec i 0) as [|_]; [lia|].
  destruct (Z.ltb_spec i 0) as [|_]; [lia|].
  destruct (nth_error s (Z.to_nat i)) eqn:E; [now eexists|].
  apply nth_error_None in E. lia.
Qed.

Lemma scan_markers_ok (text : str) (direction : Z) (idxs : list Z)
  (position : Z) :
  Forall (fun i => 0 <= i < len text) idxs ->
  exists r, Japanese.scan_markers text direction idxs position = Ok r.
Proof.
  induction 1 as [|i r Hi _ IH]; simpl; [now eexists|].
  destruct (getitem_in_range text i Hi) as (c & ->).
  destruct (Japanese.mem c Japanese.PHRASE_MARKERS
            || Japanese.mem c Japanese.SENTENCE_ENDINGS);
    [now eexists|exact IH].
Qed.

Lemma range_bounds (a b : Z) :
  0 <= a -> Forall (fun i => 0 <= i < b) (range a b).
Proof.
  intros Ha. unfold range. apply Forall_forall. intros i Hi.
  apply in_map_iff in Hi. destruct Hi as (k & <- & Hk).
  apply in_seq in Hk. lia.
Qed.

(** The forward search for a phrase boundary never raises from a position
    inside the text. *)
Lemma find_phrase_boundary_forward_ok (fugashi : option Tagger) (text : str)
  (position : Z) :
  0 <= position ->
  exists r, Japanese._find_phrase_boundary fugashi text position 1 = Ok r.
Proof.
  intros Hpos. unfold Japanese._find_phrase_boundary.
  destruct fugashi as [tagger|]; [now eexists|].
  simpl (1 =? -1). cbv iota.
  apply scan_markers_ok. now apply range_bounds.
Qed.

Lemma pack_step_ok (fugashi : option Tagger) (cs co : Z)
  (chunks : list str) (cur sentence : str) :
  Forall inked chunks -> cur = [] \/ inked cur -> inked sentence ->
  exists chunks' cur',
    Japanese.pack_step fugashi cs co (chunks, cur) sentence
    = Ok (chunks', cur')
    /\ Forall inked chunks' /\ inked cur'.
Proof.
  intros Hc Hcur Hs. unfold Japanese.pack_step.
  assert (Hend : forall chunks' cur0,
             Forall inked chunks' ->
             exists chunks'' cur',
               Ok (fst (chunks', cur0), snd (chunks', cur0) ++ sentence)
               = Ok (chunks'', cur')
               /\ Forall inked chunks'' /\ inked cur').
  { intros chunks' cur0 H. exists chunks', (cur0 ++ sentence).
    split; [reflexivity|]. split; [exact H|].
    unfold inked in *. rewrite has_ink_app, Hs. apply orb_true_r. }
  destruct (len cur + len sentence >? cs); [|now apply Hend].
  destruct cur as [|x cur]; [now apply Hend|].
  destruct Hcur as [Hcur|Hcur]; [discriminate|].
  assert (Hc' : Forall inked (chunks ++ [strip (x :: cur)])).
  { apply Forall_app. split; [exact Hc|].
    constructor; [now apply inked_strip|constructor]. }
  destruct ((co >? 0) && (len (x :: cur) >? co)) eqn:Eov;
    [|now apply Hend].
  apply andb_prop in Eov. destruct Eov as [E1 E2].
  destruct (find_phrase_boundary_forward_ok fugashi (x :: cur)
              (len (x :: cur) - co)) as (r & Hr).
  { destruct (Z.gtb_spec (len (x :: cur)) co); [lia|discriminate]. }
  rewrite Hr. simpl bind. now apply Hend.
Qed.

Lemma foldM_pack_ok (fugashi : option Tagger) (cs co : Z)
  (sentences : list str) (chunks : list str) (cur : str) :
  Forall inked sentences ->
  Forall inked chunks -> cur = [] \/ inked cur ->
  exists chunks' cur',
    foldM (Japanese.pack_step fugashi cs co) sentences (chunks, cur)
    = Ok (chunks', cur')
    /\ Forall inked chunks' /\ (cur' = [] \/ inked cur').
Proof.
  intros Hall. revert chunks cur.
  induction Hall as [|s r Hs _ IH]; intros chunks cur Hc Hcur; cbn [foldM].
  - now exists chunks, cur.
  - destruct (pack_step_ok fugashi cs co chunks cur s Hc Hcur Hs)
      as (chunks1 & cur1 & -> & Hc1 & Hcur1).
    cbn [bind]. apply IH; [exact Hc1|now right].
Qed.

Lemma japanese_chunk_text_inked (fugashi : option Tagger) (fuel : nat) (cs co : Z)
  (text : str) :
  has_ink text = true ->
  exists chunks,
    Japanese.chunk_text fugashi fuel cs co text = Ok chunks
    /\ Forall inked chunks.
Proof.
  intros H. unfold Japanese.chunk_text.
  destruct text as [|c t]; [discriminate|].
  pose proof (japanese_split_sentences_nonempty _ H) as Hne.
  pose proof (japanese_split_sentences_inked (c :: t)) as Hall.
  destruct (Japanese._split_sentences (c :: t)) as [|s ss]; [congruence|].
  cbv iota.
  destruct (foldM_pack_ok fugashi cs co (s :: ss) [] [] Hall
              (Forall_nil _) (or_introl eq_refl))
    as (chunks & cur & Hf & Hc & Hcur).
  destruct (has_ink cur) eqn:E.
  - exists (chunks ++ [strip cur]). split.
    + unfold str in *. rewrite Hf. cbn [bind].
      change Japanese.nonempty with Default.nonempty.
      now rewrite nonempty_strip, E.
    + apply Forall_app. split; [exact Hc|].
      constructor; [now apply inked_strip|constructor].
  - exists chunks. split; [|exact Hc].
    unfold str in *. rewrite Hf. cbn [bind].
    change Japanese.nonempty with Default.nonempty.
    now rewrite nonempty_strip, E.
Qed.

Lemma japanese_count_tokens_chars (t : str) :
  inked t -> 0 < Japanese.count_tokens None t.
Proof.
  intros H. unfold Japanese.count_tokens.
  destruct t as [|c t]; [discriminate|]. unfold len. simpl. lia.
Qed.

Lemma japanese_count_tokens_morphemes (tagger : Tagger) (t : str) :
  inked t ->
  Japanese.count_tokens (Some tagger) t = Z.of_nat (length (tagger t)).
Proof.
  intros H. unfold Japanese.count_tokens.
  destruct t as [|c t]; [discriminate|]. reflexivity.
Qed.

End JapaneseFacts.

Section TokenCounts.

Variable fugashi : option Tagger.

Lemma chunk_text_inked (c : Chunker) (fuel : nat) (text : str) :
  has_ink text = true ->
  exists chunks,
    chunk_text fugashi c fuel text = Ok chunks /\ Forall inked chunks.
Proof.
  destruct c as [l cs co|cs co]; simpl.
  - apply DefaultFacts.default_chunk_text_inked.
  - apply JapaneseFacts.japanese_chunk_text_inked.
Qed.

Lemma count_tokens_ok (c : Chunker) (ch : TextChunk) :
  inked (tc_text ch) ->
  tc_token_count ch = count_tokens fugashi c (tc_text ch) ->
  token_count_ok fugashi c ch.
Proof.
  intros Hink Hcount. unfold token_count_ok.
  destruct c as [l cs co|cs co]; cbn [count_tokens] in Hcount.
  - rewrite Hcount. now apply DefaultFacts.default_count_tokens_inked.
  - destruct fugashi as [tagger|].
    + rewrite (JapaneseFacts.japanese_count_tokens_morphemes _ _ Hink)
        in Hcount.
      split; [exact Hcount|]. rewrite Hcount.
      destruct (tagger (tc_text ch)); cbn [length]; split;
        intros H; (reflexivity || discriminate || lia).
    + rewrite Hcount. now apply JapaneseFacts.japanese_count_tokens_chars.
Qed.

Lemma chunk_elements_loop_tokens (c : Chunker) (uuid4 : nat -> UUID)
  (document_id : UUID) (combined_text : str)
  (positions : list (Z * Z * UUID)) (text_chunks : list str) (idx : nat)
  (current_pos : Z) :
  Forall inked text_chunks ->
  Forall (fun ch =>
            inked (tc_text ch)
            /\ tc_token_count ch = count_tokens fugashi c (tc_text ch))
         (chunk_elements_loop fugashi c uuid4 document_id combined_text
                              positions idx current_pos text_chunks).
Proof.
  intros Hall. revert idx current_pos.
  induction Hall as [|t r Ht _ IH]; intros idx current_pos;
    cbn [chunk_elements_loop]; constructor.
  - cbn. split; [exact Ht|reflexivity].
  - apply IH.
Qed.

End TokenCounts.

(** C6, as the code has it: for every chunker (either class, any sizes, so
    in particular [100 <= chunk_size <= 10000] and
    [0 <= chunk_overlap < chunk_size]), with or without the morphological
    backend, [chunk_elements] returns; every chunk it returns has a text
    that is not blank and a [token_count] equal to [count_tokens] of that
    text.  The count is positive for the sentence-boundary chunker and for
    the morphology-aware chunker without its backend.  With the backend it
    is the number of morphemes that the analyser finds in the chunk text,
    and so it is 0 exactly when the analyser finds none. *)
Theorem C6_chunk_token_counts :
  forall (fugashi : option Tagger) (c : Chunker) (fuel : nat)
         (uuid4 : nat -> UUID) (elements : list NormalizedElement)
         (document_id : UUID),
    exists chunks,
      chunk_elements fugashi c fuel uuid4 elements document_id = Ok chunks
      /\ Forall (fun ch =>
                   has_ink (tc_text ch) = true
                   /\ tc_token_count ch
                      = count_tokens fugashi c (tc_text ch)
                   /\ token_count_ok fugashi c ch)
                chunks.
Proof.
  intros fugashi c fuel uuid4 elements document_id.
  unfold chunk_elements.
  destruct elements as [|e els]; [exists []; split; [reflexivity|constructor]|].
  unfold _combine_element_text.
  destruct (fold_left combine_step (e :: els) ([], []))
    as [combined positions].
  destruct (rstrip_cases combined) as [Hnil|Hink].
  - assert (Hc : chunk_text fugashi c fuel [] = Ok [])
      by (destruct c; reflexivity).
    exists []. split; [rewrite Hnil, Hc; reflexivity|constructor].
  - destruct (chunk_text_inked fugashi c fuel _ Hink) as (tcs & Htc & Hall).
    eexists. split; [rewrite Htc; reflexivity|].
    eapply Forall_impl;
      [|apply (chunk_elements_loop_tokens fugashi c uuid4 document_id
                 (rstrip combined) positions tcs O 0 Hall)].
    intros ch [Hch Hcount]. split; [exact Hch|]. split; [exact Hcount|].
    now apply count_tokens_ok.
Qed.

(** C6, counterexample: with the backend present, a chunk can have
    [token_count = 0].  The analyser here finds no morpheme in a text that
    starts with the code point 0, as an analyser that reads its input up to
    the first NUL does; the element text is that code point followed by
    three katakana and the ideographic full stop, and the sizes are the
    default ones. *)
Lemma C6_backend_without_morphemes :
  100 <= 1000 <= 10000 /\ 0 <= 100 < 1000
  /\ nul_elements <> []
  /\ exists ch,
       chunk_elements (Some nul_tagger) (JapaneseChunker 1000 100) 0
                      N.of_nat nul_elements 7%N
       = Ok [ch]
       /\ has_ink (tc_text ch) = true
       /\ tc_token_count ch = 0.
Proof.
  split; [lia|]. split; [lia|]. split; [discriminate|].
  eexists. split; [vm_compute; reflexivity|]. split; reflexivity.
Qed.

(* ================================================================= *)
(** ** Element spans and chunk records *)

Lemma slice_middle (a t b : str) :
  slice (a ++ t ++ b) (len a) (len a + len t) = t.
Proof.
  unfold slice, norm_index, len. rewrite !length_app.
  destruct (Z.ltb_spec (Z.of_nat (length a)) 0) as [|_]; [lia|].
  destruct (Z.ltb_spec (Z.of_nat (length a) + Z.of_nat (length t)) 0)
    as [|_]; [lia|].
  rewrite Z.min_l by lia. rewrite Z.min_l by lia.
  replace (Z.to_nat (Z.of_nat (length a) + Z.of_nat (length t)
                     - Z.of_nat (length a))) with (length t) by lia.
  rewrite Nat2Z.id, skipn_app, skipn_all, Nat.sub_diag. simpl.
  rewrite firstn_app, firstn_all, Nat.sub_diag. simpl. apply app_nil_r.
Qed.

Lemma rstrip_split (s : str) :
  exists tail, s = rstrip s ++ tail /\ has_ink tail = false.
Proof.
  unfold rstrip.
  assert (H : forall r : str,
             exists t, r = t ++ lstrip r /\ has_ink t = false).
  { induction r as [|c r IH]; [exists []; split; reflexivity|].
    simpl. destruct (isspace c) eqn:E.
    - destruct IH as (t & Ht & Hink). exists (c :: t). split.
      + simpl. now rewrite <- Ht.
      + simpl. now rewrite E.
    - exists []. split; reflexivity. }
  destruct (H (rev s)) as (t & Ht & Hink).
  exists (rev t). split.
  - rewrite <- rev_app_distr, <- Ht. symmetry. apply rev_involutive.
  - now rewrite has_ink_rev.
Qed.

Lemma fold_combine_step (elements : list NormalizedElement) (pre : str)
  (pos : list (Z * Z * UUID)) :
  fold_left combine_step elements (pre, pos)
  = (pre ++ joined_text elements,
     pos ++ snd (fold_left combine_step elements (pre, []))).
Proof.
  revert pre pos. induction elements as [|e r IH]; intros pre pos.
  - simpl. now rewrite !app_nil_r.
  - cbn [fold_left combine_step joined_text].
    rewrite IH. rewrite (IH _ ([] ++ _)). cbn [snd].
    rewrite <- !app_assoc. reflexivity.
Qed.

Lemma combine_spans (elements : list NormalizedElement) (pre : str)
  (k : nat) (e : NormalizedElement) :
  nth_error elements k = Some e ->
  exists start,
    nth_error (snd (fold_left combine_step elements (pre, []))) k
    = Some (start, start + len (ne_text e), ne_id e)
    /\ len pre <= start
    /\ slice (pre ++ joined_text elements) start (start + len (ne_text e))
       = ne_text e.
Proof.
  revert pre k. induction elements as [|x r IH]; intros pre k Hk.
  - now destruct k.
  - cbn [fold_left combine_step]. rewrite fold_combine_step. cbn [snd].
    destruct k as [|k].
    + injection Hk as ->. exists (len pre). rewrite len_app.
      split; [reflexivity|]. split; [lia|].
      cbn [joined_text]. apply slice_middle.
    + cbn [nth_error] in Hk |- *.
      destruct (IH ((pre ++ ne_text x) ++ [10; 10]%N) k Hk)
        as (start & Hn & Hle & Hs).
      exists start. split; [exact Hn|]. split.
      * rewrite !len_app in Hle. pose proof (len_nonneg (ne_text x)).
        unfold len in *. simpl in *. lia.
      * cbn [joined_text]. rewrite <- Hs at 2. f_equal.
        rewrite <- !app_assoc. reflexivity.
Qed.

Lemma combine_spans_step (elements : list NormalizedElement) (pre : str)
  (k : nat) (p q : Z * Z * UUID) :
  nth_error (snd (fold_left combine_step elements (pre, []))) k = Some p ->
  nth_error (snd (fold_left combine_step elements (pre, []))) (S k) = Some q ->
  fst (fst q) = snd (fst p) + 2.
Proof.
  revert pre k. induction elements as [|x r IH]; intros pre k Hp Hq.
  - now destruct k.
  - cbn [fold_left combine_step] in Hp, Hq.
    rewrite fold_combine_step in Hp, Hq. cbn [snd] in Hp, Hq.
    destruct k as [|k].
    + cbn [app nth_error] in Hp, Hq. injection Hp as <-.
      destruct r as [|y r]; [discriminate|].
      cbn [fold_left combine_step] in Hq. rewrite fold_combine_step in Hq.
      cbn [snd app nth_error] in Hq. injection Hq as <-. cbn [fst snd].
      rewrite !len_app. unfold len. simpl. lia.
    + cbn [app nth_error] in Hp, Hq. exact (IH _ k Hp Hq).
Qed.

Lemma combine_positions_length (elements : list NormalizedElement)
  (pre : str) :
  length (snd (fold_left combine_step elements (pre, [])))
  = length elements.
Proof.
  revert pre. induction elements as [|x r IH]; intros pre; [reflexivity|].
  cbn [fold_left combine_step]. rewrite fold_combine_step. cbn [snd].
  rewrite length_app, IH. reflexivity.
Qed.

Lemma lstrip_head (s : str) (c : char) (r : str) :
  lstrip s = c :: r -> isspace c = false.
Proof.
  induction s as [|x s IH]; [discriminate|]. simpl.
  destruct (isspace x) eqn:E; [exact IH|].
  intros H. injection H as <- _. exact E.
Qed.

Lemma rstrip_last (s pre : str) (c : char) :
  rstrip s = pre ++ [c] -> isspace c = false.
Proof.
  unfold rstrip. intros H.
  apply (f_equal (@rev char)) in H.
  rewrite rev_involutive, rev_app_distr in H. cbn [rev app] in H.
  exact (lstrip_head _ _ _ H).
Qed.

(** X1: [_combine_element_text] records one span per element, in document
    order and under the element's id; the span of an element has the length
    of its text and reads that text back in the unstripped concatenation;
    the next span starts two code points after the end of the previous one;
    and the returned text is the concatenation without its trailing
    whitespace: the concatenation is the returned text followed by
    whitespace only, and the returned text does not end in whitespace. *)
Theorem X1_combine_element_text_spans :
  forall (elements : list NormalizedElement),
    let combined := fst (_combine_element_text elements) in
    let positions := snd (_combine_element_text elements) in
    map (fun p => snd p) positions = map ne_id elements
    /\ (exists tail, joined_text elements = combined ++ tail
                     /\ has_ink tail = false)
    /\ (forall k e, nth_error elements k = Some e ->
          exists start,
            nth_error positions k
            = Some (start, start + len (ne_text e), ne_id e)
            /\ 0 <= start
            /\ slice (joined_text elements) start (start + len (ne_text e))
               = ne_text e)
    /\ (forall k p q, nth_error positions k = Some p ->
                      nth_error positions (S k) = Some q ->
                      fst (fst q) = snd (fst p) + 2)
    /\ (forall pre c, combined = pre ++ [c] -> isspace c = false).
Proof.
  intros elements combined positions.
  unfold combined, positions, _combine_element_text.
  rewrite fold_combine_step. cbn [fst snd app].
  split; [|split; [|split; [|split]]].
  - apply nth_error_ext. intros k. rewrite !nth_error_map.
    destruct (nth_error elements k) as [e|] eqn:E.
    + destruct (combine_spans elements [] k e E) as (s & Hn & _).
      rewrite Hn. reflexivity.
    + apply nth_error_None in E.
      match goal with
      | |- option_map _ (nth_error ?X k) = _ =>
          assert (E' : nth_error X k = None)
            by (apply nth_error_None; rewrite combine_positions_length;
                exact E);
          rewrite E'; reflexivity
      end.
  - destruct (rstrip_split (joined_text elements)) as (tail & Ht & Hink).
    now exists tail.
  - intros k e Hk. destruct (combine_spans elements [] k e Hk)
      as (s & Hn & Hle & Hs).
    exists s. split; [exact Hn|]. split; [exact Hle|exact Hs].
  - intros k p q. apply combine_spans_step.
  - intros pre c. apply rstrip_last.
Qed.

Lemma X1_combine_element_text_spans_witness :
  exists start,
    nth_error (snd (_combine_element_text hello_elements)) 1
    = Some (start, start + len (py "Second one."), 2%N)
    /\ 0 <= start
    /\ slice (joined_text hello_elements) start
             (start + len (py "Second one."))
       = py "Second one.".
Proof.
  exact (proj1 (proj2 (proj2 (X1_combine_element_text_spans hello_elements)))
           1%nat (sample_element 2%N ENGLISH "Second one.") eq_refl).
Defined.

Lemma combine_positions_ids (elements : list NormalizedElement) :
  map (fun p => snd p) (snd (_combine_element_text elements))
  = map ne_id elements.
Proof.
  unfold _combine_element_text. rewrite fold_combine_step. cbn [fst snd app].
  generalize (@nil char : str).
  induction elements as [|x r IH]; intros pre; [reflexivity|].
  cbn [fold_left combine_step]. rewrite fold_combine_step. cbn [snd].
  cbn [app map snd]. now rewrite IH.
Qed.

Lemma find_source_elements_incl (chunk_start chunk_end : Z)
  (positions : list (Z * Z * UUID)) :
  incl (_find_source_elements chunk_start chunk_end positions)
       (map (fun p => snd p) positions).
Proof.
  unfold _find_source_elements. intros id Hid.
  apply in_map_iff in Hid. destruct Hid as (p & <- & Hp).
  apply filter_In in Hp. destruct Hp as [Hp _].
  apply in_map_iff. now exists p.
Qed.

Section ChunkRecords.

Variable fugashi : option Tagger.
Variable c : Chunker.
Variable uuid4 : nat -> UUID.
Variable document_id : UUID.
Variable combined_text : str.
Variable positions : list (Z * Z * UUID).

Lemma chunk_elements_loop_fields (text_chunks : list str) (idx : nat)
  (current_pos : Z) :
  let chunks :=
    chunk_elements_loop fugashi c uuid4 document_id combined_text positions
                        idx current_pos text_chunks in
  map tc_text chunks = text_chunks
  /\ map tc_chunk_index chunks
     = map Z.of_nat (seq idx (length text_chunks))
  /\ map tc_id chunks = map uuid4 (seq idx (length text_chunks))
  /\ Forall (fun ch =>
               tc_document_id ch = document_id
               /\ tc_language ch = chunker_language c
               /\ tc_token_count ch = count_tokens fugashi c (tc_text ch)
               /\ tc_metadata ch = []
               /\ incl (tc_source_elements ch)
                       (map (fun p => snd p) positions))
            chunks.
Proof.
  revert idx current_pos.
  induction text_chunks as [|t r IH]; intros idx current_pos.
  - cbn. repeat split; constructor.
  - cbn [chunk_elements_loop].
    destruct (IH (S idx)
                 ((if find combined_text t current_pos =? -1
                   then current_pos
                   else find combined_text t current_pos) + 1))
      as (H1 & H2 & H3 & H4).
    cbn [map length seq tc_text tc_chunk_index tc_id].
    rewrite H1, H2, H3.
    repeat split; try reflexivity.
    constructor; [|exact H4].
    cbn. repeat split; try reflexivity.
    apply find_source_elements_incl.
Qed.

Lemma prefix_b_firstn_self (n : nat) (l : str) :
  prefix_b (firstn n l) l = true.
Proof.
  revert l. induction n as [|n IH]; intros l; [reflexivity|].
  destruct l as [|a l]; [reflexivity|]. simpl.
  now rewrite N.eqb_refl, IH.
Qed.

Lemma occurs_at_prefix (s sub : str) (p : Z) :
  occurs_at s sub p -> prefix_b sub (skipn (Z.to_nat p) s) = true.
Proof.
  intros (Hp & Hle & Hs). rewrite <- Hs at 1.
  unfold slice, norm_index.
  destruct (Z.ltb_spec p 0) as [|_]; [lia|].
  pose proof (len_nonneg sub).
  destruct (Z.ltb_spec (p + len sub) 0) as [|_]; [lia|].
  rewrite (Z.min_l p) by lia.
  apply prefix_b_firstn_self.
Qed.

Lemma find_from_first (sub s : str) (i r : Z) :
  find_from sub s i = r -> r <> -1 ->
  forall k, i + Z.of_nat k < r -> prefix_b sub (skipn k s) = false.
Proof.
  revert i. induction s as [|x s IH]; intros i Hf Hr k Hk; simpl in Hf.
  - destruct (prefix_b sub []); [lia|congruence].
  - destruct (prefix_b sub (x :: s)) eqn:E; [lia|].
    destruct k as [|k]; [exact E|]. simpl.
    apply (IH (i + 1) Hf Hr). lia.
Qed.

(** A successful [find] reports the first offset, from [start] on, at which
    the needle reads. *)
Lemma find_first (s sub : str) (start r : Z) :
  find s sub start = r -> 0 <= start -> r <> -1 ->
  forall p, start <= p < r -> ~ occurs_at s sub p.
Proof.
  unfold find. intros Hf Hs Hr p Hp Hocc.
  destruct (Z.ltb_spec start 0) as [|_]; [lia|].
  destruct (Z.ltb_spec (len s) start) as [|Hle]; [congruence|].
  pose proof (find_from_first sub _ start r Hf Hr (Z.to_nat (p - start))
                ltac:(lia)) as Hno.
  rewrite skipn_skipn in Hno.
  replace (Z.to_nat (p - start) + Z.to_nat start)%nat with (Z.to_nat p)
    in Hno by lia.
  apply occurs_at_prefix in Hocc. congruence.
Qed.

Lemma chunk_elements_loop_chain (text_chunks : list str) (idx : nat)
  (current_pos : Z) :
  0 <= current_pos ->
  search_chain combined_text current_pos
    (chunk_elements_loop fugashi c uuid4 document_id combined_text positions
                         idx current_pos text_chunks).
Proof.
  revert idx current_pos.
  induction text_chunks as [|t r IH]; intros idx current_pos Hpos;
    [exact I|].
  cbn [chunk_elements_loop search_chain].
  destruct (Z.eqb_spec (find combined_text t current_pos) (-1)) as [E|E].
  - split; [|apply IH; cbn; lia].
    unfold first_after. cbn. split; [lia|]. intros p Hp. lia.
  - destruct (find_found _ _ _ _ eq_refl Hpos E) as [Hle _].
    split; [|apply IH; cbn; lia].
    unfold first_after. cbn. split; [exact Hle|].
    intros p Hp. eapply find_first; eauto.
Qed.

End ChunkRecords.

Lemma search_chain_sorted (combined_text : str) (chunks : list TextChunk)
  (lo : Z) :
  search_chain combined_text lo chunks ->
  Forall (fun ch => lo <= tc_start_char ch) chunks
  /\ StronglySorted (fun a b => tc_start_char a < tc_start_char b) chunks.
Proof.
  revert lo. induction chunks as [|ch r IH]; intros lo H.
  - split; constructor.
  - destruct H as [[Hlo _] Hr]. destruct (IH _ Hr) as [Hall Hs].
    split.
    + constructor; [exact Hlo|].
      eapply Forall_impl; [|exact Hall]. simpl. intros; lia.
    + constructor; [exact Hs|].
      eapply Forall_impl; [|exact Hall]. simpl. intros; lia.
Qed.




Section Placement.

Variable fugashi : option Tagger.
Variable c : Chunker.
Variable uuid4 : nat -> UUID.
Variable document_id : UUID.
Variable combined_text : str.
Variable positions : list (Z * Z * UUID).


End Placement.




(** X2: the chunk records of [chunk_elements] carry, in order, the texts that
    [chunk_text] returns for the concatenated text; their [chunk_index]
    values are [0, 1, ..., n-1]; every record has the given document id, the
    chunker's language, the token count of its own text and an empty
    metadata map; and every source element id is the id of an input
    element. *)
Theorem X2_chunk_elements_records :
  forall (fugashi : option Tagger) (c : Chunker) (fuel : nat)
         (uuid4 : nat -> UUID) (elements : list NormalizedElement)
         (document_id : UUID) (chunks : list TextChunk),
    chunk_elements fugashi c fuel uuid4 elements document_id = Ok chunks ->
    (elements <> [] ->
     chunk_text fugashi c fuel (fst (_combine_element_text elements))
     = Ok (map tc_text chunks))
    /\ map tc_chunk_index chunks = map Z.of_nat (seq 0 (length chunks))
    /\ Forall (fun ch =>
                 tc_document_id ch = document_id
                 /\ tc_language ch = chunker_language c
                 /\ tc_token_count ch = count_tokens fugashi c (tc_text ch)
                 /\ tc_metadata ch = []
                 /\ incl (tc_source_elements ch) (map ne_id elements))
              chunks.
Proof.
  intros fugashi c fuel uuid4 elements document_id chunks Hrun.
  unfold chunk_elements in Hrun.
  destruct elements as [|e els].
  { injection Hrun as <-. split; [congruence|]. split; constructor. }
  pose proof (combine_positions_ids (e :: els)) as Hids.
  destruct (_combine_element_text (e :: els)) as [combined positions].
  cbn [fst snd] in *.
  destruct (chunk_text fugashi c fuel combined) as [tcs| |];
    cbn [bind] in Hrun; try discriminate.
  injection Hrun as <-.
  destruct (chunk_elements_loop_fields fugashi c uuid4 document_id combined
              positions tcs O 0) as (H1 & H2 & _ & H4).
  split; [intros _; now rewrite H1|]. split.
  - rewrite H2. rewrite <- H1 at 1. now rewrite length_map.
  - rewrite <- Hids. exact H4.
Qed.

Lemma X2_chunk_elements_records_witness :
  map tc_chunk_index
      two_chunks
  = map Z.of_nat (seq 0 2).
Proof.
  apply (X2_chunk_elements_records None (DefaultChunker ENGLISH 5 0) 0
           N.of_nat [sample_element 1%N ENGLISH "One. Two."] 7%N
           two_chunks).
  vm_compute. reflexivity.
Defined.

(** X3: the start offsets of the chunks of [chunk_elements] increase
    strictly, and each chunk is placed by a forward search from one past the
    start of the chunk before it (from 0 for the first chunk): its text
    reads at no offset between the search position and its recorded
    start. *)
Theorem X3_chunk_starts_increase :
  forall (fugashi : option Tagger) (c : Chunker) (fuel : nat)
         (uuid4 : nat -> UUID) (elements : list NormalizedElement)
         (document_id : UUID) (chunks : list TextChunk),
    chunk_elements fugashi c fuel uuid4 elements document_id = Ok chunks ->
    search_chain (fst (_combine_element_text elements)) 0 chunks
    /\ StronglySorted (fun a b => tc_start_char a < tc_start_char b) chunks.
Proof.
  intros fugashi c fuel uuid4 elements document_id chunks Hrun.
  assert (Hchain : search_chain (fst (_combine_element_text elements)) 0
                                chunks).
  { unfold chunk_elements in Hrun.
    destruct elements as [|e els]; [injection Hrun as <-; exact I|].
    destruct (_combine_element_text (e :: els)) as [combined positions].
    cbn [fst].
    destruct (chunk_text fugashi c fuel combined) as [tcs| |];
      cbn [bind] in Hrun; try discriminate.
    injection Hrun as <-. apply chunk_elements_loop_chain. lia. }
  split; [exact Hchain|].
  exact (proj2 (search_chain_sorted _ _ _ Hchain)).
Qed.

Lemma X3_chunk_starts_increase_witness :
  StronglySorted (fun a b => tc_start_char a < tc_start_char b)
    two_chunks.
Proof.
  apply (X3_chunk_starts_increase None (DefaultChunker ENGLISH 5 0) 0
           N.of_nat [sample_element 1%N ENGLISH "One. Two."] 7%N
           two_chunks).
  vm_compute. reflexivity.
Defined.

(* ================================================================= *)
(** ** Shape of the correlation graph *)

Lemma add_correlation_same_nodes (g : CorrelationGraph)
  (e : ChunkCorrelation) : same_nodes g (add_correlation g e).
Proof.
  unfold same_nodes, add_correlation, _update_density. simpl.
  destruct (cg_node_count g >? 1); simpl; auto.
Qed.

Lemma add_correlation_inv (g : CorrelationGraph) (e : ChunkCorrelation) :
  graph_inv g -> graph_inv (add_correlation g e).
Proof.
  intros [Hc Hd]. unfold graph_inv.
  rewrite add_correlation_edges.
  unfold add_correlation, _update_density. cbn [cg_node_count cg_edge_count].
  destruct (cg_node_count g >? 1) eqn:En;
    cbn [cg_edge_count cg_density cg_edges cg_node_count];
    (split; [reflexivity|]).
  - rewrite En. unfold density_formula.
    destruct (cg_edges g ++ [e]) eqn:E; [|reflexivity].
    now destruct (cg_edges g).
  - rewrite En, Hd.
    destruct (cg_edges g); reflexivity.
Qed.

Lemma same_nodes_refl (g : CorrelationGraph) : same_nodes g g.
Proof. repeat split. Qed.

Lemma same_nodes_trans (g1 g2 g3 : CorrelationGraph) :
  same_nodes g1 g2 -> same_nodes g2 g3 -> same_nodes g1 g3.
Proof.
  intros (A1 & A2 & A3) (B1 & B2 & B3). repeat split; congruence.
Qed.

Lemma adjacent_loop_inv (uuid4 : nat -> UUID) (l : list TextChunk)
  (g : CorrelationGraph) :
  graph_inv g ->
  graph_inv (adjacent_loop uuid4 l g)
  /\ same_nodes g (adjacent_loop uuid4 l g).
Proof.
  revert g. induction l as [|x l IH]; intros g Hg.
  - split; [exact Hg|apply same_nodes_refl].
  - destruct l as [|y r]; [split; [exact Hg|apply same_nodes_refl]|].
    change (adjacent_loop uuid4 (x :: y :: r) g)
      with (adjacent_loop uuid4 (y :: r)
              (add_correlation g
                 (adjacent_edge (uuid4 (length (cg_edges g))) x y))).
    destruct (IH _ (add_correlation_inv g
                      (adjacent_edge (uuid4 (length (cg_edges g))) x y) Hg))
      as [H1 H2].
    split; [exact H1|].
    eapply same_nodes_trans; [apply add_correlation_same_nodes|exact H2].
Qed.

Lemma semantic_inner_inv (lower : str -> str) (threshold : float)
  (uuid4 : nat -> UUID) (i : nat) (a : TextChunk) (g0 g : CorrelationGraph)
  (jb : nat * TextChunk) :
  graph_inv g /\ same_nodes g0 g ->
  graph_inv (semantic_inner lower threshold uuid4 i a g jb)
  /\ same_nodes g0 (semantic_inner lower threshold uuid4 i a g jb).
Proof.
  intros [Hg Hs]. destruct jb as [j b]. unfold semantic_inner.
  destruct (j <=? i)%nat; [now split|].
  destruct (Z.abs (tc_chunk_index a - tc_chunk_index b) <=? 1); [now split|].
  destruct (PrimFloat.leb threshold _); [|now split].
  split; [now apply add_correlation_inv|].
  eapply same_nodes_trans; [exact Hs|apply add_correlation_same_nodes].
Qed.

Lemma add_semantic_inv (lower : str -> str) (threshold : float)
  (uuid4 : nat -> UUID) (g : CorrelationGraph) (chunks : list TextChunk) :
  graph_inv g ->
  graph_inv (_add_semantic_correlations lower threshold uuid4 g chunks)
  /\ same_nodes g (_add_semantic_correlations lower threshold uuid4 g chunks).
Proof.
  intros Hg. unfold _add_semantic_correlations.
  apply (fold_left_inv (fun x => graph_inv x /\ same_nodes g x)
                       (fun _ => True)).
  - intros st ia Hst _.
    apply (fold_left_inv (fun x => graph_inv x /\ same_nodes g x)
                         (fun _ => True)).
    + intros st' jb Hst' _. now apply semantic_inner_inv.
    + apply Forall_forall. intros; exact I.
    + exact Hst.
  - apply Forall_forall. intros; exact I.
  - split; [exact Hg|apply same_nodes_refl].
Qed.

Lemma build_graph_inv (lower : str -> str) (b : CorrelationBuilder)
  (uuid4 : nat -> UUID) (chunks : list TextChunk) :
  let g := build_graph lower b uuid4 chunks in
  graph_inv g
  /\ cg_nodes g = map tc_id chunks
  /\ cg_node_count g = Z.of_nat (length chunks)
  /\ (forall c0 r, chunks = c0 :: r -> cg_document_id g = tc_document_id c0).
Proof.
  destruct chunks as [|c0 r].
  - simpl. repeat split. intros; discriminate.
  - set (cs := c0 :: r).
    set (g0 := mkCorrelationGraph (tc_document_id c0) (map tc_id cs) []
                 (Z.of_nat (length cs)) 0 0%float).
    set (g1 := if build_adjacent b
               then _add_adjacent_correlations uuid4 g0 cs else g0).
    assert (Hg : build_graph lower b uuid4 cs
                 = if build_semantic b
                   then _add_semantic_correlations lower
                          (similarity_threshold b) uuid4 g1 cs
                   else g1) by reflexivity.
    assert (H0 : graph_inv g0) by (split; reflexivity).
    assert (H1 : graph_inv g1 /\ same_nodes g0 g1).
    { unfold g1. destruct (build_adjacent b).
      - now apply adjacent_loop_inv.
      - split; [exact H0|apply same_nodes_refl]. }
    assert (H2 : graph_inv (build_graph lower b uuid4 cs)
                 /\ same_nodes g0 (build_graph lower b uuid4 cs)).
    { rewrite Hg. destruct (build_semantic b); [|exact H1].
      destruct (add_semantic_inv lower (similarity_threshold b) uuid4 g1 cs
                  (proj1 H1)) as [A B].
      split; [exact A|].
      eapply same_nodes_trans; [exact (proj2 H1)|exact B]. }
    destruct H2 as [Hinv (Hd & Hn & Hc)]. cbv zeta.
    split; [exact Hinv|]. split; [exact Hn|]. split; [exact Hc|].
    intros c1 r1 Heq. injection Heq as <- <-. exact Hd.
Qed.

Lemma in_consecutive {A : Type} (l : list A) (x y : A) :
  In (x, y) (consecutive l) -> exists l1 l2, l = l1 ++ x :: y :: l2.
Proof.
  induction l as [|a l IH]; [intros []|].
  destruct l as [|b r]; [intros []|].
  change (consecutive (a :: b :: r)) with ((a, b) :: consecutive (b :: r)).
  intros [H|H].
  - injection H as <- <-. now exists [], r.
  - destruct (IH H) as (l1 & l2 & Heq). exists (a :: l1), l2.
    simpl. now rewrite Heq.
Qed.

Lemma edge_view_in {X : Type}
  (F : X -> UUID * UUID * CorrelationType * float * Metadata)
  (edges : list ChunkCorrelation) (l : list X) (e : ChunkCorrelation) :
  map edge_view edges = map F l -> In e edges ->
  exists x, In x l /\ edge_view e = F x.
Proof.
  intros Hmap Hin. apply (in_map edge_view) in Hin. rewrite Hmap in Hin.
  apply in_map_iff in Hin. destruct Hin as (x & Hx & Hin). now exists x.
Qed.

(** The two chunks that an edge of [build_graph] joins. *)
Lemma build_graph_edge_chunks (lower : str -> str) (b : CorrelationBuilder)
  (uuid4 : nat -> UUID) (chunks : list TextChunk) (e : ChunkCorrelation) :
  In e (cg_edges (build_graph lower b uuid4 chunks)) ->
  exists x y,
    In x chunks /\ In y chunks
    /\ cc_source_chunk_id e = tc_id x /\ cc_target_chunk_id e = tc_id y
    /\ (cc_correlation_type e = ADJACENT
        \/ cc_correlation_type e = SEMANTIC)
    /\ (2 <= length chunks)%nat
    /\ (NoDup (map tc_id chunks) -> tc_id x <> tc_id y).
Proof.
  intros Hin.
  destruct (build_graph_edges lower uuid4 b chunks)
    as (adj & sem & He & Ha & Hs).
  rewrite He in Hin. apply in_app_or in Hin. destruct Hin as [Hin|Hin].
  - destruct (build_adjacent b); [|destruct adj; [destruct Hin|discriminate]].
    destruct (edge_view_in _ _ _ _ Ha Hin) as ([x y] & Hxy & Hv).
    apply in_consecutive in Hxy. destruct Hxy as (l1 & l2 & Hl).
    pose proof (sorted_by_index_perm chunks) as Hperm.
    unfold edge_view, adjacent_view in Hv. injection Hv as H1 H2 H3 _ _.
    cbn [fst snd] in *.
    exists x, y.
    split.
    { eapply Permutation_in; [apply Permutation_sym; exact Hperm|].
      rewrite Hl. apply in_or_app. right. now left. }
    split.
    { eapply Permutation_in; [apply Permutation_sym; exact Hperm|].
      rewrite Hl. apply in_or_app. right. right. now left. }
    split; [exact H1|]. split; [exact H2|]. split; [now left|]. split.
    { rewrite (Permutation_length Hperm), Hl, length_app. simpl. lia. }
    intros Hnd.
    assert (Hnd' : NoDup (map tc_id (sorted_by_index chunks))).
    { eapply Permutation_NoDup; [apply Permutation_map; exact Hperm|].
      exact Hnd. }
    rewrite Hl, map_app in Hnd'. apply NoDup_app_remove_l in Hnd'.
    cbn [map] in Hnd'. inversion Hnd' as [|? ? Hnin _]; subst.
    intros Heq. apply Hnin. left. now symmetry.
  - destruct (build_semantic b); [|destruct sem; [destruct Hin|discriminate]].
    destruct (edge_view_in _ _ _ _ Hs Hin) as ([x y] & Hxy & Hv).
    apply filter_In in Hxy. destruct Hxy as [Hxy _].
    apply semantic_pairs_spec in Hxy.
    destruct Hxy as (i & j & Hlt & Hi & Hj & _).
    unfold edge_view, semantic_view in Hv. injection Hv as H1 H2 H3 _ _.
    cbn [fst snd] in *.
    exists x, y.
    split; [eapply nth_error_In; eauto|].
    split; [eapply nth_error_In; eauto|].
    split; [exact H1|]. split; [exact H2|]. split; [now right|]. split.
    { assert (j < length chunks)%nat by (apply nth_error_Some; congruence).
      lia. }
    intros Hnd Heq.
    assert (Hij : i = j).
    { apply (proj1 (NoDup_nth_error (map tc_id chunks)) Hnd i j).
      - rewrite length_map. apply nth_error_Some. congruence.
      - rewrite !nth_error_map, Hi, Hj. simpl. congruence. }
    lia.
Qed.

(** X4: the graph of [build_graph] has the chunk ids as its nodes, in order,
    [node_count] nodes and [edge_count] equal to the length of its edge
    list; it takes the document id of the first chunk; every edge is
    [adjacent] or [semantic] and joins two nodes of the graph; and when the
    chunk ids are distinct no edge joins a chunk to itself. *)
Theorem X4_graph_well_formed :
  forall (lower : str -> str) (b : CorrelationBuilder) (uuid4 : nat -> UUID)
         (chunks : list TextChunk),
    let g := build_graph lower b uuid4 chunks in
    cg_nodes g = map tc_id chunks
    /\ cg_node_count g = Z.of_nat (length (cg_nodes g))
    /\ cg_edge_count g = Z.of_nat (length (cg_edges g))
    /\ (forall c0 r, chunks = c0 :: r -> cg_document_id g = tc_document_id c0)
    /\ Forall (fun e =>
                 In (cc_source_chunk_id e) (cg_nodes g)
                 /\ In (cc_target_chunk_id e) (cg_nodes g)
                 /\ (cc_correlation_type e = ADJACENT
                     \/ cc_correlation_type e = SEMANTIC)
                 /\ (NoDup (map tc_id chunks) ->
                     cc_source_chunk_id e <> cc_target_chunk_id e))
              (cg_edges g).
Proof.
  intros lower b uuid4 chunks g.
  destruct (build_graph_inv lower b uuid4 chunks)
    as ([Hcount _] & Hnodes & Hn & Hdoc).
  fold g in Hcount, Hnodes, Hn, Hdoc.
  split; [exact Hnodes|]. split; [now rewrite Hn, Hnodes, length_map|].
  split; [exact Hcount|]. split; [exact Hdoc|].
  apply Forall_forall. intros e He.
  destruct (build_graph_edge_chunks lower b uuid4 chunks e He)
    as (x & y & Hx & Hy & Hs & Ht & Hty & _ & Hne).
  rewrite Hnodes, Hs, Ht.
  split; [now apply in_map|]. split; [now apply in_map|].
  split; [exact Hty|exact Hne].
Qed.

Lemma X4_graph_well_formed_witness :
  Forall (fun e => cc_source_chunk_id e <> cc_target_chunk_id e)
         (cg_edges (build_graph ascii_lower
                      (mkCorrelationBuilder 0.5%float true true)
                      N.of_nat two_chunks)).
Proof.
  assert (Hnd : NoDup (map tc_id two_chunks)).
  { repeat constructor; simpl; intuition discriminate. }
  eapply Forall_impl;
    [|exact (proj2 (proj2 (proj2 (proj2
               (X4_graph_well_formed ascii_lower
                  (mkCorrelationBuilder 0.5%float true true)
                  N.of_nat two_chunks)))))].
  intros e (_ & _ & _ & H). exact (H Hnd).
Defined.

(** X5: the density of the graph of [build_graph] is [0.0] when the graph has
    no edge, and otherwise the float quotient of [edge_count] by
    [node_count * (node_count - 1) / 2], recomputed at the last edge
    insertion. *)
Theorem X5_graph_density :
  forall (lower : str -> str) (b : CorrelationBuilder) (uuid4 : nat -> UUID)
         (chunks : list TextChunk),
    let g := build_graph lower b uuid4 chunks in
    (cg_edges g = [] -> cg_density g = 0%float)
    /\ (cg_edges g <> [] ->
        1 < cg_node_count g
        /\ cg_density g
           = density_formula (Z.of_nat (length chunks))
                             (Z.of_nat (length (cg_edges g)))).
Proof.
  intros lower b uuid4 chunks g.
  destruct (build_graph_inv lower b uuid4 chunks)
    as ([Hcount Hd] & Hnodes & Hn & _).
  pose proof (build_graph_edge_chunks lower b uuid4 chunks) as Hedge.
  fold g in Hcount, Hd, Hnodes, Hn, Hedge.
  clearbody g.
  destruct (cg_edges g) as [|e r] eqn:E.
  - split; [intros _; exact Hd|congruence].
  - split; [discriminate|]. intros _.
    assert (H1 : 1 < cg_node_count g).
    { destruct (Hedge e (or_introl eq_refl))
        as (x & y & _ & _ & _ & _ & _ & Hlen & _).
      rewrite Hn. lia. }
    split; [exact H1|].
    rewrite Hd.
    destruct (Z.gtb_spec (cg_node_count g) 1); [|lia].
    now rewrite Hn, Hcount.
Qed.

Lemma X5_graph_density_witness :
  cg_density (build_graph ascii_lower
                (mkCorrelationBuilder 0.5%float true false) N.of_nat
                two_chunks) = 1%float.
Proof.
  rewrite (proj2 (proj2 (X5_graph_density ascii_lower
                           (mkCorrelationBuilder 0.5%float true false)
                           N.of_nat two_chunks)
                        ltac:(vm_compute; discriminate))).
  vm_compute. reflexivity.
Defined.

(* ================================================================= *)
(** ** Word-set similarity *)

Lemma intersection_size_comm (A B : list str) :
  NoDup A -> NoDup B -> intersection_size A B = intersection_size B A.
Proof.
  intros HA HB. unfold intersection_size. f_equal.
  apply Permutation_length. apply NoDup_Permutation.
  - now apply NoDup_filter.
  - now apply NoDup_filter.
  - intros w. rewrite !filter_In, !str_in_In. tauto.
Qed.

Lemma union_size_eq (A B : list str) :
  union_size A B
  = Z.of_nat (length A) + Z.of_nat (length B) - intersection_size B A.
Proof.
  unfold union_size, intersection_size. rewrite length_app.
  pose proof (filter_length (fun w => str_in w A) B). lia.
Qed.

Lemma union_size_comm (A B : list str) :
  NoDup A -> NoDup B -> union_size A B = union_size B A.
Proof.
  intros HA HB. rewrite !union_size_eq.
  rewrite (intersection_size_comm A B HA HB). lia.
Qed.

Lemma word_set_NoDup (lower : str -> str) (text : str) :
  NoDup (word_set lower text).
Proof. apply NoDup_nodup. Qed.

(** X6: the similarity of the semantic pass does not depend on the order of
    the two chunks; the size of the intersection of the two word sets is at
    most the size of their union; and two texts with the same words, in
    whatever order and number, have an intersection as large as their
    union. *)
Theorem X6_similarity_symmetric :
  forall (lower : str -> str) (a b : TextChunk),
    let A := word_set lower (tc_text a) in
    let B := word_set lower (tc_text b) in
    jaccard lower (a, b) = jaccard lower (b, a)
    /\ similarity_meta A B = similarity_meta B A
    /\ 0 <= intersection_size A B <= union_size A B
    /\ ((forall w, In w (split_ws (lower (tc_text a)))
                   <-> In w (split_ws (lower (tc_text b)))) ->
        intersection_size A B = union_size A B).
Proof.
  intros lower a b A B.
  pose proof (word_set_NoDup lower (tc_text a)) as HA.
  pose proof (word_set_NoDup lower (tc_text b)) as HB.
  fold A in HA. fold B in HB.
  assert (Hsim : similarity_of A B = similarity_of B A).
  { unfold similarity_of.
    now rewrite (intersection_size_comm A B HA HB),
      (union_size_comm A B HA HB). }
  split; [exact Hsim|]. split.
  { unfold similarity_meta.
    now rewrite Hsim, (union_size_comm A B HA HB). }
  split.
  - rewrite union_size_eq, (intersection_size_comm B A HB HA).
    unfold intersection_size.
    pose proof (filter_length_le (fun w => str_in w B) A).
    pose proof (filter_length_le (fun w => str_in w A) B).
    pose proof (intersection_size_comm A B HA HB) as Hc.
    unfold intersection_size in Hc. lia.
  - intros Heq.
    assert (Hsame : forall w, In w A <-> In w B).
    { intros w. unfold A, B, word_set. rewrite !nodup_In. apply Heq. }
    unfold intersection_size, union_size. rewrite length_app.
    assert (H1 : filter (fun w => str_in w B) A = A).
    { apply forallb_filter_id. apply forallb_forall.
      intros w Hw. apply str_in_In. now apply Hsame. }
    assert (H2 : filter (fun w => negb (str_in w A)) B = []).
    { destruct (filter (fun w => negb (str_in w A)) B) as [|w r] eqn:E;
        [reflexivity|].
      assert (Hw : In w (filter (fun w => negb (str_in w A)) B))
        by (rewrite E; now left).
      apply filter_In in Hw. destruct Hw as [Hw Hn].
      apply Hsame, str_in_In in Hw. rewrite Hw in Hn. discriminate. }
    rewrite H1, H2. simpl. lia.
Qed.

Lemma X6_similarity_symmetric_witness :
  intersection_size (word_set ascii_lower (py "The cat sat"))
                    (word_set ascii_lower (py "sat the cat the"))
  = union_size (word_set ascii_lower (py "The cat sat"))
               (word_set ascii_lower (py "sat the cat the")).
Proof.
  apply (proj2 (proj2 (proj2
           (X6_similarity_symmetric ascii_lower
              (sample_chunk 10%N 0 "The cat sat")
              (sample_chunk 11%N 2 "sat the cat the"))))).
  intros w. vm_compute. tauto.
Defined.

(* ================================================================= *)
(** ** Element normalizer *)

Section NormalizerProperties.

Variable langdetect : option LangDetect.
Variable parse_uuid : string -> option UUID.
Variable n : ElementNormalizer.

Lemma extract_metadata_no_heading_level (element : RawElement) :
  dict_get (_extract_metadata element) "heading_level" (MInt 1) = MInt 1.
Proof.
  unfold _extract_metadata.
  destruct (raw_metadata element) as [m|]; [|reflexivity].
  destruct (rm_page_number m), (rm_filename m), (rm_coordinates m),
    (rm_parent_id m), (rm_languages m); reflexivity.
Qed.

Lemma normalize_kept (id : UUID) (raw : RawElement) (position : Z)
  (e : NormalizedElement) :
  normalize langdetect parse_uuid n id raw position = Some e ->
  ne_id e = id /\ ne_position e = position /\ normalized_from n raw e
  /\ ne_language e
     = _detect_language langdetect n
         (if raw_truthy raw then raw_str raw else []).
Proof.
  unfold normalize, normalized_from.
  set (text := if raw_truthy raw then raw_str raw else []).
  destruct (Z.ltb_spec (len (strip text)) (min_text_length n)) as [|Hlen];
    [discriminate|].
  destruct (ElementType_eqb (_get_element_type raw) PAGE_BREAK
            && negb (Default.nonempty (strip text))) eqn:Epb;
    [discriminate|].
  intros H. injection H as <-.
  cbn [ne_id ne_element_type ne_text ne_language ne_page_number ne_position
       ne_parent_id ne_heading_level ne_raw_metadata].
  rewrite extract_metadata_no_heading_level. cbn [meta_as_int].
  repeat split; try reflexivity; try lia.
  intros Hpb. rewrite Hpb in Epb.
  change (ElementType_eqb PAGE_BREAK PAGE_BREAK) with true in Epb.
  cbn [andb] in Epb. rewrite nonempty_strip in Epb.
  now destruct (has_ink text).
Qed.

Lemma normalize_all_loop_spec (uuid4 : nat -> UUID) (raws : list RawElement)
  (position : Z) (k : nat) :
  0 <= position ->
  let out := normalize_all_loop langdetect parse_uuid n uuid4 position k raws in
  Forall (fun e =>
            position <= ne_position e
            /\ exists raw,
                 nth_error raws (Z.to_nat (ne_position e - position))
                 = Some raw
                 /\ normalized_from n raw e)
         out
  /\ StronglySorted Z.lt (map ne_position out)
  /\ map ne_id out = map uuid4 (seq k (length out))
  /\ (length out <= length raws)%nat.
Proof.
  revert position k. induction raws as [|raw r IH]; intros position k Hpos.
  - cbn. repeat split; constructor.
  - cbn [normalize_all_loop].
    assert (Hshift : forall out',
               Forall (fun e =>
                         position + 1 <= ne_position e
                         /\ exists raw0,
                              nth_error r
                                (Z.to_nat (ne_position e - (position + 1)))
                              = Some raw0
                              /\ normalized_from n raw0 e) out' ->
               Forall (fun e =>
                         position <= ne_position e
                         /\ exists raw0,
                              nth_error (raw :: r)
                                (Z.to_nat (ne_position e - position))
                              = Some raw0
                              /\ normalized_from n raw0 e) out').
    { intros out' H. eapply Forall_impl; [|exact H].
      intros e [Hle (raw0 & Hn & Hf)]. split; [lia|].
      exists raw0. split; [|exact Hf].
      replace (Z.to_nat (ne_position e - position))
        with (S (Z.to_nat (ne_position e - (position + 1)))) by lia.
      exact Hn. }
    destruct (normalize langdetect parse_uuid n (uuid4 k) raw position)
      as [e|] eqn:En.
    + destruct (normalize_kept _ _ _ _ En) as (Hid & Hp & Hf & _).
      destruct (IH (position + 1) (S k) ltac:(lia)) as (H1 & H2 & H3 & H4).
      cbv zeta. cbn [map length seq].
      split; [|split; [|split]].
      * constructor; [|now apply Hshift].
        split; [lia|]. exists raw. rewrite Hp, Z.sub_diag. now split.
      * constructor; [exact H2|].
        apply Forall_map. eapply Forall_impl; [|exact H1].
        intros x [Hx _]. cbn. lia.
      * now rewrite Hid, H3.
      * lia.
    + destruct (IH (position + 1) k ltac:(lia)) as (H1 & H2 & H3 & H4).
      cbv zeta. split; [now apply Hshift|].
      split; [exact H2|]. split; [exact H3|]. cbn [length]. lia.
Qed.

Lemma normalize_all_loop_language (uuid4 : nat -> UUID)
  (raws : list RawElement) (position : Z) (k : nat) :
  detect_language n = false \/ langdetect = None ->
  Forall (fun e => ne_language e = en_default_language n)
         (normalize_all_loop langdetect parse_uuid n uuid4 position k raws).
Proof.
  intros Hoff. revert position k.
  induction raws as [|raw r IH]; intros position k; [constructor|].
  cbn [normalize_all_loop].
  destruct (normalize langdetect parse_uuid n (uuid4 k) raw position)
    as [e|] eqn:En; [|apply IH].
  constructor; [|apply IH].
  destruct (normalize_kept _ _ _ _ En) as (_ & _ & _ & Hl).
  rewrite Hl. unfold _detect_language.
  destruct Hoff as [Hoff|Hoff]; rewrite Hoff; cbn [negb orb].
  - reflexivity.
  - now destruct (_ || _).
Qed.

End NormalizerProperties.

Lemma detect_document_language_uniform (n : ElementNormalizer)
  (elements : list NormalizedElement) :
  Forall (fun e => ne_language e = en_default_language n) elements ->
  detect_document_language n elements = en_default_language n.
Proof.
  intros Hall. unfold detect_document_language.
  destruct elements as [|e els]; [reflexivity|].
  pose proof (fold_score_ok (e :: els) [] [] scores_ok_nil) as Hok.
  simpl app in Hok. destruct Hok as (_ & Hkeys & _).
  destruct (fold_left score_step (e :: els) []) as [|x rest]; [reflexivity|].
  destruct (max_item_spec rest x) as [Hin _].
  apply (in_map fst) in Hin.
  apply Hkeys in Hin. destruct Hin as (_ & y & Hy & Hl).
  rewrite <- Hl. rewrite Forall_forall in Hall. now apply Hall.
Qed.

(** X7: every element that [normalize_all] returns comes from the raw
    element at its [position]; it keeps that element's text, type, page
    number and extracted metadata; its stripped text has at least
    [min_text_length] code points; a page break is kept only with
    non-blank text; its heading level is 1 when it is a title and absent
    otherwise.  Positions increase strictly, ids are drawn in order, and no
    more elements are returned than were given. *)
Theorem X7_normalize_all_elements :
  forall (langdetect : option LangDetect)
         (parse_uuid : string -> option UUID) (n : ElementNormalizer)
         (uuid4 : nat -> UUID) (raws : list RawElement),
    let out := normalize_all langdetect parse_uuid n uuid4 raws in
    Forall (fun e =>
              0 <= ne_position e
              /\ exists raw,
                   nth_error raws (Z.to_nat (ne_position e)) = Some raw
                   /\ normalized_from n raw e)
           out
    /\ StronglySorted Z.lt (map ne_position out)
    /\ map ne_id out = map uuid4 (seq 0 (length out))
    /\ (length out <= length raws)%nat.
Proof.
  intros langdetect parse_uuid n uuid4 raws out.
  destruct (normalize_all_loop_spec langdetect parse_uuid n uuid4 raws 0 O
              ltac:(lia)) as (H1 & H2 & H3 & H4).
  fold (normalize_all langdetect parse_uuid n uuid4 raws) in H1, H2, H3, H4.
  fold out in H1, H2, H3, H4.
  split; [|auto].
  eapply Forall_impl; [|exact H1].
  intros e [Hle (raw & Hn & Hf)]. split; [exact Hle|].
  exists raw. rewrite Z.sub_0_r in Hn. now split.
Qed.

(** X8: when language detection is switched off or the [langdetect]
    library is missing, every normalized element has the configured default
    language, and [detect_document_language] of the normalized elements is
    the configured default language. *)
Theorem X8_no_detection_gives_default :
  forall (langdetect : option LangDetect)
         (parse_uuid : string -> option UUID) (n : ElementNormalizer)
         (uuid4 : nat -> UUID) (raws : list RawElement),
    detect_language n = false \/ langdetect = None ->
    let out := normalize_all langdetect parse_uuid n uuid4 raws in
    Forall (fun e => ne_language e = en_default_language n) out
    /\ detect_document_language n out = en_default_language n.
Proof.
  intros langdetect parse_uuid n uuid4 raws Hoff out.
  assert (Hall : Forall (fun e => ne_language e = en_default_language n) out)
    by (now apply normalize_all_loop_language).
  split; [exact Hall|]. now apply detect_document_language_uniform.
Qed.

Lemma X8_no_detection_gives_default_witness :
  detect_document_language (mkElementNormalizer true KOREAN 1)
    (normalize_all None (fun _ => None) (mkElementNormalizer true KOREAN 1)
       N.of_nat
       [mkRawElement true (py "A text that is long enough to detect.")
                     (Some "Title"%string) false None])
  = KOREAN.
Proof.
  apply (X8_no_detection_gives_default None (fun _ => None)
           (mkElementNormalizer true KOREAN 1) N.of_nat).
  right. reflexivity.
Defined.

(* ================================================================= *)
(** ** Parser outcomes *)

(** X9: what [DocumentParser.parse] does on every input, in the order of
    its checks.  A missing path raises [FileNotFoundError]; an existing path
    that is not a regular file raises [DocumentParseError]; a regular file
    with an extension outside [SUPPORTED_FORMATS] raises
    [UnsupportedFormatError] carrying the suffix; a supported file without
    the Unstructured backend raises [ImportError]; with the backend, an
    exception of [partition] is turned into [DocumentParseError] and the
    elements that [partition] returns are returned, without the images
    unless [extract_images] is set.  [parse] fails to return only when
    [partition] is reached and does not return.  Conversely each outcome
    tells its cause: elements are returned only in the last case, and the
    kind of the exception names the check that failed. *)
Theorem X9_parse_outcomes :
  forall (fs : FileSystem) (unstructured : option Partition)
         (p : DocumentParser) (file_path : Path),
    let r := parse fs unstructured p file_path in
    (fs file_path = None -> exists msg, r = Raise (FileNotFoundError msg))
    /\ (forall st, fs file_path = Some st ->
          (fs_is_file st = false ->
           exists msg, r = Raise (DocumentParseError msg))
          /\ (fs_is_file st = true ->
              (is_supported file_path = false ->
               r = Raise (UnsupportedFormatError (path_suffix_lower file_path)))
              /\ (is_supported file_path = true ->
                  (unstructured = None ->
                   exists msg, r = Raise (ImportError msg))
                  /\ (forall partition, unstructured = Some partition ->
                        match partition file_path (include_page_breaks p) with
                        | Ok raw =>
                            r = Ok (if extract_images p then raw
                                    else filter (fun e => negb (raw_is_image e))
                                                raw)
                        | Raise _ =>
                            exists msg, r = Raise (DocumentParseError msg)
                        | OutOfFuel => r = OutOfFuel
                        end))))
    /\ (forall els, r = Ok els ->
       exists st partition raw,
         fs file_path = Some st /\ fs_is_file st = true
         /\ is_supported file_path = true
         /\ unstructured = Some partition
         /\ partition file_path (include_page_breaks p) = Ok raw
         /\ els = (if extract_images p then raw
                   else filter (fun e => negb (raw_is_image e)) raw)
         /\ (extract_images p = false ->
             Forall (fun e => raw_is_image e = false) els))
    /\ (forall e, r = Raise e ->
          match e with
          | FileNotFoundError _ => fs file_path = None
          | UnsupportedFormatError format =>
              format = path_suffix_lower file_path
              /\ is_supported file_path = false
              /\ exists st, fs file_path = Some st /\ fs_is_file st = true
          | ImportError _ =>
              unstructured = None /\ is_supported file_path = true
              /\ exists st, fs file_path = Some st /\ fs_is_file st = true
          | DocumentParseError _ =>
              exists st,
                fs file_path = Some st
                /\ (fs_is_file st = false
                    \/ (fs_is_file st = true /\ is_supported file_path = true
                        /\ exists partition e',
                             unstructured = Some partition
                             /\ partition file_path (include_page_breaks p)
                                = Raise e'))
          | IndexError | OtherException _ => False
          end).
Proof.
  intros fs unstructured p file_path r. unfold r, parse, is_supported.
  split.
  { intros Hfs. rewrite Hfs. now eexists. }
  split.
  { intros st Hfs. rewrite Hfs. split.
    - intros Hfile. rewrite Hfile. cbn [negb]. now eexists.
    - intros Hfile. rewrite Hfile. cbn [negb]. split.
      + intros Hsup. rewrite Hsup. reflexivity.
      + intros Hsup. rewrite Hsup. cbn [negb]. split.
        * intros Hu. rewrite Hu. now eexists.
        * intros partition Hu. rewrite Hu.
          destruct (partition file_path (include_page_breaks p));
            [reflexivity|now eexists|reflexivity]. }
  destruct (fs file_path) as [st|] eqn:Efs.
  2:{ split; [intros els H; discriminate|].
      intros e H. injection H as <-. reflexivity. }
  destruct (fs_is_file st) eqn:Efile; cbn [negb].
  2:{ split; [intros els H; discriminate|].
      intros e H. injection H as <-. exists st. split; [reflexivity|now left]. }
  destruct (string_in (path_suffix_lower file_path) SUPPORTED_FORMATS)
    eqn:Esup; cbn [negb].
  2:{ split; [intros els H; discriminate|].
      intros e H. injection H as <-.
      split; [reflexivity|]. split; [reflexivity|]. now exists st. }
  destruct unstructured as [partition|].
  2:{ split; [intros els H; discriminate|].
      intros e H. injection H as <-.
      split; [reflexivity|]. split; [reflexivity|]. now exists st. }
  destruct (partition file_path (include_page_breaks p)) as [raw|e'|] eqn:Ep.
  - split; [|intros e H; discriminate].
    intros els H. injection H as <-.
    exists st, partition, raw. repeat split; try reflexivity; try assumption.
    intros Hno. rewrite Hno. apply Forall_forall. intros x Hx.
    apply filter_In in Hx. destruct Hx as [_ Hx].
    now destruct (raw_is_image x).
  - split; [intros els H; discriminate|].
    intros e H. injection H as <-. exists st. split; [reflexivity|].
    right. split; [exact Efile|]. split; [reflexivity|].
    now exists partition, e'.
  - split; intros ? H; discriminate.
Qed.

Lemma X9_parse_outcomes_witness :
  parse sample_fs (Some sample_partition) (mkDocumentParser false true)
        sample_xyz
  = Raise (UnsupportedFormatError ".xyz")
  /\ (exists msg,
        parse sample_fs (Some sample_partition) (mkDocumentParser false true)
              (mkPath "/nonexistent/file.txt" "file.txt" ".txt")
        = Raise (FileNotFoundError msg)).
Proof.
  split.
  - exact (proj1 (proj2 (proj1 (proj2
             (X9_parse_outcomes sample_fs (Some sample_partition)
                (mkDocumentParser false true) sample_xyz))
             (mkFileStat true 25) eq_refl) eq_refl) eq_refl).
  - exact (proj1 (X9_parse_outcomes sample_fs (Some sample_partition)
                    (mkDocumentParser false true)
                    (mkPath "/nonexistent/file.txt" "file.txt" ".txt"))
                 eq_refl).
Defined.

(* ================================================================= *)
(** ** Import results *)

Lemma chunker_language_get_chunker (l : Language) (cs co : Z) :
  chunker_language (get_chunker l cs co) = l.
Proof. unfold get_chunker. now destruct l. Qed.

Lemma chunkers_get_app (d : list (Language * Chunker)) (l l' : Language)
  (c : Chunker) :
  chunkers_get (d ++ [(l, c)]) l'
  = match chunkers_get d l' with
    | Some v => Some v
    | None => if Language_eqb l l' then Some c else None
    end.
Proof.
  induction d as [|[k v] d IH]; cbn [app chunkers_get]; [reflexivity|].
  now destruct (Language_eqb k l').
Qed.

Lemma _get_chunker_cache_ok (imp : DocumentImporter) (l : Language) :
  cache_ok imp ->
  cache_ok (snd (_get_chunker imp l))
  /\ fst (_get_chunker imp l)
     = get_chunker l (chunk_size (config imp)) (chunk_overlap (config imp)).
Proof.
  intros Hok. unfold _get_chunker.
  destruct (chunkers_get (_chunkers imp) l) as [c|] eqn:E; cbn [fst snd].
  - split; [exact Hok|now apply Hok].
  - split; [|reflexivity].
    intros l' c'. cbn [_chunkers config]. rewrite chunkers_get_app.
    destruct (chunkers_get (_chunkers imp) l') as [v|] eqn:E'.
    + intros [= <-]. now apply Hok.
    + destruct (Language_eqb l l') eqn:El; [|discriminate].
      apply Language_eqb_eq in El. subst l'. now intros [= <-].
Qed.

Lemma chunk_elements_doc_language (fugashi : option Tagger) (c : Chunker)
  (fuel : nat) (uuid4 : nat -> UUID) (elements : list NormalizedElement)
  (document_id : UUID) (chunks : list TextChunk) :
  chunk_elements fugashi c fuel uuid4 elements document_id = Ok chunks ->
  Forall (fun ch => tc_document_id ch = document_id
                    /\ tc_language ch = chunker_language c) chunks.
Proof.
  intros Hrun. unfold chunk_elements in Hrun.
  destruct elements as [|e els]; [injection Hrun as <-; constructor|].
  destruct (_combine_element_text (e :: els)) as [combined positions].
  destruct (chunk_text fugashi c fuel combined) as [tcs| |];
    cbn [bind] in Hrun; try discriminate.
  injection Hrun as <-.
  destruct (chunk_elements_loop_fields fugashi c uuid4 document_id combined
              positions tcs O 0) as (_ & _ & _ & H).
  eapply Forall_impl; [|exact H]. intros ch (H1 & H2 & _). now split.
Qed.

Section ImportResults.

Variable fs : FileSystem.
Variable unstructured : option Partition.
Variable langdetect : option LangDetect.
Variable parse_uuid : string -> option UUID.
Variable fugashi : option Tagger.
Variable lower : str -> str.

(** What the [try] block leaves, by the way it ends. *)
Lemma import_try_result (imp : DocumentImporter) (fuel : nat)
  (uuid4 : nat -> UUID) (cfg : ImportConfig) (file_path : Path)
  (r0 r1 : ImportResult) (imp1 : DocumentImporter) (ending : outcome unit) :
  cache_ok imp -> ir_errors r0 = [] -> ir_correlation_graph r0 = None ->
  import_try fs unstructured langdetect parse_uuid fugashi lower imp fuel
             uuid4 cfg file_path r0 = (r1, imp1, ending) ->
  cache_ok imp1 /\ config imp1 = config imp
  /\ ir_id r1 = ir_id r0
  /\ dm_source_path (ir_document_metadata r1)
     = dm_source_path (ir_document_metadata r0)
  /\ match ending with
     | Ok _ => ir_status r1 = "success"%string /\ success_ok cfg r1
     | _ => ir_errors r1 = [] /\ ir_chunks r1 = ir_chunks r0
            /\ ir_chunk_count r1 = ir_chunk_count r0
            /\ ir_total_tokens r1 = ir_total_tokens r0
            /\ ir_correlation_graph r1 = ir_correlation_graph r0
     end.
Proof.
  intros Hok Herr Hgraph. unfold import_try.
  destruct (parse_async fs unstructured (parser imp) file_path) as [raw| |].
  2,3: intros [= <- <- <-]; repeat split; auto.
  set (elements := normalize_all langdetect parse_uuid (normalizer imp)
                     (fun k => uuid4 (1 + k)%nat) raw).
  set (language := if auto_detect_language cfg
                   then detect_document_language (normalizer imp) elements
                   else default_language cfg).
  destruct (_get_chunker_cache_ok imp language Hok) as [Hok' Hc].
  pose proof (_get_chunker_fields imp language) as (_ & _ & Hcfg).
  destruct (_get_chunker imp language) as [chunker imp'].
  cbn [fst snd] in Hok', Hc, Hcfg. cbn [ir_id].
  destruct (chunk_elements fugashi chunker fuel
              (fun k => uuid4 (1 + length elements + k)%nat) elements
              (ir_id r0)) as [chunks| |] eqn:Ec.
  2,3: intros [= <- <- <-]; repeat split; auto.
  intros [= <- <- <-].
  split; [exact Hok'|]. split; [exact Hcfg|].
  split; [reflexivity|]. split; [reflexivity|].
  split; [reflexivity|].
  unfold success_ok.
  cbn [ir_errors ir_element_count ir_elements ir_chunk_count ir_chunks
       ir_total_tokens ir_id ir_document_metadata ir_correlation_graph
       set_language dm_language].
  split; [exact Herr|]. split; [reflexivity|]. split; [reflexivity|].
  split; [reflexivity|]. split.
  - eapply Forall_impl; [|exact (chunk_elements_doc_language _ _ _ _ _ _ _ Ec)].
    intros ch [H1 H2]. split; [exact H1|].
    now rewrite H2, Hc, chunker_language_get_chunker.
  - split; intros Hb; rewrite Hb.
    + eexists. split; [reflexivity|].
      destruct (build_graph_inv lower
                  (mkCorrelationBuilder (semantic_similarity_threshold cfg)
                                        true true)
                  (fun k => uuid4 (1 + length elements + length chunks + k)%nat)
                  chunks) as (_ & Hn & Hcnt & _).
      split; [exact Hn|exact Hcnt].
    + exact Hgraph.
Qed.

Lemma import_document_result (imp : DocumentImporter) (fuel : nat)
  (clock : Clock) (uuid4 : nat -> UUID) (file_path : Path)
  (override : option ImportConfig) (r : ImportResult)
  (imp' : DocumentImporter) :
  cache_ok imp ->
  import_document fs unstructured langdetect parse_uuid fugashi lower imp
                  fuel clock uuid4 file_path override = (Ok r, imp') ->
  let cfg := match override with Some c => c | None => config imp end in
  cache_ok imp' /\ config imp' = config imp
  /\ ir_id r = uuid4 O
  /\ dm_source_path (ir_document_metadata r) = file_path
  /\ ((ir_status r = "success"%string /\ success_ok cfg r)
      \/ (ir_status r = "error"%string /\ error_ok r)).
Proof.
  intros Hok Hrun cfg.
  unfold import_document, _create_document_metadata in Hrun.
  destruct (fs file_path) as [st|]; [|discriminate].
  fold cfg in Hrun.
  match type of Hrun with
  | context [import_try _ _ _ _ _ _ _ _ _ _ _ ?R0] => set (r0 := R0) in *
  end.
  destruct (import_try fs unstructured langdetect parse_uuid fugashi lower
              imp fuel uuid4 cfg file_path r0) as [[r1 imp1] ending] eqn:Et.
  destruct (import_try_result imp fuel uuid4 cfg file_path r0 r1 imp1 ending
              Hok eq_refl eq_refl Et) as (H1 & H2 & H3 & H4 & H5).
  destruct ending as [u|e|]; [| |discriminate]; injection Hrun as <- <-.
  - split; [exact H1|]. split; [exact H2|]. split; [exact H3|].
    split; [exact H4|]. left. destruct H5 as [Hs Hsucc].
    split; [exact Hs|]. exact Hsucc.
  - split; [exact H1|]. split; [exact H2|]. split; [exact H3|].
    split; [exact H4|]. right. destruct H5 as (E1 & E2 & E3 & E4 & E5).
    split; [reflexivity|]. unfold error_ok.
    cbn [set_time on_exception ir_errors ir_chunks ir_chunk_count
         ir_total_tokens ir_correlation_graph].
    rewrite E1, E2, E3, E4, E5. repeat split. now exists e.
Qed.

End ImportResults.

(** X10: a result returned by [import_document], from an importer whose cache
    is consistent with its configuration, has the first [uuid4] draw as id
    and the given path as source; the cache stays consistent.  A result with
    status ["success"] has no error message, counters equal to the lengths
    of its element and chunk lists, [total_tokens] equal to the sum of the
    chunk token counts, chunks that carry the result id and the document
    language, and a correlation graph over exactly its chunks when, and
    only when, the configuration asks for one.  A result with status
    ["error"] has exactly one error message, no chunk and no graph. *)
Theorem X10_import_result_consistent :
  forall (fs : FileSystem) (unstructured : option Partition)
         (langdetect : option LangDetect)
         (parse_uuid : string -> option UUID) (fugashi : option Tagger)
         (lower : str -> str) (imp : DocumentImporter) (fuel : nat)
         (clock : Clock) (uuid4 : nat -> UUID) (file_path : Path)
         (override : option ImportConfig) (r : ImportResult)
         (imp' : DocumentImporter),
    cache_ok imp ->
    import_document fs unstructured langdetect parse_uuid fugashi lower imp
                    fuel clock uuid4 file_path override = (Ok r, imp') ->
    let cfg := match override with Some c => c | None => config imp end in
    cache_ok imp' /\ config imp' = config imp
    /\ ir_id r = uuid4 O
    /\ dm_source_path (ir_document_metadata r) = file_path
    /\ ((ir_status r = "success"%string /\ success_ok cfg r)
        \/ (ir_status r = "error"%string /\ error_ok r)).
Proof.
  intros. now apply (import_document_result fs unstructured langdetect
                       parse_uuid fugashi lower imp fuel clock uuid4
                       file_path override).
Qed.

Lemma sample_importer_cache_ok : cache_ok sample_importer.
Proof. intros l c H. discriminate H. Qed.

Lemma X10_import_result_consistent_witness :
  cache_ok
    (snd (import_document sample_fs (Some sample_partition) None
            (fun _ => None) None ascii_lower sample_importer 10 sample_clock
            N.of_nat sample_txt None)).
Proof.
  destruct (import_document sample_fs (Some sample_partition) None
              (fun _ => None) None ascii_lower sample_importer 10
              sample_clock N.of_nat sample_txt None)
    as [[r|e|] imp'] eqn:E.
  - exact (proj1 (X10_import_result_consistent sample_fs
                    (Some sample_partition) None (fun _ => None) None
                    ascii_lower sample_importer 10 sample_clock N.of_nat
                    sample_txt None r imp' sample_importer_cache_ok E)).
  - vm_compute in E. discriminate E.
  - vm_compute in E. discriminate E.
Defined.

(* ================================================================= *)
(** ** The chunker of an import *)

Lemma get_chunker_built_from (cfg : ImportConfig) (l : Language) :
  built_from cfg l (get_chunker l (chunk_size cfg) (chunk_overlap cfg)).
Proof.
  unfold built_from, get_chunker.
  destruct (Language_eqb l JAPANESE) eqn:E;
    cbn [chunker_chunk_size chunker_chunk_overlap chunker_language
         is_japanese_chunker].
  - apply Language_eqb_eq in E. repeat split; auto.
  - repeat split; try reflexivity; try discriminate.
    intros ->. now rewrite Language_eqb_refl in E.
Qed.

Lemma _get_chunker_stores (imp : DocumentImporter) (language : Language) :
  chunkers_get (_chunkers (snd (_get_chunker imp language))) language
  = Some (fst (_get_chunker imp language))
  /\ config (snd (_get_chunker imp language)) = config imp
  /\ (forall l', l' <> language ->
        chunkers_get (_chunkers (snd (_get_chunker imp language))) l'
        = chunkers_get (_chunkers imp) l').
Proof.
  unfold _get_chunker.
  destruct (chunkers_get (_chunkers imp) language) as [c|] eqn:E;
    cbn [fst snd _chunkers config].
  - split; [exact E|]. split; reflexivity.
  - split; [now apply chunkers_get_app_new|]. split; [reflexivity|].
    intros l' Hne. rewrite chunkers_get_app.
    destruct (chunkers_get (_chunkers imp) l'); [reflexivity|].
    destruct (Language_eqb language l') eqn:El; [|reflexivity].
    apply Language_eqb_eq in El. congruence.
Qed.

Lemma _get_chunker_built (imp : DocumentImporter) (language : Language) :
  cache_built imp ->
  built_from (config imp) language (fst (_get_chunker imp language))
  /\ cache_built (snd (_get_chunker imp language)).
Proof.
  intros Hb. unfold _get_chunker.
  destruct (chunkers_get (_chunkers imp) language) as [c|] eqn:E;
    cbn [fst snd].
  - split; [now apply Hb|exact Hb].
  - split; [apply get_chunker_built_from|].
    intros l' c'. cbn [_chunkers config]. rewrite chunkers_get_app.
    destruct (chunkers_get (_chunkers imp) l') as [v|] eqn:E'.
    + intros [= <-]. now apply Hb.
    + destruct (Language_eqb language l') eqn:El; [|discriminate].
      apply Language_eqb_eq in El. subst l'. intros [= <-].
      apply get_chunker_built_from.
Qed.

Section ImportChunker.

Variable fs : FileSystem.
Variable unstructured : option Partition.
Variable langdetect : option LangDetect.
Variable parse_uuid : string -> option UUID.
Variable fugashi : option Tagger.
Variable lower : str -> str.

(** When the [try] block ends at its last statement, the chunks of the
    result are those that the chunker of [_get_chunker], asked for the
    language of the document, makes of the elements of the result. *)
Lemma import_try_uses_chunker (imp : DocumentImporter) (fuel : nat)
  (uuid4 : nat -> UUID) (cfg : ImportConfig) (file_path : Path)
  (r0 r1 : ImportResult) (imp1 : DocumentImporter) (u : unit) :
  import_try fs unstructured langdetect parse_uuid fugashi lower imp fuel
             uuid4 cfg file_path r0 = (r1, imp1, Ok u) ->
  let language := dm_language (ir_document_metadata r1) in
  imp1 = snd (_get_chunker imp language)
  /\ ir_id r1 = ir_id r0
  /\ chunk_elements fugashi (fst (_get_chunker imp language)) fuel
       (fun k => uuid4 (1 + length (ir_elements r1) + k)%nat)
       (ir_elements r1) (ir_id r1)
     = Ok (ir_chunks r1).
Proof.
  unfold import_try.
  destruct (parse_async fs unstructured (parser imp) file_path) as [raw| |];
    [|discriminate|discriminate].
  set (elements := normalize_all langdetect parse_uuid (normalizer imp)
                     (fun k => uuid4 (1 + k)%nat) raw).
  set (language := if auto_detect_language cfg
                   then detect_document_language (normalizer imp) elements
                   else default_language cfg).
  destruct (_get_chunker imp language) as [chunker imp'] eqn:Eg.
  cbn [ir_id].
  destruct (chunk_elements fugashi chunker fuel
              (fun k => uuid4 (1 + length elements + k)%nat) elements
              (ir_id r0)) as [chunks| |] eqn:Ec; [|discriminate|discriminate].
  intros [= <- <- _].
  cbn [ir_document_metadata set_language dm_language ir_elements ir_id
       ir_chunks].
  rewrite Eg. cbn [fst snd]. split; [reflexivity|]. split; [reflexivity|].
  exact Ec.
Qed.

Lemma import_document_uses_chunker (imp : DocumentImporter) (fuel : nat)
  (clock : Clock) (uuid4 : nat -> UUID) (file_path : Path)
  (override : option ImportConfig) (r : ImportResult)
  (imp' : DocumentImporter) :
  import_document fs unstructured langdetect parse_uuid fugashi lower imp
                  fuel clock uuid4 file_path override = (Ok r, imp') ->
  ir_status r = "success"%string ->
  let language := dm_language (ir_document_metadata r) in
  imp' = snd (_get_chunker imp language)
  /\ chunk_elements fugashi (fst (_get_chunker imp language)) fuel
       (fun k => uuid4 (1 + length (ir_elements r) + k)%nat)
       (ir_elements r) (ir_id r)
     = Ok (ir_chunks r).
Proof.
  intros Hrun Hstatus.
  unfold import_document, _create_document_metadata in Hrun.
  destruct (fs file_path) as [st|]; [|discriminate].
  match type of Hrun with
  | context [import_try _ _ _ _ _ _ _ _ _ ?C _ ?R0] =>
      set (cfg := C) in *; set (r0 := R0) in *
  end.
  destruct (import_try fs unstructured langdetect parse_uuid fugashi lower
              imp fuel uuid4 cfg file_path r0) as [[r1 imp1] ending] eqn:Et.
  destruct ending as [u|e|]; [| |discriminate]; injection Hrun as <- <-.
  - destruct (import_try_uses_chunker imp fuel uuid4 cfg file_path r0 r1
                imp1 u Et) as (H1 & H2 & H3).
    cbn [set_time ir_document_metadata ir_elements ir_id ir_chunks].
    split; [exact H1|exact H3].
  - cbn [set_time on_exception ir_status] in Hstatus. discriminate.
Qed.

End ImportChunker.

(** C5: for a fixed importer, [_get_chunker] returns a chunker that is
    stored in [_chunkers] under the language after the call, leaves the
    importer's [config] and the entries of the other languages as they
    were, builds the chunker of a language it has not seen from the
    importer's own [config.chunk_size] and [config.chunk_overlap], and
    returns the stored chunker, with the importer unchanged, for a language
    it has seen; a cache whose chunkers were all built from the importer's
    [config] (the empty cache of a new importer is one) stays so.  A
    successful [import_document] makes its chunks with that chunker: the
    chunks of the result are the chunks that the chunker of [_get_chunker],
    asked for the language of the document, makes of the elements of the
    result, and the importer after the call is the one that [_get_chunker]
    leaves.  Two calls of [import_document] on the same importer and input,
    with overrides that differ at most in [chunk_size] and [chunk_overlap],
    return the same result (the same chunks in particular) and leave the
    same importer, whether both start from the same importer state or the
    second starts from the state that the first one leaves. *)
Theorem C5_override_sizes_do_not_reach_chunker :
  forall (fs : FileSystem) (unstructured : option Partition)
         (langdetect : option LangDetect)
         (parse_uuid : string -> option UUID) (fugashi : option Tagger)
         (lower : str -> str) (imp : DocumentImporter),
    (forall language,
       let c := fst (_get_chunker imp language) in
       let imp' := snd (_get_chunker imp language) in
       chunkers_get (_chunkers imp') language = Some c
       /\ config imp' = config imp
       /\ (forall l', l' <> language ->
             chunkers_get (_chunkers imp') l' = chunkers_get (_chunkers imp) l')
       /\ (chunkers_get (_chunkers imp) language = None ->
           built_from (config imp) language c)
       /\ (forall c0, chunkers_get (_chunkers imp) language = Some c0 ->
             c = c0 /\ imp' = imp)
       /\ (cache_built imp ->
           built_from (config imp) language c /\ cache_built imp'))
    /\ (forall fuel clock uuid4 file_path override r imp',
          import_document fs unstructured langdetect parse_uuid fugashi lower
                          imp fuel clock uuid4 file_path override
          = (Ok r, imp') ->
          ir_status r = "success"%string ->
          let language := dm_language (ir_document_metadata r) in
          imp' = snd (_get_chunker imp language)
          /\ chunk_elements fugashi (fst (_get_chunker imp language)) fuel
               (fun k => uuid4 (1 + length (ir_elements r) + k)%nat)
               (ir_elements r) (ir_id r)
             = Ok (ir_chunks r))
    /\ (forall fuel clock uuid4 file_path cfg1 cfg2,
          same_but_sizes cfg1 cfg2 ->
          let first :=
            import_document fs unstructured langdetect parse_uuid fugashi
                            lower imp fuel clock uuid4 file_path (Some cfg1) in
          import_document fs unstructured langdetect parse_uuid fugashi lower
                          imp fuel clock uuid4 file_path (Some cfg2)
          = first
          /\ import_document fs unstructured langdetect parse_uuid fugashi
                             lower (snd first) fuel clock uuid4 file_path
                             (Some cfg2)
             = first).
Proof.
  intros fs unstructured langdetect parse_uuid fugashi lower imp.
  split; [|split].
  - intros language c imp'. unfold c, imp'.
    destruct (_get_chunker_stores imp language) as (H1 & H2 & H3).
    split; [exact H1|]. split; [exact H2|]. split; [exact H3|].
    split; [|split].
    + intros Hnone. unfold _get_chunker. rewrite Hnone. cbn [fst].
      apply get_chunker_built_from.
    + intros c0 Hsome. unfold _get_chunker. rewrite Hsome. now split.
    + apply _get_chunker_built.
  - intros fuel clock uuid4 file_path override r imp' Hrun Hstatus.
    exact (import_document_uses_chunker fs unstructured langdetect
             parse_uuid fugashi lower imp fuel clock uuid4 file_path
             override r imp' Hrun Hstatus).
  - intros fuel clock uuid4 file_path cfg1 cfg2 Hsame first. split.
    + unfold first, import_document.
      destruct (_create_document_metadata fs clock file_path UNKNOWN);
        try reflexivity.
      now rewrite (import_try_sizes fs unstructured langdetect parse_uuid
                     fugashi lower imp fuel uuid4 cfg1 cfg2 file_path _ Hsame).
    + unfold first, import_document.
      destruct (_create_document_metadata fs clock file_path UNKNOWN)
        as [m| |]; try reflexivity.
      set (r0 := mkImportResult (uuid4 O) "success" m [] 0 [] 0 None
                                0%float 0 [] []).
      pose proof (import_try_again fs unstructured langdetect parse_uuid
                    fugashi lower imp fuel uuid4 cfg1 file_path r0) as Hagain.
      destruct (import_try fs unstructured langdetect parse_uuid fugashi
                  lower imp fuel uuid4 cfg1 file_path r0)
        as [[r1 imp1] e1] eqn:E1.
      cbn [fst snd] in Hagain.
      destruct e1; cbn [snd];
        rewrite <- (import_try_sizes fs unstructured langdetect parse_uuid
                      fugashi lower imp1 fuel uuid4 cfg1 cfg2 file_path r0
                      Hsame), Hagain; reflexivity.
Qed.

(** C5, at a document of 173 code points: the importer is configured for
    chunks of 1000 code points and the override asks for chunks of at most
    100.  The import returns one chunk, made by the chunker that
    [_get_chunker] builds from the importer's sizes; a chunker with the
    sizes of the override would cut the same text into more than one
    chunk. *)
Lemma C5_override_sizes_do_not_reach_chunker_witness :
  exists r imp',
    import_document sample_fs (Some long_partition) None (fun _ => None) None
      ascii_lower sample_importer 0 sample_clock N.of_nat sample_txt
      (Some small_override)
    = (Ok r, imp')
    /\ ir_status r = "success"%string
    /\ ir_chunk_count r = 1
    /\ built_from (config sample_importer)
         (dm_language (ir_document_metadata r))
         (fst (_get_chunker sample_importer
                 (dm_language (ir_document_metadata r))))
    /\ chunk_elements None
         (fst (_get_chunker sample_importer
                 (dm_language (ir_document_metadata r))))
         0 (fun k => N.of_nat (1 + length (ir_elements r) + k)%nat)
         (ir_elements r) (ir_id r)
       = Ok (ir_chunks r)
    /\ (exists a b rest,
          chunk_text None
            (DefaultChunker (dm_language (ir_document_metadata r))
               (chunk_size small_override) (chunk_overlap small_override))
            0 (fst (_combine_element_text (ir_elements r)))
          = Ok (a :: b :: rest)).
Proof.
  destruct (import_document sample_fs (Some long_partition) None
              (fun _ => None) None ascii_lower sample_importer 0
              sample_clock N.of_nat sample_txt (Some small_override))
    as [[r|e|] imp'] eqn:E;
    [|vm_compute in E; discriminate E|vm_compute in E; discriminate E].
  assert (Hs : ir_status r = "success"%string).
  { pose proof E as E'. vm_compute in E'. injection E' as <- _.
    reflexivity. }
  assert (Hn : ir_chunk_count r = 1).
  { pose proof E as E'. vm_compute in E'. injection E' as <- _.
    reflexivity. }
  assert (Hl : dm_language (ir_document_metadata r) = UNKNOWN).
  { pose proof E as E'. vm_compute in E'. injection E' as <- _.
    reflexivity. }
  assert (Hsplit : exists a b rest,
             chunk_text None
               (DefaultChunker (dm_language (ir_document_metadata r))
                  (chunk_size small_override) (chunk_overlap small_override))
               0 (fst (_combine_element_text (ir_elements r)))
             = Ok (a :: b :: rest)).
  { pose proof E as E'. vm_compute in E'. injection E' as <- _.
    do 3 eexists. vm_compute. reflexivity. }
  pose proof (C5_override_sizes_do_not_reach_chunker sample_fs
                (Some long_partition) None (fun _ => None) None ascii_lower
                sample_importer) as (Hget & Huse & _).
  destruct (Huse 0%nat sample_clock N.of_nat sample_txt
              (Some small_override) r imp' E Hs) as [_ Hchunks].
  destruct (Hget (dm_language (ir_document_metadata r)))
    as (_ & _ & _ & Hnew & _).
  exists r, imp'. split; [reflexivity|]. split; [exact Hs|].
  split; [exact Hn|]. split; [apply Hnew; reflexivity|].
  split; [exact Hchunks|exact Hsplit].
Defined.

Section DirectoryProperties.

Variable unstructured : option Partition.
Variable langdetect : option LangDetect.
Variable parse_uuid : string -> option UUID.
Variable fugashi : option Tagger.
Variable lower : str -> str.



Variable fs : FileSystem.
Variable fs_at : nat -> FileSystem.



End DirectoryProperties.



Lemma sum_tokens_app (a b : list TextChunk) :
  sum_tokens (a ++ b) = sum_tokens a + sum_tokens b.
Proof. induction a as [|c a IH]; simpl; [reflexivity|]. rewrite IH. lia. Qed.

(** X12: adding chunks to a result one by one with [add_chunk] appends them
    in order, keeps [chunk_count] equal to the number of chunks, and keeps
    [total_tokens] equal to the sum of the chunk token counts when it was so
    before. *)
Theorem X12_add_chunk_counters :
  forall (r : ImportResult) (chunks : list TextChunk),
    ir_chunk_count r = Z.of_nat (length (ir_chunks r)) ->
    ir_total_tokens r = sum_tokens (ir_chunks r) ->
    let r' := fold_left add_chunk chunks r in
    ir_chunks r' = ir_chunks r ++ chunks
    /\ ir_chunk_count r' = Z.of_nat (length (ir_chunks r'))
    /\ ir_total_tokens r' = sum_tokens (ir_chunks r')
    /\ ir_status r' = ir_status r /\ ir_elements r' = ir_elements r
    /\ ir_errors r' = ir_errors r.
Proof.
  intros r chunks. revert r.
  induction chunks as [|c chunks IH]; intros r Hc Ht; cbn [fold_left].
  - rewrite app_nil_r. repeat split; assumption.
  - destruct (IH (add_chunk r c)) as (H1 & H2 & H3 & H4 & H5 & H6).
    + reflexivity.
    + cbn [add_chunk ir_total_tokens ir_chunks].
      rewrite sum_tokens_app, Ht. simpl. lia.
    + cbv zeta. rewrite H1, H4, H5, H6.
      cbn [add_chunk ir_chunks ir_status ir_elements ir_errors].
      rewrite <- app_assoc. repeat split; try reflexivity.
      * rewrite H2, H1. cbn [add_chunk ir_chunks]. now rewrite <- app_assoc.
      * rewrite H3, H1. cbn [add_chunk ir_chunks]. now rewrite <- app_assoc.
Qed.

Lemma X12_add_chunk_counters_witness :
  ir_total_tokens
    (fold_left add_chunk two_chunks
       (initial_result sample_clock N.of_nat sample_txt (mkFileStat true 25)))
  = sum_tokens
      (ir_chunks
         (fold_left add_chunk two_chunks
            (initial_result sample_clock N.of_nat sample_txt
                            (mkFileStat true 25)))).
Proof.
  apply (X12_add_chunk_counters
           (initial_result sample_clock N.of_nat sample_txt
                           (mkFileStat true 25)) two_chunks);
    reflexivity.
Defined.

(* ================================================================= *)
(** ** The fallback loops without overlap *)

Lemma _chunk_by_size_loop_done (fuel : nat) (cs co : Z) (text : str)
  (start : Z) (chunks : list str) :
  len text <= start ->
  Default._chunk_by_size_loop fuel cs co text start chunks = Ok chunks.
Proof.
  intros H. destruct fuel; cbn [Default._chunk_by_size_loop];
    destruct (Z.ltb_spec start (len text)); (lia || reflexivity).
Qed.

Lemma size_next_advances (cs : Z) (text : str) (start : Z) :
  0 < cs -> 0 <= start -> start < size_next cs 0 text start.
Proof.
  intros Hcs Hs. unfold size_next, size_end.
  destruct (Z.ltb_spec (start + cs) (len text)).
  - destruct (Z.gtb_spec (rfind_char text 32%N start (start + cs)) start);
      match goal with |- context [if ?b then _ else _] => destruct b end; lia.
  - match goal with |- context [if ?b then _ else _] => destruct b end; lia.
Qed.

Lemma _chunk_by_size_loop_terminates (cs : Z) (text : str) :
  0 < cs ->
  forall fuel start chunks,
    0 <= start -> (Z.to_nat (len text - start) <= fuel)%nat ->
    exists out,
      Default._chunk_by_size_loop fuel cs 0 text start chunks = Ok out.
Proof.
  intros Hcs. induction fuel as [|fuel IH]; intros start chunks Hs Hf.
  - exists chunks. apply _chunk_by_size_loop_done. lia.
  - destruct (Z.lt_ge_cases start (len text)) as [Hlt|Hge].
    + rewrite _chunk_by_size_loop_step by exact Hlt.
      pose proof (size_next_advances cs text start Hcs Hs).
      apply IH; lia.
    + exists chunks. now apply _chunk_by_size_loop_done.
Qed.

Lemma _chunk_by_chars_loop_done (fuel : nat) (cs co : Z) (text : str)
  (start : Z) (chunks : list str) :
  len text <= start ->
  Japanese._chunk_by_chars_loop fuel cs co text start chunks = Ok chunks.
Proof.
  intros H. destruct fuel; cbn [Japanese._chunk_by_chars_loop];
    destruct (Z.ltb_spec start (len text)); (lia || reflexivity).
Qed.

Lemma slice_firstn_skipn (text : str) (a b : Z) :
  0 <= a <= b -> b <= len text ->
  slice text a b = firstn (Z.to_nat (b - a)) (skipn (Z.to_nat a) text).
Proof.
  intros Hab Hb. unfold slice, norm_index.
  destruct (Z.ltb_spec a 0); [lia|]. destruct (Z.ltb_spec b 0); [lia|].
  now rewrite !Z.min_l by lia.
Qed.

(** Without overlap the character loop cuts the rest of the text into
    consecutive pieces of at most [chunk_size] code points. *)
Lemma _chunk_by_chars_loop_partition (cs : Z) (text : str) :
  0 < cs ->
  forall fuel start chunks,
    0 <= start -> (Z.to_nat (len text - start) <= fuel)%nat ->
    exists pieces,
      Japanese._chunk_by_chars_loop fuel cs 0 text start chunks
      = Ok (chunks ++ pieces)
      /\ concat pieces = skipn (Z.to_nat start) text
      /\ Forall (fun c => 0 < len c <= cs) pieces.
Proof.
  intros Hcs. induction fuel as [|fuel IH]; intros start chunks Hs Hf.
  - exists []. rewrite app_nil_r.
    split; [apply _chunk_by_chars_loop_done; lia|].
    split; [|constructor].
    symmetry. apply skipn_all2. unfold len in *. lia.
  - destruct (Z.lt_ge_cases start (len text)) as [Hlt|Hge].
    + rewrite _chunk_by_chars_loop_step by exact Hlt.
      set (e := Z.min (start + cs) (len text)).
      assert (He : start < e <= len text) by (unfold e; lia).
      assert (Hnext : chars_next cs 0 text start = e).
      { unfold chars_next. fold e.
        destruct (Z.leb_spec (e - 0) 0); lia. }
      rewrite Hnext.
      destruct (IH e (chunks ++ [slice text start e]) ltac:(lia) ltac:(lia))
        as (pieces & Hrun & Hcat & Hall).
      exists (slice text start e :: pieces).
      rewrite Hrun, <- app_assoc. split; [reflexivity|].
      rewrite slice_firstn_skipn by lia.
      split.
      * cbn [concat]. rewrite Hcat.
        etransitivity;
          [|apply (firstn_skipn (Z.to_nat (e - start))
                                (skipn (Z.to_nat start) text))].
        f_equal. rewrite skipn_skipn. f_equal. lia.
      * constructor; [|exact Hall].
        unfold len in *. rewrite length_firstn, length_skipn. lia.
    + exists []. rewrite app_nil_r.
      split; [now apply _chunk_by_chars_loop_done|].
      split; [|constructor].
      symmetry. apply skipn_all2. unfold len in *. lia.
Qed.

(** X13: with [chunk_overlap = 0] and a positive [chunk_size] both fixed-size
    fallback loops end, within as many rounds as the text has code points.
    The character loop of the Japanese chunker (no backend) then cuts the
    text into consecutive non-empty pieces of at most [chunk_size] code
    points whose concatenation is the text. *)
Theorem X13_fallback_terminates_without_overlap :
  forall (chunk_size : Z) (text : str) (fuel : nat),
    0 < chunk_size -> (length text <= fuel)%nat ->
    (exists chunks,
       Default._chunk_by_size fuel chunk_size 0 text = Ok chunks)
    /\ (exists chunks,
          Japanese._chunk_by_morphemes None fuel chunk_size 0 text = Ok chunks
          /\ concat chunks = text
          /\ Forall (fun c => 0 < len c <= chunk_size) chunks).
Proof.
  intros chunk_size text fuel Hcs Hf. split.
  - unfold Default._chunk_by_size.
    apply _chunk_by_size_loop_terminates; unfold len; lia.
  - unfold Japanese._chunk_by_morphemes.
    destruct (_chunk_by_chars_loop_partition chunk_size text Hcs fuel 0 []
                ltac:(lia) ltac:(unfold len; lia))
      as (pieces & Hrun & Hcat & Hall).
    exists pieces. now split.
Qed.

Lemma X13_fallback_terminates_without_overlap_witness :
  exists chunks,
    Japanese._chunk_by_morphemes None 101 40 0 spaces_101 = Ok chunks
    /\ concat chunks = spaces_101
    /\ Forall (fun c => 0 < len c <= 40) chunks.
Proof.
  apply (X13_fallback_terminates_without_overlap 40 spaces_101 101).
  - lia.
  - apply Nat.leb_le. vm_compute. reflexivity.
Defined.

(* ================================================================= *)
(** ** Token counts *)

Lemma split_ws_aux_blank (s : str) :
  has_ink s = false -> split_ws_aux [] s = [].
Proof.
  induction s as [|c s IH]; [reflexivity|]. simpl.
  destruct (isspace c); simpl; [exact IH|discriminate].
Qed.

(** X14: the sentence-boundary chunker counts no token exactly in a blank
    text; the Japanese chunker without its backend counts the code points,
    and counts no token exactly in the empty text.  Neither count is
    negative. *)
Theorem X14_zero_tokens :
  forall (text : str),
    (Default.count_tokens text = 0 <-> has_ink text = false)
    /\ (Japanese.count_tokens None text = 0 <-> text = [])
    /\ 0 <= Default.count_tokens text
    /\ Japanese.count_tokens None text = len text.
Proof.
  intros text. split; [|split; [|split]].
  - split.
    + intros H. destruct (has_ink text) eqn:E; [|reflexivity].
      pose proof (DefaultFacts.default_count_tokens_inked text E). lia.
    + intros H. unfold Default.count_tokens.
      destruct text as [|c t]; [reflexivity|].
      unfold split_ws. now rewrite split_ws_aux_blank.
  - unfold Japanese.count_tokens, len.
    destruct text as [|c t]; [tauto|]. simpl. split; [lia|discriminate].
  - unfold Default.count_tokens. destruct text; lia.
  - unfold Japanese.count_tokens. now destruct text.
Qed.

(* ================================================================= *)
(** ** What the sentence-boundary chunker keeps of the text *)

Lemma squeeze_app (a b : str) : squeeze (a ++ b) = squeeze a ++ squeeze b.
Proof. apply filter_app. Qed.

Lemma squeeze_blank (s : str) : has_ink s = false -> squeeze s = [].
Proof.
  induction s as [|c s IH]; [reflexivity|]. simpl.
  destruct (isspace c); simpl; [exact IH|discriminate].
Qed.

Lemma squeeze_lstrip (s : str) : squeeze (lstrip s) = squeeze s.
Proof.
  induction s as [|c s IH]; [reflexivity|]. simpl.
  destruct (isspace c) eqn:E; simpl; [exact IH|]. now rewrite E.
Qed.

Lemma squeeze_rev (s : str) : squeeze (rev s) = rev (squeeze s).
Proof.
  induction s as [|c s IH]; [reflexivity|]. simpl.
  rewrite squeeze_app, IH. simpl.
  destruct (isspace c); simpl; [apply app_nil_r|reflexivity].
Qed.

Lemma squeeze_strip (s : str) : squeeze (strip s) = squeeze s.
Proof.
  unfold strip, rstrip.
  now rewrite squeeze_rev, squeeze_lstrip, squeeze_rev, rev_involutive,
    squeeze_lstrip.
Qed.

Lemma squeeze_join (l : list str) :
  squeeze (join [32%N] l) = squeeze (concat l).
Proof.
  induction l as [|x l IH]; [reflexivity|].
  destruct l as [|y r].
  - simpl. now rewrite app_nil_r.
  - change (join [32%N] (x :: y :: r))
      with (x ++ [32%N] ++ join [32%N] (y :: r)).
    cbn [concat]. rewrite !squeeze_app, IH. cbn [concat].
    rewrite squeeze_app. reflexivity.
Qed.

Lemma squeeze_concat_joined (groups : list (list str)) :
  squeeze (concat (map (join [32%N]) groups))
  = squeeze (concat (concat groups)).
Proof.
  induction groups as [|g r IH]; [reflexivity|].
  cbn [map concat]. rewrite concat_app, !squeeze_app, IH, squeeze_join.
  reflexivity.
Qed.

Lemma re_split_squeeze (t cur : str) (in_sep after_punct : bool) :
  squeeze (concat (Default.re_split in_sep after_punct cur t))
  = squeeze (rev cur) ++ squeeze t.
Proof.
  revert cur in_sep after_punct.
  induction t as [|c t IH]; intros cur in_sep after_punct.
  - simpl. now rewrite !app_nil_r.
  - cbn [Default.re_split].
    destruct (isspace c) eqn:Ec.
    + assert (Hc : squeeze (c :: t) = squeeze t) by (simpl; now rewrite Ec).
      rewrite Hc. destruct in_sep; [apply IH|].
      destruct after_punct.
      * cbn [concat]. rewrite squeeze_app, IH. reflexivity.
      * rewrite IH. cbn [rev]. rewrite squeeze_app. simpl. rewrite Ec.
        simpl. now rewrite app_nil_r.
    + rewrite IH. cbn [rev]. rewrite squeeze_app. simpl. rewrite Ec.
      simpl. now rewrite <- app_assoc.
Qed.

Lemma squeeze_stripped_pieces (l : list str) :
  squeeze (concat (map strip
                       (filter (fun s => Default.nonempty (strip s)) l)))
  = squeeze (concat l).
Proof.
  induction l as [|p l IH]; [reflexivity|].
  cbn [filter concat]. rewrite nonempty_strip, squeeze_app.
  destruct (has_ink p) eqn:E.
  - cbn [map concat]. now rewrite squeeze_app, squeeze_strip, IH.
  - now rewrite IH, (squeeze_blank p E).
Qed.

Lemma default_split_sentences_squeeze (text : str) :
  squeeze (concat (Default._split_sentences text)) = squeeze text.
Proof.
  unfold Default._split_sentences. destruct text as [|c t]; [reflexivity|].
  now rewrite squeeze_stripped_pieces, re_split_squeeze.
Qed.

Lemma overlap_loop_members (co : Z) (rc : list str) (n : Z)
  (acc : list str) (x : str) :
  In x (fst (Default.overlap_loop co rc n acc)) -> In x rc \/ In x acc.
Proof.
  revert n acc. induction rc as [|s r IH]; intros n acc H; simpl in *.
  - now right.
  - destruct (n + len s <=? co); [|now right].
    apply IH in H. destruct H as [H|[H|H]]; auto.
Qed.

Lemma pack_step_groups (cs co : Z) (done : list str)
  (st : Default.pack_state) (s : str) :
  groups_inv co done st ->
  groups_inv co (done ++ [s]) (Default.pack_step cs co st s).
Proof.
  destruct st as [[chunks cur] n]. unfold groups_inv. cbn [fst snd].
  intros (groups & Hc & Hne & Hmem & Hord).
  assert (Hkeep : exists groups0,
             chunks = map (join [32%N]) groups0
             /\ Forall (fun g => g <> []) groups0
             /\ (forall x, In x (concat groups0 ++ cur ++ [s])
                           <-> In x (done ++ [s]))
             /\ (co <= 0 -> concat groups0 ++ cur ++ [s] = done ++ [s])).
  { exists groups. split; [exact Hc|]. split; [exact Hne|]. split.
    - intros x. rewrite app_assoc, !in_app_iff, <- Hmem, in_app_iff. tauto.
    - intros Hco. now rewrite app_assoc, (Hord Hco). }
  unfold Default.pack_step.
  destruct (n + len s >? cs); [|exact Hkeep].
  destruct cur as [|c0 cur]; [exact Hkeep|].
  assert (Hflush : forall ov,
             (forall x, In x ov -> In x (c0 :: cur)) ->
             (co <= 0 -> ov = []) ->
             exists groups0,
               chunks ++ [join [32%N] (c0 :: cur)]
               = map (join [32%N]) groups0
               /\ Forall (fun g => g <> []) groups0
               /\ (forall x, In x (concat groups0 ++ ov ++ [s])
                             <-> In x (done ++ [s]))
               /\ (co <= 0 -> concat groups0 ++ ov ++ [s] = done ++ [s])).
  { intros ov Hov Hnil. exists (groups ++ [c0 :: cur]).
    split; [now rewrite map_app, Hc|].
    split; [apply Forall_app; split; [exact Hne|]; now repeat constructor|].
    rewrite concat_app. cbn [concat]. rewrite app_nil_r. split.
    - intros x. rewrite !in_app_iff, <- Hmem, in_app_iff.
      split; [|tauto]. intros [[H|H]|[H|H]]; auto.
    - intros Hco. rewrite (Hnil Hco), (Hord Hco). reflexivity. }
  destruct (Z.gtb_spec co 0) as [Hpos|Hle].
  - pose proof (fun x => overlap_loop_members co (rev (c0 :: cur)) 0 [] x)
      as Hov.
    destruct (Default.overlap_loop co (rev (c0 :: cur)) 0 []) as [ov ol].
    cbn [fst snd] in *. apply Hflush; [|lia].
    intros x Hx. destruct (Hov x Hx) as [H|[]]. now apply in_rev.
  - cbn [fst snd]. apply (Hflush []); [intros x []|reflexivity].
Qed.

Lemma pack_fold_groups (cs co : Z) (todo done : list str)
  (st : Default.pack_state) :
  groups_inv co done st ->
  groups_inv co (done ++ todo) (fold_left (Default.pack_step cs co) todo st).
Proof.
  revert done st. induction todo as [|s r IH]; intros done st H.
  - now rewrite app_nil_r.
  - cbn [fold_left].
    replace (done ++ s :: r) with ((done ++ [s]) ++ r)
      by (now rewrite <- app_assoc).
    apply IH. now apply pack_step_groups.
Qed.

(** X15: on a text that is not blank the sentence-boundary chunker returns
    chunks that are non-empty groups of sentences joined by one space; every
    sentence of the text is in some group and every member of a group is a
    sentence of the text.  With [chunk_overlap <= 0] the groups hold the
    sentences once each and in order, and the chunks, put end to end, have
    exactly the non-whitespace code points of the text, in order. *)
Theorem X15_default_chunks_cover_sentences :
  forall (fuel : nat) (chunk_size chunk_overlap : Z) (text : str),
    has_ink text = true ->
    exists groups,
      Default.chunk_text fuel chunk_size chunk_overlap text
      = Ok (map (join [32%N]) groups)
      /\ Forall (fun g => g <> []) groups
      /\ (forall s, In s (Default._split_sentences text)
                    <-> exists g, In g groups /\ In s g)
      /\ (chunk_overlap <= 0 ->
          concat groups = Default._split_sentences text
          /\ squeeze (concat (map (join [32%N]) groups)) = squeeze text).
Proof.
  intros fuel cs co text Hink.
  pose proof (DefaultFacts.default_split_sentences_nonempty _ Hink) as Hne.
  pose proof (default_split_sentences_squeeze text) as Hsq.
  unfold Default.chunk_text.
  destruct text as [|c t]; [discriminate|].
  destruct (Default._split_sentences (c :: t)) as [|s ss] eqn:Es;
    [congruence|].
  assert (H0 : groups_inv co [] ([], [], 0)).
  { exists []. cbn. repeat split; auto; intros []. }
  pose proof (pack_fold_groups cs co (s :: ss) [] _ H0) as Hinv.
  cbn [app] in Hinv.
  destruct (fold_left (Default.pack_step cs co) (s :: ss) ([], [], 0))
    as [[chunks cur] n].
  destruct Hinv as (groups & Hc & Hnn & Hmem & Hord). cbn [fst snd] in *.
  assert (Hfinal : forall groups0,
             concat groups0 = concat groups ++ cur ->
             (forall x, In x (s :: ss)
                        <-> exists g, In g groups0 /\ In x g)
             /\ (co <= 0 ->
                 concat groups0 = s :: ss
                 /\ squeeze (concat (map (join [32%N]) groups0))
                    = squeeze (c :: t))).
  { intros groups0 Hcat. split.
    - intros x. rewrite <- Hmem, <- Hcat, in_concat. tauto.
    - intros Hco. rewrite squeeze_concat_joined, Hcat, (Hord Hco).
      split; [reflexivity|exact Hsq]. }
  destruct cur as [|x cur].
  - exists groups. rewrite Hc. split; [reflexivity|].
    split; [exact Hnn|]. apply Hfinal. now rewrite app_nil_r.
  - exists (groups ++ [x :: cur]).
    split; [rewrite map_app, Hc; reflexivity|].
    split; [apply Forall_app; split; [exact Hnn|]; now repeat constructor|].
    apply Hfinal. rewrite concat_app. cbn [concat]. now rewrite app_nil_r.
Qed.

Lemma X15_default_chunks_cover_sentences_witness :
  exists groups,
    Default.chunk_text 0 5 0 (py "One. Two.")
    = Ok (map (join [32%N]) groups)
    /\ Forall (fun g => g <> []) groups
    /\ (forall s, In s (Default._split_sentences (py "One. Two."))
                  <-> exists g, In g groups /\ In s g)
    /\ (0 <= 0 ->
        concat groups = Default._split_sentences (py "One. Two.")
        /\ squeeze (concat (map (join [32%N]) groups))
           = squeeze (py "One. Two.")).
Proof.
  apply (X15_default_chunks_cover_sentences 0 5 0 (py "One. Two.")).
  vm_compute. reflexivity.
Defined.

(* ================================================================= *)
(** ** Phrase boundaries of the Japanese chunker *)








Lemma boundaries_from_ends (start : Z) (ms done : list str) :
  Japanese.boundaries_from start (len (concat done)) ms
  = map (fun k => start + len (concat (firstn k (done ++ ms))))
        (seq (S (length done)) (length ms)).
Proof.
  revert done. induction ms as [|m r IH]; intros done; [reflexivity|].
  cbn [Japanese.boundaries_from length seq map].
  assert (Hd : len (concat done) + len m = len (concat (done ++ [m]))).
  { rewrite concat_app. cbn [concat]. rewrite app_nil_r. unfold len.
    rewrite length_app. lia. }
  assert (Hf : firstn (S (length done)) (done ++ m :: r) = done ++ [m]).
  { replace (S (length done)) with (length done + 1)%nat by lia.
    rewrite firstn_app_2. reflexivity. }
  rewrite Hf, Hd. f_equal.
  rewrite (IH (done ++ [m])), length_app, <- app_assoc. cbn [length app].
  now replace (length done + 1)%nat with (S (length done)) by lia.
Qed.

Lemma boundaries_are_morpheme_ends (start : Z) (ms : list str) :
  start :: Japanese.boundaries_from start 0 ms = morpheme_ends start ms.
Proof.
  unfold morpheme_ends. cbn [seq map firstn concat].
  f_equal; [unfold len; simpl; lia|].
  exact (boundaries_from_ends start ms []).
Qed.

Lemma closest_loop_some (target : Z) (bs : list Z) :
  forall closest,
    let r := Japanese.closest_loop target bs closest
               (Some (Z.abs (closest - target))) in
    (r = closest
     /\ Forall (fun b => Z.abs (closest - target) <= Z.abs (b - target)) bs)
    \/ (Z.abs (r - target) < Z.abs (closest - target)
        /\ first_nearest target bs r).
Proof.
  induction bs as [|b rest IH]; intros closest; cbn zeta.
  - left. split; [reflexivity|constructor].
  - cbn [Japanese.closest_loop].
    destruct (Z.ltb_spec (Z.abs (b - target)) (Z.abs (closest - target)))
      as [Hlt|Hge].
    + right. destruct (IH b) as [(Hr & Hall)|(Hlt' & pre & post & E & H1 & H2)].
      * cbn zeta in Hr. rewrite Hr. split; [exact Hlt|].
        exists [], rest. split; [reflexivity|]. split; [constructor|exact Hall].
      * cbn zeta in *. split; [lia|].
        exists (b :: pre), post. split; [cbn [app]; f_equal; exact E|].
        split; [constructor; [exact Hlt'|exact H1]|exact H2].
    + destruct (IH closest)
        as [(Hr & Hall)|(Hlt' & pre & post & E & H1 & H2)].
      * left. split; [exact Hr|]. constructor; [exact Hge|exact Hall].
      * right. cbn zeta in *. split; [exact Hlt'|].
        exists (b :: pre), post. split; [cbn [app]; f_equal; exact E|].
        split; [constructor; [lia|exact H1]|exact H2].
Qed.

Lemma closest_loop_first_nearest (target b : Z) (rest : list Z)
  (closest : Z) :
  first_nearest target (b :: rest)
    (Japanese.closest_loop target (b :: rest) closest None).
Proof.
  cbn [Japanese.closest_loop].
  destruct (closest_loop_some target rest b)
    as [(Hr & Hall)|(Hlt & pre & post & E & H1 & H2)]; cbn zeta in *.
  - rewrite Hr. exists [], rest.
    split; [reflexivity|]. split; [constructor|exact Hall].
  - exists (b :: pre), post. split; [cbn [app]; f_equal; exact E|].
    split; [constructor; [exact Hlt|exact H1]|exact H2].
Qed.

(** X17: with the morphological backend, [_find_phrase_boundary] never
    raises and ignores the direction.  It tags the window of the text from
    50 code points before the position (not before the start) to 50 after it
    (not past the end) and returns, among the start of the window and the
    ends of the morphemes of the window, the boundary nearest to the
    position; of several boundaries at the same distance it returns the
    first.  The result is therefore never before the start of the window. *)
Theorem X17_find_phrase_boundary_morphemes :
  forall (tagger : Tagger) (text : str) (position direction : Z),
    let start := Z.max 0 (position - 50) in
    let window := slice text start (Z.min (len text) (position + 50)) in
    exists r,
      Japanese._find_phrase_boundary (Some tagger) text position direction
      = Ok r
      /\ first_nearest position (morpheme_ends start (tagger window)) r
      /\ start <= r.
Proof.
  intros tagger text position direction start window.
  unfold Japanese._find_phrase_boundary. fold start. fold window.
  rewrite boundaries_are_morpheme_ends.
  eexists. split; [reflexivity|].
  assert (Hne : exists b rest,
             morpheme_ends start (tagger window) = b :: rest)
    by (unfold morpheme_ends; cbn [seq map]; now eexists; eexists).
  destruct Hne as (b & rest & Hb).
  pose proof (closest_loop_first_nearest position b rest position) as Hn.
  rewrite <- Hb in Hn. split; [exact Hn|].
  destruct Hn as (pre & post & E & _).
  assert (Hin : In (Japanese.closest_loop position
                      (morpheme_ends start (tagger window)) position None)
                   (morpheme_ends start (tagger window))).
  { rewrite E at 2. apply in_or_app. right. now left. }
  unfold morpheme_ends in Hin at 2. apply in_map_iff in Hin.
  destruct Hin as (k & Hk & _). rewrite <- Hk. unfold len. lia.
Qed.

(* ================================================================= *)
(** ** What the Japanese chunker keeps of the text *)

Lemma split_fold_squeeze (text : str) (st : list str * str) :
  let st' := fold_left Japanese.split_step text st in
  squeeze (concat (fst st')) ++ squeeze (snd st')
  = squeeze (concat (fst st)) ++ squeeze (snd st) ++ squeeze text.
Proof.
  revert st. induction text as [|c t IH]; intros st; cbn zeta.
  - cbn [fold_left squeeze filter]. now rewrite app_nil_r.
  - cbn [fold_left]. specialize (IH (Japanese.split_step st c)).
    cbn zeta in IH. rewrite IH. clear IH.
    destruct st as [sentences current]. unfold Japanese.split_step.
    assert (Hc : squeeze (c :: t) = squeeze [c] ++ squeeze t)
      by (change (c :: t) with ([c] ++ t); apply squeeze_app).
    rewrite Hc.
    destruct (Japanese.mem c Japanese.SENTENCE_ENDINGS); cbn [fst snd].
    + change Japanese.nonempty with Default.nonempty.
      rewrite nonempty_strip.
      destruct (has_ink (current ++ [c])) eqn:E.
      * rewrite concat_app. cbn [concat]. rewrite app_nil_r.
        rewrite !squeeze_app, squeeze_strip, squeeze_app.
        cbn [squeeze filter app]. now rewrite <- !app_assoc.
      * pose proof (squeeze_blank _ E) as Hb. rewrite squeeze_app in Hb.
        apply app_eq_nil in Hb. destruct Hb as [Hb1 Hb2].
        rewrite Hb1, Hb2. reflexivity.
    + rewrite squeeze_app. now rewrite <- !app_assoc.
Qed.

Lemma japanese_split_sentences_squeeze (text : str) :
  squeeze (concat (Japanese._split_sentences text)) = squeeze text.
Proof.
  unfold Japanese._split_sentences. destruct text as [|c t]; [reflexivity|].
  pose proof (split_fold_squeeze (c :: t) ([], [])) as H. cbn zeta in H.
  destruct (fold_left Japanese.split_step (c :: t) ([], []))
    as [sentences current].
  cbn [fst snd concat] in H.
  change (squeeze []) with (@nil char) in H. cbn [app] in H.
  rewrite <- H.
  change Japanese.nonempty with Default.nonempty. rewrite nonempty_strip.
  destruct (has_ink current) eqn:E.
  - rewrite concat_app. cbn [concat]. rewrite app_nil_r.
    now rewrite squeeze_app, squeeze_strip.
  - rewrite (squeeze_blank _ E). now rewrite app_nil_r.
Qed.

Lemma squeeze_chunks_of (groups : list (list str)) :
  squeeze (concat (map chunk_of groups)) = squeeze (concat (concat groups)).
Proof.
  induction groups as [|g r IH]; [reflexivity|].
  cbn [map concat]. rewrite concat_app, !squeeze_app, IH.
  unfold chunk_of. now rewrite squeeze_strip.
Qed.

Lemma lstrip_length (s : str) : (length (lstrip s) <= length s)%nat.
Proof.
  induction s as [|c s IH]; [apply Nat.le_refl|]. simpl.
  destruct (isspace c); simpl; lia.
Qed.

Lemma strip_length (s : str) : len (strip s) <= len s.
Proof.
  unfold strip, rstrip, len. rewrite length_rev.
  pose proof (lstrip_length (rev (lstrip s))) as H1.
  pose proof (lstrip_length s) as H2. rewrite length_rev in H1. lia.
Qed.

Lemma japanese_pack_step_groups (fugashi : option Tagger) (cs co : Z)
  (done : list str) (st : list str * str) (s : str) :
  co <= 0 -> s <> [] ->
  japanese_groups_inv cs done st ->
  exists st',
    Japanese.pack_step fugashi cs co st s = Ok st'
    /\ japanese_groups_inv cs (done ++ [s]) st'.
Proof.
  intros Hco Hs. destruct st as [chunks cur].
  unfold japanese_groups_inv. cbn [fst snd].
  intros (groups & current & Hc & Hcur & Hg & Hd & Hnil & Hfit).
  assert (Hnz : forall a : str, a ++ s = [] -> False).
  { intros a H. apply app_eq_nil in H. now destruct H. }
  unfold Japanese.pack_step.
  destruct (Z.gtb_spec (len cur + len s) cs) as [Hgt|Hle].
  - destruct cur as [|x cur].
    + cbn [bind fst snd app]. eexists. split; [reflexivity|]. cbn [fst snd].
      exists groups, [s]. rewrite (Hnil eq_refl) in Hd.
      split; [exact Hc|].
      split; [cbn [concat]; now rewrite app_nil_r|].
      split; [exact Hg|].
      split; [rewrite app_nil_r in Hd; now rewrite Hd|].
      split; [intros H; now subst s|]. right. right. now exists s.
    + destruct (Z.gtb_spec co 0) as [|_]; [lia|]. cbn [andb bind fst snd app].
      eexists. split; [reflexivity|]. cbn [fst snd].
      exists (groups ++ [current]), [s].
      assert (Hcn : current <> []) by (intros ->; discriminate).
      split; [rewrite map_app, Hc; cbn [map]; unfold chunk_of;
              now rewrite Hcur|].
      split; [cbn [concat]; now rewrite app_nil_r|].
      split.
      { apply Forall_app. split; [exact Hg|]. constructor; [|constructor].
        split; [exact Hcn|]. now destruct Hfit. }
      split; [rewrite concat_app; cbn [concat];
              now rewrite app_nil_r, <- Hd|].
      split; [intros H; now subst s|]. right. right. now exists s.
  - cbn [bind fst snd]. eexists. split; [reflexivity|]. cbn [fst snd].
    exists groups, (current ++ [s]).
    assert (Hcat : concat (current ++ [s]) = cur ++ s).
    { rewrite concat_app, Hcur. cbn [concat]. now rewrite app_nil_r. }
    split; [exact Hc|]. split; [now rewrite Hcat|].
    split; [exact Hg|]. split; [now rewrite <- Hd, <- app_assoc|].
    split; [intros H; destruct (Hnz _ H)|].
    right. left. rewrite Hcat. unfold len in *. rewrite length_app. lia.
Qed.

Lemma japanese_pack_fold_groups (fugashi : option Tagger) (cs co : Z)
  (todo done : list str) (st : list str * str) :
  co <= 0 -> Forall (fun s => s <> []) todo ->
  japanese_groups_inv cs done st ->
  exists st',
    foldM (Japanese.pack_step fugashi cs co) todo st = Ok st'
    /\ japanese_groups_inv cs (done ++ todo) st'.
Proof.
  intros Hco Hall. revert done st.
  induction Hall as [|s r Hs _ IH]; intros done st Hinv; cbn [foldM].
  - exists st. split; [reflexivity|]. now rewrite app_nil_r.
  - destruct (japanese_pack_step_groups fugashi cs co done st s Hco Hs Hinv)
      as (st1 & -> & Hinv1).
    cbn [bind]. destruct (IH _ _ Hinv1) as (st' & Hf & Hinv').
    exists st'. split; [exact Hf|]. now rewrite <- app_assoc in Hinv'.
Qed.

(** X18: [JapaneseChunker._split_sentences] keeps exactly the
    non-whitespace code points of the text, in order.  With
    [chunk_overlap <= 0] the chunker returns, on a text that is not blank,
    with or without the morphological backend: the chunks are the stripped
    concatenations of non-empty groups of sentences, the groups hold the
    sentences once each and in order, every chunk has at most [chunk_size]
    code points unless it is a single sentence, and the chunks put end to
    end have exactly the non-whitespace code points of the text, in
    order. *)
Theorem X18_japanese_chunks_keep_text :
  forall (fugashi : option Tagger) (fuel : nat) (chunk_size chunk_overlap : Z)
         (text : str),
    has_ink text = true -> chunk_overlap <= 0 ->
    squeeze (concat (Japanese._split_sentences text)) = squeeze text
    /\ exists groups,
         Japanese.chunk_text fugashi fuel chunk_size chunk_overlap text
         = Ok (map chunk_of groups)
         /\ Forall (fun g => g <> []) groups
         /\ concat groups = Japanese._split_sentences text
         /\ Forall (fun g => len (chunk_of g) <= chunk_size
                             \/ exists s, g = [s]) groups
         /\ squeeze (concat (map chunk_of groups)) = squeeze text.
Proof.
  intros fugashi fuel cs co text Hink Hco.
  pose proof (japanese_split_sentences_squeeze text) as Hsq.
  split; [exact Hsq|].
  pose proof (JapaneseFacts.japanese_split_sentences_nonempty _ Hink) as Hne.
  pose proof (JapaneseFacts.japanese_split_sentences_inked text) as Hall.
  unfold Japanese.chunk_text.
  destruct text as [|c t]; [discriminate|].
  destruct (Japanese._split_sentences (c :: t)) as [|s ss] eqn:Es;
    [congruence|].
  assert (Hnn : Forall (fun x : str => x <> []) (s :: ss)).
  { eapply Forall_impl; [|exact Hall]. intros x Hx ->. discriminate. }
  assert (H0 : japanese_groups_inv cs [] ([], [])).
  { exists [], []. cbn. repeat split; auto. }
  destruct (japanese_pack_fold_groups fugashi cs co (s :: ss) [] _ Hco Hnn H0)
    as ([chunks cur] & Hf & Hinv).
  cbn [app] in Hinv. unfold str in *. rewrite Hf. cbn [bind].
  destruct Hinv as (groups & current & Hc & Hcur & Hg & Hd & Hnil & Hfit).
  cbn [fst snd] in *.
  assert (Hfinal : forall groups0,
             Forall (fun g => g <> [] /\ fits cs g) groups0 ->
             concat groups0 = s :: ss ->
             Forall (fun g => g <> []) groups0
             /\ concat groups0 = s :: ss
             /\ Forall (fun g => len (chunk_of g) <= cs
                                 \/ exists s, g = [s]) groups0
             /\ squeeze (concat (map chunk_of groups0)) = squeeze (c :: t)).
  { intros groups0 Hg0 Hcat.
    split; [eapply Forall_impl; [|exact Hg0]; now intros g [? _]|].
    split; [exact Hcat|]. split.
    - eapply Forall_impl; [|exact Hg0]. intros g [_ [Hle|Hone]];
        [left|now right].
      pose proof (strip_length (concat g)). unfold chunk_of. lia.
    - now rewrite squeeze_chunks_of, Hcat. }
  change Japanese.nonempty with Default.nonempty. rewrite nonempty_strip.
  destruct (has_ink cur) eqn:E.
  - exists (groups ++ [current]).
    assert (Hcn : current <> []) by (intros ->; subst cur; discriminate).
    split; [rewrite map_app, Hc; cbn [map]; unfold chunk_of;
            now rewrite Hcur|].
    apply Hfinal.
    + apply Forall_app. split; [exact Hg|]. constructor; [|constructor].
      split; [exact Hcn|]. now destruct Hfit.
    + rewrite concat_app. cbn [concat]. now rewrite app_nil_r.
  - assert (Hcn : current = []).
    { destruct current as [|x current]; [reflexivity|]. exfalso.
      assert (Hx : In x (s :: ss))
        by (rewrite <- Hd; apply in_or_app; right; now left).
      rewrite Forall_forall in Hall. specialize (Hall x Hx).
      unfold inked in Hall. subst cur. cbn [concat] in E.
      rewrite has_ink_app, Hall in E. discriminate. }
    exists groups. split; [now rewrite Hc|].
    apply Hfinal; [exact Hg|]. now rewrite Hcn, app_nil_r in Hd.
Qed.

Lemma X18_japanese_chunks_keep_text_witness :
  squeeze (concat (Japanese._split_sentences sample_phrase))
  = squeeze sample_phrase
  /\ exists groups,
       Japanese.chunk_text None 0 3 0 sample_phrase = Ok (map chunk_of groups)
       /\ Forall (fun g => g <> []) groups
       /\ concat groups = Japanese._split_sentences sample_phrase
       /\ Forall (fun g => len (chunk_of g) <= 3
                           \/ exists s, g = [s]) groups
       /\ squeeze (concat (map chunk_of groups)) = squeeze sample_phrase.
Proof.
  apply (X18_japanese_chunks_keep_text None 0 3 0 sample_phrase).
  - vm_compute. reflexivity.
  - vm_compute. discriminate.
Defined.

(* ================================================================= *)
(** ** The fallback of the Japanese chunker *)

(** X19: for [0 <= chunk_overlap < chunk_size] and a text that is not empty,
    the character fallback of [_chunk_by_morphemes] (no backend) returns,
    given enough rounds, exactly when [chunk_overlap = 0] or the text has at
    most [chunk_overlap] code points; in the second case it returns the
    whole text as the only chunk after one round. *)
Theorem X19_char_fallback_returns_iff :
  forall (chunk_size chunk_overlap : Z) (text : str),
    0 <= chunk_overlap < chunk_size -> text <> [] ->
    ((exists fuel chunks,
         Japanese._chunk_by_morphemes None fuel chunk_size chunk_overlap text
         = Ok chunks)
     <-> chunk_overlap = 0 \/ len text <= chunk_overlap)
    /\ (len text <= chunk_overlap ->
        forall fuel,
          Japanese._chunk_by_morphemes None (S fuel) chunk_size chunk_overlap
                                       text
          = Ok [text]).
Proof.
  intros cs co text Hco Hne.
  assert (Hlen : 0 < len text)
    by (destruct text; [congruence|unfold len; simpl; lia]).
  assert (Hone : len text <= co ->
                 forall fuel,
                   Japanese._chunk_by_morphemes None (S fuel) cs co text
                   = Ok [text]).
  { intros Hshort fuel. unfold Japanese._chunk_by_morphemes.
    rewrite _chunk_by_chars_loop_step by exact Hlen.
    assert (He : Z.min (0 + cs) (len text) = len text) by lia.
    assert (Hnext : chars_next cs co text 0 = len text).
    { unfold chars_next. rewrite He.
      destruct (Z.leb_spec (len text - co) 0); [reflexivity|lia]. }
    rewrite Hnext, He, _chunk_by_chars_loop_done by lia.
    rewrite slice_firstn_skipn by lia. cbn [skipn Z.to_nat app].
    rewrite Z.sub_0_r. unfold len. rewrite Nat2Z.id, firstn_all.
    reflexivity. }
  split; [|exact Hone]. split.
  - intros (fuel & chunks & Hrun).
    destruct (Z.eq_dec co 0) as [|Hnz]; [now left|right].
    destruct (Z.le_gt_cases (len text) co) as [|Hgt]; [assumption|].
    unfold Japanese._chunk_by_morphemes in Hrun.
    rewrite (_chunk_by_chars_loop_diverges cs co text ltac:(lia) ltac:(lia))
      in Hrun by exact Hlen.
    discriminate.
  - intros [->|Hshort].
    + destruct (_chunk_by_chars_loop_partition cs text ltac:(lia)
                  (length text) 0 [] ltac:(lia) ltac:(unfold len; lia))
        as (pieces & Hrun & _).
      exists (length text), pieces. exact Hrun.
    + exists 1%nat, [text]. now apply Hone.
Qed.

Lemma X19_char_fallback_returns_iff_witness :
  ((exists fuel chunks,
       Japanese._chunk_by_morphemes None fuel 1000 100 spaces_101 = Ok chunks)
   <-> 100 = 0 \/ len spaces_101 <= 100)
  /\ (len spaces_101 <= 100 ->
      forall fuel,
        Japanese._chunk_by_morphemes None (S fuel) 1000 100 spaces_101
        = Ok [spaces_101]).
Proof.
  apply (X19_char_fallback_returns_iff 1000 100 spaces_101).
  - lia.
  - discriminate.
Defined.

Lemma consecutive_snoc {A : Type} (P : A * A -> Prop) (l : list A) (b : A) :
  Forall P (consecutive l) ->
  (forall init a, l = init ++ [a] -> P (a, b)) ->
  Forall P (consecutive (l ++ [b])).
Proof.
  induction l as [|x l IH]; intros Hall Hlast; [constructor|].
  destruct l as [|y l].
  - constructor; [|constructor]. now apply (Hlast []).
  - change (consecutive ((x :: y :: l) ++ [b]))
      with ((x, y) :: consecutive ((y :: l) ++ [b])).
    change (consecutive (x :: y :: l))
      with ((x, y) :: consecutive (y :: l)) in Hall.
    inversion Hall as [|? ? Hxy Hrest]; subst.
    constructor; [exact Hxy|]. apply IH; [exact Hrest|].
    intros init a E. apply (Hlast (x :: init)). cbn [app]. now rewrite E.
Qed.

Lemma slice_from_last_n (s : str) (co : Z) :
  0 < co -> slice_from s (Z.max 0 (len s - co)) = last_n co s.
Proof.
  intros H. unfold slice_from, last_n, norm_index, len.
  destruct (Z.ltb_spec (Z.max 0 (Z.of_nat (length s) - co)) 0); [lia|].
  f_equal. lia.
Qed.

Lemma morpheme_step_inv (cs co : Z) (done : list str)
  (st : list str * str) (m : str) :
  morpheme_inv cs co done st ->
  morpheme_inv cs co (done ++ [m]) (Japanese.morpheme_step cs co st m).
Proof.
  destruct st as [chunks cur]. unfold morpheme_inv. cbn [fst snd].
  intros (Hne & Hov & Hcat & Hsize).
  assert (Hdone : concat (done ++ [m]) = concat done ++ m)
    by (rewrite concat_app; cbn [concat]; now rewrite app_nil_r).
  assert (Hmono : forall c, len c <= cs \/ In c done ->
                            len c <= cs \/ In c (done ++ [m])).
  { intros c [H|H]; [now left|right]. apply in_or_app. now left. }
  assert (Hm : In m (done ++ [m])) by (apply in_or_app; right; now left).
  unfold Japanese.morpheme_step.
  destruct (Z.gtb_spec (len cur + len m) cs) as [Hgt|Hle].
  - destruct cur as [|x cur]; cbn [fst snd app].
    + split; [exact Hne|]. split; [|split].
      * intros Hpos. destruct (Hov Hpos) as [H1 H2]. split; [exact H1|].
        intros init a E. destruct (H2 init a E) as (tail & Ht).
        cbn [fst snd] in *. exists (tail ++ m). cbn [fst snd].
        symmetry in Ht. apply app_eq_nil in Ht. destruct Ht as [-> ->].
        reflexivity.
      * intros Hz. rewrite Hdone, <- (Hcat Hz), app_nil_r. reflexivity.
      * intros Hz. destruct (Hsize Hz) as [H1 _]. split.
        -- eapply Forall_impl; [|exact H1]. exact Hmono.
        -- right. now left.
    + destruct (Z.gtb_spec co 0) as [Hpos|Hz]; cbn [fst snd].
      * split; [apply Forall_app; split; [exact Hne|]; now repeat constructor|].
        split; [|split]; [|intros; lia|intros; lia].
        intros _. destruct (Hov Hpos) as [H1 H2]. split.
        -- apply consecutive_snoc; [exact H1|exact H2].
        -- intros init a E. apply app_inj_tail in E. destruct E as [_ <-].
           exists m. cbn [fst snd]. now rewrite slice_from_last_n.
      * split; [apply Forall_app; split; [exact Hne|]; now repeat constructor|].
        split; [intros; lia|]. split.
        -- intros _. rewrite Hdone, <- (Hcat Hz), concat_app. cbn [concat app].
           now rewrite app_nil_r, <- app_assoc.
        -- intros _. destruct (Hsize Hz) as [H1 H2]. split.
           ++ apply Forall_app. split.
              ** eapply Forall_impl; [|exact H1]. exact Hmono.
              ** constructor; [|constructor]. apply Hmono.
                 destruct H2 as [H|[H|H]]; [now left|now right|discriminate].
           ++ right. now left.
  - cbn [fst snd]. split; [exact Hne|]. split; [|split].
    + intros Hpos. destruct (Hov Hpos) as [H1 H2]. split; [exact H1|].
      intros init a E. destruct (H2 init a E) as (tail & Ht).
      cbn [fst snd] in *. exists (tail ++ m). cbn [fst snd].
      now rewrite Ht, <- app_assoc.
    + intros Hz. now rewrite Hdone, <- (Hcat Hz), <- app_assoc.
    + intros Hz. destruct (Hsize Hz) as [H1 _]. split.
      * eapply Forall_impl; [|exact H1]. exact Hmono.
      * left. unfold len in *. rewrite length_app. lia.
Qed.

Lemma morpheme_fold_inv (cs co : Z) (todo done : list str)
  (st : list str * str) :
  morpheme_inv cs co done st ->
  morpheme_inv cs co (done ++ todo)
    (fold_left (Japanese.morpheme_step cs co) todo st).
Proof.
  revert done st. induction todo as [|m r IH]; intros done st H.
  - now rewrite app_nil_r.
  - cbn [fold_left].
    replace (done ++ m :: r) with ((done ++ [m]) ++ r)
      by (now rewrite <- app_assoc).
    apply IH. now apply morpheme_step_inv.
Qed.

(** X20: with the morphological backend, [_chunk_by_morphemes] returns for
    every text and no chunk is empty.  With a positive [chunk_overlap] every
    chunk after the first starts with the last [chunk_overlap] code points
    of the chunk before it (with all of it when it is shorter).  With
    [chunk_overlap <= 0] the chunks put end to end are the morpheme surfaces
    put end to end, and a chunk has more than [chunk_size] code points only
    when it is a single morpheme. *)
Theorem X20_morpheme_chunks :
  forall (tagger : Tagger) (fuel : nat) (chunk_size chunk_overlap : Z)
         (text : str),
    exists chunks,
      Japanese._chunk_by_morphemes (Some tagger) fuel chunk_size chunk_overlap
                                   text
      = Ok chunks
      /\ Forall (fun c => c <> []) chunks
      /\ (0 < chunk_overlap ->
          Forall (overlaps chunk_overlap) (consecutive chunks))
      /\ (chunk_overlap <= 0 ->
          concat chunks = concat (tagger text)
          /\ Forall (fun c => len c <= chunk_size \/ In c (tagger text))
                    chunks).
Proof.
  intros tagger fuel cs co text. unfold Japanese._chunk_by_morphemes.
  assert (H0 : morpheme_inv cs co [] ([], [])).
  { unfold morpheme_inv. cbn [fst snd]. split; [constructor|].
    split; [|split]; [| |intros _; split; [constructor|now right; right]].
    - intros _. split; [constructor|]. intros [|? ?] a E; discriminate.
    - reflexivity. }
  pose proof (morpheme_fold_inv cs co (tagger text) [] _ H0) as Hinv.
  cbn [app] in Hinv.
  destruct (fold_left (Japanese.morpheme_step cs co) (tagger text) ([], []))
    as [chunks cur].
  destruct Hinv as (Hne & Hov & Hcat & Hsize). cbn [fst snd] in *.
  destruct cur as [|x cur].
  - exists chunks. split; [reflexivity|]. split; [exact Hne|]. split.
    + intros Hpos. now destruct (Hov Hpos).
    + intros Hz. split; [now rewrite <- (Hcat Hz), app_nil_r|].
      now destruct (Hsize Hz).
  - exists (chunks ++ [x :: cur]). split; [reflexivity|].
    split; [apply Forall_app; split; [exact Hne|]; now repeat constructor|].
    split.
    + intros Hpos. destruct (Hov Hpos) as [H1 H2].
      now apply consecutive_snoc.
    + intros Hz. split.
      * rewrite concat_app. cbn [concat]. now rewrite app_nil_r, (Hcat Hz).
      * destruct (Hsize Hz) as [H1 H2]. apply Forall_app. split; [exact H1|].
        constructor; [|constructor].
        destruct H2 as [H|[H|H]]; [now left|now right|discriminate].
Qed.

Lemma X20_morpheme_chunks_witness :
  exists chunks,
    Japanese._chunk_by_morphemes (Some char_tagger) 0 3 2 sample_phrase
    = Ok chunks
    /\ Forall (overlaps 2) (consecutive chunks).
Proof.
  destruct (X20_morpheme_chunks char_tagger 0 3 2 sample_phrase)
    as (chunks & Hrun & _ & Hov & _).
  exists chunks. split; [exact Hrun|]. apply Hov. reflexivity.
Defined.

(* ================================================================= *)
(** ** The overlap of the sentence-boundary chunker *)

Lemma total_len_app (a b : list str) :
  total_len (a ++ b) = total_len a + total_len b.
Proof.
  induction a as [|x a IH]; [reflexivity|].
  cbn [app total_len fold_right] in *. fold (total_len (a ++ b)).
  fold (total_len a). rewrite IH. lia.
Qed.

Lemma total_len_one (s : str) : total_len [s] = len s.
Proof. unfold total_len. cbn [fold_right]. lia. Qed.

Lemma overlap_loop_spec (co : Z) (rc : list str) :
  forall n acc,
    n = total_len acc -> n <= co ->
    exists taken rest,
      rc = taken ++ rest
      /\ fst (Default.overlap_loop co rc n acc) = rev taken ++ acc
      /\ snd (Default.overlap_loop co rc n acc)
         = total_len (rev taken ++ acc)
      /\ total_len (rev taken ++ acc) <= co
      /\ (forall s rest', rest = s :: rest' ->
                          total_len (rev taken ++ acc) + len s > co).
Proof.
  induction rc as [|s r IH]; intros n acc Hn Hle.
  - exists [], []. cbn [Default.overlap_loop rev app fst snd].
    split; [reflexivity|]. split; [reflexivity|]. split; [exact Hn|].
    split; [lia|]. intros s rest' E. discriminate.
  - cbn [Default.overlap_loop].
    destruct (Z.leb_spec (n + len s) co) as [Hfit|Hno].
    + destruct (IH (n + len s) (s :: acc)) as (taken & rest & E & H1 & H2 & H3 & H4).
      { change (s :: acc) with ([s] ++ acc).
        rewrite total_len_app, total_len_one. lia. }
      { exact Hfit. }
      assert (Hr : rev (s :: taken) ++ acc = rev taken ++ s :: acc)
        by (cbn [rev]; now rewrite <- app_assoc).
      exists (s :: taken), rest. rewrite Hr.
      split; [cbn [app]; now rewrite E|]. now repeat split.
    + exists [], (s :: r). cbn [rev app fst snd].
      split; [reflexivity|]. split; [reflexivity|]. split; [exact Hn|].
      split; [lia|]. intros s0 rest' E. inversion E; subst. lia.
Qed.

Lemma overlap_loop_overlap_of (co : Z) (cur : list str) :
  0 <= co ->
  overlap_of co cur (fst (Default.overlap_loop co (rev cur) 0 []))
  /\ snd (Default.overlap_loop co (rev cur) 0 [])
     = total_len (fst (Default.overlap_loop co (rev cur) 0 [])).
Proof.
  intros Hco.
  destruct (overlap_loop_spec co (rev cur) 0 [] eq_refl Hco)
    as (taken & rest & E & H1 & H2 & H3 & H4).
  rewrite app_nil_r in *. rewrite H1, H2. split; [|reflexivity].
  exists (rev rest). split; [|split; [exact H3|]].
  - rewrite <- rev_app_distr, <- E. now rewrite rev_involutive.
  - intros pre' s Hp. apply (H4 s (rev pre')).
    rewrite <- (rev_involutive rest), Hp, rev_app_distr. reflexivity.
Qed.

Lemma pack_step_overlap (cs co : Z) (done : list str)
  (st : Default.pack_state) (s : str) :
  overlap_inv cs co done st ->
  overlap_inv cs co (done ++ [s]) (Default.pack_step cs co st s).
Proof.
  destruct st as [[chunks cur] n]. unfold overlap_inv. cbn [fst snd].
  intros (groups & Hc & Hn & Hin & Hcin & Hov & Hw & Hcw).
  assert (Hmono : forall g : list str, incl g done -> incl g (done ++ [s]))
    by (intros g H x Hx; apply in_or_app; left; now apply H).
  assert (Hs : incl [s] (done ++ [s]))
    by (intros x [<-|[]]; apply in_or_app; right; now left).
  assert (Hone : forall ov, total_len ov <= Z.max 0 co ->
                            within cs co (ov ++ [s]))
    by (intros ov H; right; now exists ov, s).
  unfold Default.pack_step.
  destruct (Z.gtb_spec (n + len s) cs) as [Hgt|Hle].
  - destruct cur as [|c0 cur].
    + exists groups. cbn [fst snd app].
      split; [exact Hc|].
      split; [rewrite total_len_one, Hn; reflexivity|].
      split; [eapply Forall_impl; [|exact Hin]; exact Hmono|].
      split; [exact Hs|]. split; [|split; [exact Hw|]].
      * intros Hpos. destruct (Hov Hpos) as [H1 H2]. split; [exact H1|].
        intros init g E. destruct (H2 init g E) as (ov & rest & Er & Hr & _).
        cbn [fst snd] in Er. symmetry in Er. apply app_eq_nil in Er.
        destruct Er as [_ ->]. congruence.
      * right. apply (Hone []). cbn. lia.
    + assert (Hcur : within cs co (c0 :: cur))
        by (destruct Hcw as [|H]; [discriminate|exact H]).
      destruct (Z.gtb_spec co 0) as [Hpos|Hz].
      * destruct (overlap_loop_overlap_of co (c0 :: cur) ltac:(lia))
          as [Hof Hol].
        destruct (Default.overlap_loop co (rev (c0 :: cur)) 0 [])
          as [ov ol]. cbn [fst snd] in *.
        exists (groups ++ [c0 :: cur]).
        split; [now rewrite map_app, Hc|].
        split; [rewrite total_len_app, total_len_one, Hol; reflexivity|].
        assert (Hovin : incl ov (c0 :: cur)).
        { destruct Hof as (pre & E & _). rewrite E. intros x Hx.
          apply in_or_app. now right. }
        split.
        { apply Forall_app. split.
          - eapply Forall_impl; [|exact Hin]. exact Hmono.
          - constructor; [now apply Hmono|constructor]. }
        split.
        { intros x Hx. apply in_app_or in Hx. destruct Hx as [Hx|Hx].
          - apply Hmono in Hcin. apply Hcin. now apply Hovin.
          - now apply Hs. }
        split; [|split].
        -- intros _. destruct (Hov Hpos) as [H1 H2]. split.
           ++ apply consecutive_snoc; [exact H1|exact H2].
           ++ intros init g E. apply app_inj_tail in E. destruct E as [_ <-].
              exists ov, [s]. cbn [fst snd].
              split; [reflexivity|]. split; [discriminate|exact Hof].
        -- apply Forall_app. split; [exact Hw|].
           constructor; [exact Hcur|constructor].
        -- right. apply Hone. destruct Hof as (_ & _ & H & _). lia.
      * exists (groups ++ [c0 :: cur]). cbn [fst snd app].
        split; [now rewrite map_app, Hc|].
        split; [rewrite total_len_one; reflexivity|].
        split.
        { apply Forall_app. split.
          - eapply Forall_impl; [|exact Hin]. exact Hmono.
          - constructor; [now apply Hmono|constructor]. }
        split; [exact Hs|]. split; [intros; lia|]. split.
        -- apply Forall_app. split; [exact Hw|].
           constructor; [exact Hcur|constructor].
        -- right. apply (Hone []). cbn. lia.
  - exists groups. cbn [fst snd].
    split; [exact Hc|].
    split; [rewrite total_len_app, total_len_one, Hn; reflexivity|].
    split; [eapply Forall_impl; [|exact Hin]; exact Hmono|].
    split.
    { intros x Hx. apply in_app_or in Hx. destruct Hx as [Hx|Hx].
      - apply (Hmono _ Hcin). exact Hx.
      - now apply Hs. }
    split; [|split; [exact Hw|]].
    + intros Hpos. destruct (Hov Hpos) as [H1 H2]. split; [exact H1|].
      intros init g E. destruct (H2 init g E) as (ov & rest & Er & Hr & Hof).
      cbn [fst snd] in *. exists ov, (rest ++ [s]). cbn [fst snd].
      split; [now rewrite Er, <- app_assoc|]. split; [|exact Hof].
      intros H. apply app_eq_nil in H. now destruct H.
    + right. left. rewrite total_len_app, total_len_one. lia.
Qed.

Lemma pack_fold_overlap (cs co : Z) (todo done : list str)
  (st : Default.pack_state) :
  overlap_inv cs co done st ->
  overlap_inv cs co (done ++ todo)
    (fold_left (Default.pack_step cs co) todo st).
Proof.
  revert done st. induction todo as [|s r IH]; intros done st H.
  - now rewrite app_nil_r.
  - cbn [fold_left].
    replace (done ++ s :: r) with ((done ++ [s]) ++ r)
      by (now rewrite <- app_assoc).
    apply IH. now apply pack_step_overlap.
Qed.

(** X21: on a text that is not blank the chunks of the sentence-boundary
    chunker are groups of sentences of the text joined by one space, such
    that: with a positive [chunk_overlap], every group after the first is
    the overlap taken from the group before it (the longest run of whole
    sentences at its end with at most [chunk_overlap] code points in all)
    followed by at least one further sentence; and the sentences of a group
    have at most [chunk_size] code points in all unless the group is an
    overlap followed by a single sentence. *)
Theorem X21_default_overlap_groups :
  forall (fuel : nat) (chunk_size chunk_overlap : Z) (text : str),
    has_ink text = true ->
    exists groups,
      Default.chunk_text fuel chunk_size chunk_overlap text
      = Ok (map (join [32%N]) groups)
      /\ Forall (fun g => incl g (Default._split_sentences text)) groups
      /\ (0 < chunk_overlap ->
          Forall (shares_overlap chunk_overlap) (consecutive groups))
      /\ Forall (within chunk_size chunk_overlap) groups.
Proof.
  intros fuel cs co text Hink.
  pose proof (DefaultFacts.default_split_sentences_nonempty _ Hink) as Hne.
  unfold Default.chunk_text.
  destruct text as [|c t]; [discriminate|].
  destruct (Default._split_sentences (c :: t)) as [|s ss] eqn:Es;
    [congruence|].
  assert (H0 : overlap_inv cs co [] ([], [], 0)).
  { exists []. cbn [fst snd map]. split; [reflexivity|].
    split; [reflexivity|]. split; [constructor|].
    split; [intros x []|]. split; [|split; [constructor|now left]].
    intros _. split; [constructor|]. intros [|? ?] g E; discriminate. }
  pose proof (pack_fold_overlap cs co (s :: ss) [] _ H0) as Hinv.
  cbn [app] in Hinv.
  destruct (fold_left (Default.pack_step cs co) (s :: ss) ([], [], 0))
    as [[chunks cur] n].
  destruct Hinv as (groups & Hc & Hn & Hin & Hcin & Hov & Hw & Hcw).
  cbn [fst snd] in *.
  destruct cur as [|x cur].
  - exists groups. rewrite Hc. split; [reflexivity|].
    split; [exact Hin|]. split; [|exact Hw].
    intros Hpos. now destruct (Hov Hpos).
  - exists (groups ++ [x :: cur]).
    split; [rewrite map_app, Hc; reflexivity|].
    split; [apply Forall_app; split; [exact Hin|];
            constructor; [exact Hcin|constructor]|].
    split.
    + intros Hpos. destruct (Hov Hpos) as [H1 H2].
      now apply consecutive_snoc.
    + apply Forall_app. split; [exact Hw|].
      constructor; [|constructor].
      destruct Hcw as [|H]; [discriminate|exact H].
Qed.

Lemma X21_default_overlap_groups_witness :
  exists groups,
    Default.chunk_text 0 9 4 (py "One. Two. Three.")
    = Ok (map (join [32%N]) groups)
    /\ Forall (fun g => incl g (Default._split_sentences
                                  (py "One. Two. Three."))) groups
    /\ (0 < 4 -> Forall (shares_overlap 4) (consecutive groups))
    /\ Forall (within 9 4) groups.
Proof.
  apply (X21_default_overlap_groups 0 9 4 (py "One. Two. Three.")).
  vm_compute. reflexivity.
Defined.
